(** * simple-crm: the tabular data engine of [script.js]

    A shallow embedding of the data engine of class [SimpleCRM]: the venue
    store with import, export and duplicate detection, the filtered, sorted
    and paginated view, the edit dialog, the change history and its table,
    the status pipeline and the board, the location table, its search and
    the location resolver.

    Conventions of the embedding.
    - A JavaScript string is a [string] of bytes; [trim] and [toLowerCase]
      act on the ASCII range (white space 9-13 and 32, letters A-Z).
    - A plain object used as an insertion-ordered map (a venue record,
      [geoData]) is an association list with one entry per key, in the
      order of insertion.  This is the order of [Object.keys] for keys
      that do not read as array indices; a key such as 2024, which the
      engine lists before the others, is not told apart.
    - Venue records are shared between [venues] and [filteredVenues] by
      reference: the state carries a heap of objects and both arrays hold
      locations.
    - Numbers of [Number] and [parseFloat] are exact rationals extended by
      the two infinities and NaN; page numbers and counts are integers.
    - The clock ([new Date().toISOString()]), the locale formatting of a
      date and the contents of DOM inputs are arguments of the operations
      that read them. *)

From Stdlib Require Import Bool Ascii String List ZArith QArith Lia.
From Stdlib Require Import Sorting.Sorted Sorting.Permutation.
Import ListNotations.

Local Open Scope string_scope.
Local Open Scope Z_scope.
Local Open Scope list_scope.

(** ** JavaScript string primitives *)

Module JsString.

(** White space removed by [String.prototype.trim] (ASCII range). *)
Definition isWhite (c : ascii) : bool :=
  let n := nat_of_ascii c in
  ((9 <=? n) && (n <=? 13))%nat || (n =? 32)%nat.

Fixpoint trimStart (s : string) : string :=
  match s with
  | EmptyString => EmptyString
  | String c r => if isWhite c then trimStart r else s
  end.

(** [trimEnd] drops the longest white suffix. *)
Fixpoint trimEnd (s : string) : string :=
  match s with
  | EmptyString => EmptyString
  | String c r =>
      match trimEnd r with
      | EmptyString => if isWhite c then EmptyString else String c EmptyString
      | r' => String c r'
      end
  end.

Definition trim (s : string) : string := trimEnd (trimStart s).

Definition lowerChar (c : ascii) : ascii :=
  let n := nat_of_ascii c in
  if ((65 <=? n) && (n <=? 90))%nat then ascii_of_nat (n + 32) else c.

Fixpoint toLowerCase (s : string) : string :=
  match s with
  | EmptyString => EmptyString
  | String c r => String (lowerChar c) (toLowerCase r)
  end.

(** [s.startsWith(p)]. *)
Definition startsWith (s p : string) : bool := String.prefix p s.

(** [s.includes(sub)]: [sub] occurs somewhere in [s]. *)
Fixpoint includes (s sub : string) : bool :=
  String.prefix sub s ||
  match s with
  | EmptyString => false
  | String _ r => includes r sub
  end.

(** [s.split(sep)] for a one-character separator: never the empty list. *)
Fixpoint split (sep : ascii) (s : string) : list string :=
  match s with
  | EmptyString => [EmptyString]
  | String c r =>
      if Ascii.eqb c sep then EmptyString :: split sep r
      else match split sep r with
           | [] => [String c EmptyString]
           | w :: ws => String c w :: ws
           end
  end.

Fixpoint drop (n : nat) (s : string) : string :=
  match n, s with
  | O, _ => s
  | S n', String _ r => drop n' r
  | S _, EmptyString => EmptyString
  end.

(** [s.replace(pat, rep)] with a string pattern: the first occurrence only. *)
Fixpoint replaceFirst (s pat rep : string) : string :=
  if String.prefix pat s then String.append rep (drop (String.length pat) s)
  else match s with
       | EmptyString => EmptyString
       | String c r => String c (replaceFirst r pat rep)
       end.

(** The regular expressions built by [new RegExp(abbr, 'g')] from the keys
    of the city table: every character stands for itself except the dot,
    which matches any character but a line terminator. *)
Inductive pchar : Type :=
| PLit (c : ascii)
| PAny.

Fixpoint regexOfSource (src : string) : list pchar :=
  match src with
  | EmptyString => []
  | String c r =>
      (if Ascii.eqb c "."%char then PAny else PLit c) :: regexOfSource r
  end.

Definition isLineTerminator (c : ascii) : bool :=
  let n := nat_of_ascii c in ((n =? 10) || (n =? 13))%nat.

Definition pcharMatches (p : pchar) (c : ascii) : bool :=
  match p with
  | PLit d => Ascii.eqb c d
  | PAny => negb (isLineTerminator c)
  end.

(** The rest of [s] after a match of [re] anchored at its start. *)
Fixpoint matchAt (re : list pchar) (s : string) : option string :=
  match re, s with
  | [], _ => Some s
  | p :: re', String c r => if pcharMatches p c then matchAt re' r else None
  | _ :: _, EmptyString => None
  end.

(** [s.replace(re, rep)] with the global flag, for a pattern that matches
    no empty string: matches are taken leftmost first and do not overlap.
    [fuel] bounds the number of scanning steps; [regexReplaceAll] gives
    enough for the whole string. *)
Fixpoint regexReplaceFrom (fuel : nat) (re : list pchar) (rep s : string)
  : string :=
  match fuel with
  | O => s
  | S fuel' =>
      match s with
      | EmptyString => EmptyString
      | String c r =>
          match matchAt re s with
          | Some rest => String.append rep (regexReplaceFrom fuel' re rep rest)
          | None => String c (regexReplaceFrom fuel' re rep r)
          end
      end
  end.

Definition regexReplaceAll (re : list pchar) (rep s : string) : string :=
  match re with
  | [] => s
  | _ => regexReplaceFrom (S (String.length s)) re rep s
  end.

(** String comparison with [<]: by code units, a proper prefix is smaller. *)
Definition ltb (a b : string) : bool :=
  match String.compare a b with Lt => true | _ => false end.

End JsString.

(** ** JavaScript numbers read from strings *)

Module JsNumber.

(** The value of a numeric string.  Finite values are exact rationals: the
    model agrees with IEEE doubles on every comparison of two cells unless
    the cells differ by less than the rounding of their doubles or exceed
    the double range. *)
Inductive num : Type :=
| NaN
| Fin (q : Q)
| PosInf
| NegInf.

(** The value of character [c] as a digit of [base], for bases up to 16. *)
Definition digitOfBase (base : Z) (c : ascii) : option Z :=
  let n := Z.of_nat (nat_of_ascii c) in
  let v := if (48 <=? n) && (n <=? 57) then n - 48
           else if (97 <=? n) && (n <=? 102) then n - 87
           else if (65 <=? n) && (n <=? 70) then n - 55
           else 16 in
  if v <? base then Some v else None.

(** The longest run of decimal digits at the start of [s]: its value
    appended to [acc], the number of digits read, and the rest. *)
Fixpoint digits (s : string) (acc : Z) (n : Z) : Z * Z * string :=
  match s with
  | EmptyString => (acc, n, s)
  | String c r =>
      match digitOfBase 10 c with
      | Some d => digits r (10 * acc + d) (n + 1)
      | None => (acc, n, s)
      end
  end.

(** A whole string of digits of [base], at least one. *)
Fixpoint radixDigits (base : Z) (s : string) (acc : Z) : option Z :=
  match s with
  | EmptyString => Some acc
  | String c r =>
      match digitOfBase base c with
      | Some d => radixDigits base r (base * acc + d)
      | None => None
      end
  end.

(** [m * 10^e] as a rational. *)
Definition scale10 (m e : Z) : Q :=
  if 0 <=? e then inject_Z (m * 10 ^ e)
  else Qmake m (Z.to_pos (10 ^ (- e))).

Definition isChar (c : ascii) (s : string) : option string :=
  match s with
  | String d r => if Ascii.eqb c d then Some r else None
  | EmptyString => None
  end.

(** ExponentPart: [e] or [E], an optional sign, at least one digit.  The
    exponent read (0 when there is none) and the rest. *)
Definition exponentPart (s : string) : Z * string :=
  match s with
  | String c r =>
      if Ascii.eqb c "e"%char || Ascii.eqb c "E"%char then
        let '(neg, r1) :=
          match isChar "-"%char r, isChar "+"%char r with
          | Some r', _ => (true, r')
          | None, Some r' => (false, r')
          | None, None => (false, r)
          end in
        let '(e, n, r2) := digits r1 0 0 in
        if n =? 0 then (0, s) else ((if neg then - e else e), r2)
      else (0, s)
  | EmptyString => (0, s)
  end.

(** StrUnsignedDecimalLiteral at the start of [s]: the longest one, with
    what follows it. *)
Definition unsignedDecimal (s : string) : option (num * string) :=
  if String.prefix "Infinity" s then Some (PosInf, JsString.drop 8 s)
  else
    let '(ip, ni, r1) := digits s 0 0 in
    match isChar "."%char r1 with
    | Some r2 =>
        let '(m, nf, r3) := digits r2 ip 0 in
        if (ni =? 0) && (nf =? 0) then None
        else let '(e, r4) := exponentPart r3 in
             Some (Fin (scale10 m (e - nf)), r4)
    | None =>
        if ni =? 0 then None
        else let '(e, r4) := exponentPart r1 in
             Some (Fin (scale10 ip e), r4)
    end.

Definition negate (v : num) : num :=
  match v with
  | NaN => NaN
  | Fin q => Fin (Qopp q)
  | PosInf => NegInf
  | NegInf => PosInf
  end.

(** StrDecimalLiteral at the start of [s]. *)
Definition signedDecimal (s : string) : option (num * string) :=
  match isChar "-"%char s, isChar "+"%char s with
  | Some r, _ =>
      match unsignedDecimal r with
      | Some (v, rest) => Some (negate v, rest)
      | None => None
      end
  | None, Some r => unsignedDecimal r
  | None, None => unsignedDecimal s
  end.

(** NonDecimalIntegerLiteral: [0x], [0o] or [0b] and digits, unsigned. *)
Definition nonDecimal (s : string) : option Z :=
  match s with
  | String "0" (String c (String d r)) =>
      let body := String d r in
      if Ascii.eqb c "x"%char || Ascii.eqb c "X"%char then radixDigits 16 body 0
      else if Ascii.eqb c "o"%char || Ascii.eqb c "O"%char then radixDigits 8 body 0
      else if Ascii.eqb c "b"%char || Ascii.eqb c "B"%char then radixDigits 2 body 0
      else None
  | _ => None
  end.

(** [Number(s)]: white space around the literal is ignored, a blank string
    is 0, anything that is not a whole numeric literal is NaN. *)
Definition Number (s : string) : num :=
  let t := JsString.trim s in
  match t with
  | EmptyString => Fin 0
  | _ =>
      match nonDecimal t with
      | Some n => Fin (inject_Z n)
      | None =>
          match signedDecimal t with
          | Some (v, EmptyString) => v
          | _ => NaN
          end
      end
  end.

(** [isNaN(s)] on a string converts with [Number] first. *)
Definition isNaN (s : string) : bool :=
  match Number s with NaN => true | _ => false end.

(** [parseFloat(s)]: the longest decimal literal after leading white
    space, NaN when there is none. *)
Definition parseFloat (s : string) : num :=
  match signedDecimal (JsString.trimStart s) with
  | Some (v, _) => v
  | None => NaN
  end.

(** [v || 0]: NaN and zero are falsy. *)
Definition orZero (v : num) : num :=
  match v with
  | NaN => Fin 0
  | Fin q => if Qeq_bool q 0 then Fin 0 else v
  | _ => v
  end.

(** [a < b] on numbers; every comparison with NaN is false. *)
Definition ltb (a b : num) : bool :=
  match a, b with
  | NaN, _ | _, NaN => false
  | NegInf, NegInf => false
  | NegInf, _ => true
  | _, NegInf => false
  | PosInf, _ => false
  | Fin _, PosInf => true
  | Fin p, Fin q => match Qcompare p q with Lt => true | _ => false end
  end.

End JsNumber.

(** ** Arrays *)

Module JsArray.

Section Sort.
Context {A : Type}.
Variable compareFn : A -> A -> Z.

(** [insert x l] puts [x] in front of the first element it is not
    greater than. *)
Fixpoint insert (x : A) (l : list A) : list A :=
  match l with
  | [] => [x]
  | y :: ys => if 0 <? compareFn x y then y :: insert x ys else x :: l
  end.

(** [Array.prototype.sort(compareFn)].  The sort of ECMAScript is stable,
    and for a consistent comparator its result is the only stable sorted
    arrangement, which insertion from the right computes.  For an
    inconsistent comparator ECMAScript leaves the order to the engine. *)
Fixpoint sort (l : list A) : list A :=
  match l with
  | [] => []
  | x :: xs => insert x (sort xs)
  end.
End Sort.

(** [arr.findIndex(v => v === x)] on an array of references. *)
Fixpoint findIndex (x : nat) (arr : list nat) : option nat :=
  match arr with
  | [] => None
  | y :: ys => if Nat.eqb y x then Some O
               else option_map S (findIndex x ys)
  end.

(** [arr.splice(i, 1)]. *)
Definition splice1 {A : Type} (i : nat) (arr : list A) : list A :=
  firstn i arr ++ skipn (S i) arr.

(** [arr[i] = x] for [i] inside the array. *)
Fixpoint assign {A : Type} (i : nat) (x : A) (arr : list A) : list A :=
  match arr, i with
  | [], _ => []
  | _ :: ys, O => x :: ys
  | y :: ys, S i' => y :: assign i' x ys
  end.

End JsArray.

(** ** Data model *)

(** A venue record: a plain object from column name to cell, own
    properties in insertion order, one entry per key.  (JavaScript lists
    keys that are array indices first; column names are taken not to be
    numerals.) *)
Definition venue : Type := list (string * string).

(** [o[k]]: [None] stands for [undefined]. *)
Fixpoint getProp (k : string) (o : venue) : option string :=
  match o with
  | [] => None
  | (k', v) :: r => if String.eqb k' k then Some v else getProp k r
  end.

(** [o[k] || '']. *)
Definition propOr (o : venue) (k : string) : string :=
  match getProp k o with
  | Some v => v
  | None => EmptyString
  end.

(** Truthiness of [o[k]]: defined and not the empty string. *)
Definition truthyProp (o : venue) (k : string) : bool :=
  match getProp k o with
  | Some EmptyString | None => false
  | Some _ => true
  end.

(** [o[k] = v]: an existing key keeps its place, a new one goes last. *)
Fixpoint setProp (k v : string) (o : venue) : venue :=
  match o with
  | [] => [(k, v)]
  | (k', v') :: r =>
      if String.eqb k' k then (k', v) :: r else (k', v') :: setProp k v r
  end.

(** [Object.keys(o)] and [Object.values(o)]. *)
Definition keys (o : venue) : list string := map fst o.
Definition values (o : venue) : list string := map snd o.

(** References to venue objects, and the objects they denote. *)
Definition loc : Type := nat.
Definition deref (hp : list venue) (l : loc) : venue := nth l hp [].

Inductive direction : Type := asc | desc.

Inductive historyAction : Type := Add | Edit | Delete.

Record change : Type := mkChange {
  field : string;
  oldValue : string;
  newValue : string
}.

Record historyEntry : Type := mkEntry {
  id : Q;
  timestamp : string;
  action : historyAction;
  venueId : string;
  venueName : string;
  city : string;
  state : string;
  changes : option (list change)
}.

(** What the operations read from the host: the clock as an ISO-8601
    string, the number [Date.now() + Math.random()], the locale rendering
    of a date string and the time value of [new Date(s)]. *)
Record host : Type := mkHost {
  isoNow : string;
  freshId : Q;
  toLocaleString : string -> string;
  dateValue : string -> JsNumber.num
}.

(** The fields of [SimpleCRM] the data engine uses, and the heap of the
    venue objects the arrays refer to. *)
Record crm : Type := mkCrm {
  heap : list venue;
  venues : list loc;
  filteredVenues : list loc;
  headers : list string;
  currentEditIndex : Z;
  tempNewVenue : option loc;
  sortColumn : option string;
  sortDirection : direction;
  currentPage : Z;
  pageSize : Z;
  totalPages : Z;
  statusFilters : list string;
  regionFilters : list string;
  typeFilters : list string;
  history : list historyEntry
}.

(** The state the constructor builds before anything is loaded. *)
Definition initial : crm :=
  mkCrm [] [] [] [] (-1) None None asc 1 50 1 [] [] [] [].

Definition set_heap (x : list venue) (s : crm) : crm :=
  mkCrm x (venues s) (filteredVenues s) (headers s) (currentEditIndex s)
    (tempNewVenue s) (sortColumn s) (sortDirection s) (currentPage s)
    (pageSize s) (totalPages s) (statusFilters s) (regionFilters s)
    (typeFilters s) (history s).

Definition set_venues (x : list loc) (s : crm) : crm :=
  mkCrm (heap s) x (filteredVenues s) (headers s) (currentEditIndex s)
    (tempNewVenue s) (sortColumn s) (sortDirection s) (currentPage s)
    (pageSize s) (totalPages s) (statusFilters s) (regionFilters s)
    (typeFilters s) (history s).

Definition set_filteredVenues (x : list loc) (s : crm) : crm :=
  mkCrm (heap s) (venues s) x (headers s) (currentEditIndex s)
    (tempNewVenue s) (sortColumn s) (sortDirection s) (currentPage s)
    (pageSize s) (totalPages s) (statusFilters s) (regionFilters s)
    (typeFilters s) (history s).

Definition set_headers (x : list string) (s : crm) : crm :=
  mkCrm (heap s) (venues s) (filteredVenues s) x (currentEditIndex s)
    (tempNewVenue s) (sortColumn s) (sortDirection s) (currentPage s)
    (pageSize s) (totalPages s) (statusFilters s) (regionFilters s)
    (typeFilters s) (history s).

Definition set_currentEditIndex (x : Z) (s : crm) : crm :=
  mkCrm (heap s) (venues s) (filteredVenues s) (headers s) x
    (tempNewVenue s) (sortColumn s) (sortDirection s) (currentPage s)
    (pageSize s) (totalPages s) (statusFilters s) (regionFilters s)
    (typeFilters s) (history s).

Definition set_tempNewVenue (x : option loc) (s : crm) : crm :=
  mkCrm (heap s) (venues s) (filteredVenues s) (headers s)
    (currentEditIndex s) x (sortColumn s) (sortDirection s) (currentPage s)
    (pageSize s) (totalPages s) (statusFilters s) (regionFilters s)
    (typeFilters s) (history s).

Definition set_sort (c : option string) (d : direction) (s : crm) : crm :=
  mkCrm (heap s) (venues s) (filteredVenues s) (headers s)
    (currentEditIndex s) (tempNewVenue s) c d (currentPage s)
    (pageSize s) (totalPages s) (statusFilters s) (regionFilters s)
    (typeFilters s) (history s).

Definition set_currentPage (x : Z) (s : crm) : crm :=
  mkCrm (heap s) (venues s) (filteredVenues s) (headers s)
    (currentEditIndex s) (tempNewVenue s) (sortColumn s) (sortDirection s) x
    (pageSize s) (totalPages s) (statusFilters s) (regionFilters s)
    (typeFilters s) (history s).

Definition set_pageSize (x : Z) (s : crm) : crm :=
  mkCrm (heap s) (venues s) (filteredVenues s) (headers s)
    (currentEditIndex s) (tempNewVenue s) (sortColumn s) (sortDirection s)
    (currentPage s) x (totalPages s) (statusFilters s) (regionFilters s)
    (typeFilters s) (history s).

Definition set_totalPages (x : Z) (s : crm) : crm :=
  mkCrm (heap s) (venues s) (filteredVenues s) (headers s)
    (currentEditIndex s) (tempNewVenue s) (sortColumn s) (sortDirection s)
    (currentPage s) (pageSize s) x (statusFilters s) (regionFilters s)
    (typeFilters s) (history s).

Definition set_filters (st rg ty : list string) (s : crm) : crm :=
  mkCrm (heap s) (venues s) (filteredVenues s) (headers s)
    (currentEditIndex s) (tempNewVenue s) (sortColumn s) (sortDirection s)
    (currentPage s) (pageSize s) (totalPages s) st rg ty (history s).

Definition set_history (x : list historyEntry) (s : crm) : crm :=
  mkCrm (heap s) (venues s) (filteredVenues s) (headers s)
    (currentEditIndex s) (tempNewVenue s) (sortColumn s) (sortDirection s)
    (currentPage s) (pageSize s) (totalPages s) (statusFilters s)
    (regionFilters s) (typeFilters s) x.

(** [{ ...o }] stored somewhere: a new object with the same properties. *)
Definition alloc (o : venue) (s : crm) : loc * crm :=
  (length (heap s), set_heap (heap s ++ [o]) s).

(** An assignment to properties of the object at [l]. *)
Definition update (l : loc) (f : venue -> venue) (s : crm) : crm :=
  set_heap (JsArray.assign l (f (deref (heap s) l)) (heap s)) s.

(** The records of the store, in order. *)
Definition records (s : crm) : list venue := map (deref (heap s)) (venues s).

(** The records of the view, in order. *)
Definition view (s : crm) : list venue :=
  map (deref (heap s)) (filteredVenues s).

(** ** Change history *)

(** [(venue.F || '').trim().toLowerCase()]. *)
Definition keyPart (o : venue) (k : string) : string :=
  JsString.toLowerCase (JsString.trim (propOr o k)).

Definition getVenueId (o : venue) : string :=
  String.append (keyPart o "Venue")
    (String.append "|" (String.append (keyPart o "City")
       (String.append "|" (keyPart o "State")))).

(** [addHistoryEntry(action, venue, changes)]: the entry goes to the front
    of the log. *)
Definition addHistoryEntry (h : host) (a : historyAction) (o : venue)
    (chg : option (list change)) (s : crm) : crm :=
  let historyEntry :=
    mkEntry (freshId h) (isoNow h) a (getVenueId o)
      (if truthyProp o "Venue" then propOr o "Venue" else "Unknown Venue")
      (propOr o "City") (propOr o "State") chg in
  set_history (historyEntry :: history s) s.

(** The elements of a list in the order of their first occurrence, as
    [new Set([...])] iterates them. *)
Fixpoint uniq (seen l : list string) : list string :=
  match l with
  | [] => []
  | k :: r =>
      if existsb (String.eqb k) seen then uniq seen r
      else k :: uniq (k :: seen) r
  end.

(** [getChangesDescription(oldVenue, newVenue)]: [None] stands for
    [null]. *)
Definition getChangesDescription (oldVenue newVenue : venue)
  : option (list change) :=
  let allKeys := uniq [] (keys oldVenue ++ keys newVenue) in
  let changes :=
    flat_map (fun key =>
      let oldValue := propOr oldVenue key in
      let newValue := propOr newVenue key in
      if String.eqb oldValue newValue then []
      else [mkChange key oldValue newValue]) allKeys in
  match changes with
  | [] => None
  | _ => Some changes
  end.

(** ** Pagination *)

(** [Math.ceil(n / p)] for a count [n] and a positive page size [p]. *)
Definition ceilDiv (n p : Z) : Z := - ((- n) / p).

Definition calculatePagination (s : crm) : crm :=
  let s1 :=
    set_totalPages
      (ceilDiv (Z.of_nat (length (filteredVenues s))) (pageSize s)) s in
  if totalPages s1 <? currentPage s1
  then set_currentPage (Z.max 1 (totalPages s1)) s1
  else s1.

(** [updateTable()]: of its effects only the recomputation of the
    pagination touches the state; the rest draws the table. *)
Definition updateTable (s : crm) : crm := calculatePagination s.

(** The slice of the view [updateTable] draws. *)
Definition currentPageData (s : crm) : list loc :=
  let startIndex := (currentPage s - 1) * pageSize s in
  firstn (Z.to_nat (pageSize s)) (skipn (Z.to_nat startIndex) (filteredVenues s)).

Definition goToPage (page : Z) (s : crm) : crm :=
  if (1 <=? page) && (page <=? totalPages s)
     && negb (page =? currentPage s)
  then updateTable (set_currentPage page s)
  else s.

(** The listener of the page size selector. *)
Definition changePageSize (size : Z) (s : crm) : crm :=
  updateTable (set_currentPage 1 (set_pageSize size s)).

(** ** Sorting *)

(** The two values a comparator ends up comparing with [<] and [>]. *)
Inductive sortKey : Type :=
| KNum (n : JsNumber.num)
| KStr (s : string).

Definition keyLt (x y : sortKey) : bool :=
  match x, y with
  | KNum a, KNum b => JsNumber.ltb a b
  | KStr a, KStr b => JsString.ltb a b
  | _, _ => false
  end.

(** The branch "Handle numeric values" of the column comparator. *)
Definition sortKeys (aVal bVal : string) : sortKey * sortKey :=
  if negb (JsNumber.isNaN aVal) && negb (JsNumber.isNaN bVal)
  then (KNum (JsNumber.orZero (JsNumber.parseFloat aVal)),
        KNum (JsNumber.orZero (JsNumber.parseFloat bVal)))
  else (KStr (JsString.toLowerCase aVal), KStr (JsString.toLowerCase bVal)).

Definition directed (d : direction) (aVal bVal : sortKey) : Z :=
  if keyLt aVal bVal then match d with asc => -1 | desc => 1 end
  else if keyLt bVal aVal then match d with asc => 1 | desc => -1 end
  else 0.

(** The comparator of [sortByColumn] and of [applyCurrentSort]. *)
Definition columnCompare (column : string) (d : direction) (a b : venue) : Z :=
  let '(aVal, bVal) := sortKeys (propOr a column) (propOr b column) in
  directed d aVal bVal.

(** The comparator of the re-sort by [Last Updated]: two dates when both
    cells are filled, the two raw strings otherwise. *)
Definition lastUpdatedCompare (h : host) (d : direction) (a b : venue) : Z :=
  let aVal := propOr a "Last Updated" in
  let bVal := propOr b "Last Updated" in
  if truthyProp a "Last Updated" && truthyProp b "Last Updated"
  then directed d (KNum (dateValue h aVal)) (KNum (dateValue h bVal))
  else directed d (KStr aVal) (KStr bVal).

Definition flip (d : direction) : direction :=
  match d with asc => desc | desc => asc end.

Definition sameColumn (c : option string) (column : string) : bool :=
  match c with
  | Some c' => String.eqb c' column
  | None => false
  end.

Definition sortView (cmp : venue -> venue -> Z) (s : crm) : crm :=
  set_filteredVenues
    (JsArray.sort (fun a b => cmp (deref (heap s) a) (deref (heap s) b))
       (filteredVenues s)) s.

Definition sortByColumn (column : string) (s : crm) : crm :=
  let s1 :=
    if sameColumn (sortColumn s) column
    then set_sort (sortColumn s) (flip (sortDirection s)) s
    else set_sort (Some column) asc s in
  let s2 := sortView (columnCompare column (sortDirection s1)) s1 in
  updateTable (set_currentPage 1 s2).

(** [if (this.sortColumn)]: a column is set and its name is not empty. *)
Definition activeSortColumn (s : crm) : option string :=
  match sortColumn s with
  | Some EmptyString | None => None
  | Some c => Some c
  end.

Definition applyCurrentSort (s : crm) : crm :=
  match activeSortColumn s with
  | None => s
  | Some c => updateTable (sortView (columnCompare c (sortDirection s)) s)
  end.

(** The re-sort after a change of a record, when the view is sorted by
    [Last Updated]; the table is redrawn either way. *)
Definition resortLastUpdated (h : host) (s : crm) : crm :=
  if sameColumn (sortColumn s) "Last Updated"
  then updateTable (sortView (lastUpdatedCompare h (sortDirection s)) s)
  else updateTable s.

(** ** Filtering *)

(** [allow.length === 0 || (venue[k] && allow.includes(venue[k]))]. *)
Definition allowMatch (allow : list string) (o : venue) (k : string) : bool :=
  (length allow =? 0)%nat
  || (truthyProp o k && existsb (String.eqb (propOr o k)) allow).

(** [!searchFilter || Object.values(venue).some(...)]. *)
Definition searchMatch (searchFilter : string) (o : venue) : bool :=
  String.eqb searchFilter EmptyString
  || existsb (fun value =>
        negb (String.eqb value EmptyString)
        && JsString.includes (JsString.toLowerCase value) searchFilter)
       (values o).

(** [applyFilters()]; [searchInput] is the value of the search box. *)
Definition applyFilters (searchInput : string) (s : crm) : crm :=
  let searchFilter := JsString.toLowerCase searchInput in
  let fv :=
    if (length (statusFilters s) =? 0)%nat
       && (length (regionFilters s) =? 0)%nat
       && (length (typeFilters s) =? 0)%nat
       && String.eqb searchFilter EmptyString
    then venues s
    else filter (fun l =>
           let venue := deref (heap s) l in
           let statusMatch := allowMatch (statusFilters s) venue "Status" in
           let regionMatch := allowMatch (regionFilters s) venue "Region" in
           let typeMatch := allowMatch (typeFilters s) venue "Type" in
           statusMatch && regionMatch && typeMatch
           && searchMatch searchFilter venue) (venues s) in
  let s1 := set_currentPage 1 (set_filteredVenues fv s) in
  match activeSortColumn s1 with
  | Some _ => applyCurrentSort s1
  | None => updateTable s1
  end.

(** [applyFilterModal(filterType)] with the values ticked in the modal. *)
Definition applyFilterModal (filterType : string) (selectedValues : list string)
    (searchInput : string) (s : crm) : crm :=
  let s1 :=
    if String.eqb filterType "status"
    then set_filters selectedValues (regionFilters s) (typeFilters s) s
    else if String.eqb filterType "region"
    then set_filters (statusFilters s) selectedValues (typeFilters s) s
    else if String.eqb filterType "type"
    then set_filters (statusFilters s) (regionFilters s) selectedValues s
    else s in
  applyFilters searchInput s1.

(** ** Venue store: import *)

(** [h => h !== 'Last Updated']. *)
Definition notLastUpdated (hd : string) : bool :=
  negb (String.eqb hd "Last Updated").

Definition headersMatch (newHeaders existingHeaders : list string) : bool :=
  if negb (length newHeaders =? length existingHeaders)%nat then false
  else forallb (fun p => String.eqb (fst p) (snd p))
         (combine newHeaders existingHeaders).

Definition isDuplicateVenue (s : crm) (newVenue : venue) : bool :=
  let newVenueName := keyPart newVenue "Venue" in
  let newCity := keyPart newVenue "City" in
  let newState := keyPart newVenue "State" in
  if String.eqb newVenueName EmptyString || String.eqb newCity EmptyString
     || String.eqb newState EmptyString
  then false
  else existsb (fun existingVenue =>
         String.eqb (keyPart existingVenue "Venue") newVenueName
         && String.eqb (keyPart existingVenue "City") newCity
         && String.eqb (keyPart existingVenue "State") newState)
       (records s).

Definition tab : ascii := "009"%char.
Definition newline : ascii := "010"%char.

(** How an import ends: one of the three alerts that abort it, or the
    counts of the success message. *)
Inductive importOutcome : Type :=
| NoData
| NoDataRow
| SchemaMismatch
| Imported (importedCount duplicateCount total : nat).

(** The record of one data line: a cell per header, [''] where the line
    has none, and the time of the import. *)
Definition venueOfLine (h : host) (hdrs : list string) (line : string) : venue :=
  let values := JsString.split tab line in
  let cells :=
    fold_left (fun o jh => setProp (snd jh) (nth (fst jh) values EmptyString) o)
      (combine (seq 0 (length hdrs)) hdrs) [] in
  setProp "Last Updated" (isoNow h) cells.

(** The loop over the data lines: the records to add, and the number of
    lines skipped as duplicates.  The duplicate test reads [this.venues],
    which the loop does not change. *)
Fixpoint parseRows (h : host) (s : crm) (lines : list string)
  : list venue * nat :=
  match lines with
  | [] => ([], O)
  | l :: rest =>
      let '(newVenues, duplicateCount) := parseRows h s rest in
      let line := JsString.trim l in
      if String.eqb line EmptyString then (newVenues, duplicateCount)
      else
        let venue := venueOfLine h (headers s) line in
        if negb (isDuplicateVenue s venue)
        then (venue :: newVenues, duplicateCount)
        else (newVenues, S duplicateCount)
  end.

Definition allocAll (os : list venue) (s : crm) : list loc * crm :=
  fold_left (fun acc o =>
      let '(l, s') := alloc o (snd acc) in (fst acc ++ [l], s'))
    os ([], s).

(** [importData()]; [text] is the content of the import box. *)
Definition importData (h : host) (text : string) (s : crm)
  : importOutcome * crm :=
  let data := JsString.trim text in
  if String.eqb data EmptyString then (NoData, s)
  else
    let lines := JsString.split newline data in
    if (length lines <? 2)%nat then (NoDataRow, s)
    else
      let headerCells := JsString.split tab (hd EmptyString lines) in
      let newHeaders :=
        if existsb (String.eqb "Last Updated") headerCells then headerCells
        else headerCells ++ ["Last Updated"] in
      let checked :=
        if (length (headers s) =? 0)%nat then Some (set_headers newHeaders s)
        else if headersMatch (filter notLastUpdated newHeaders)
                  (filter notLastUpdated (headers s))
             then Some s
             else None in
      match checked with
      | None => (SchemaMismatch, s)
      | Some s1 =>
          let '(newVenues, duplicateCount) := parseRows h s1 (tl lines) in
          let '(ls, s2) := allocAll newVenues s1 in
          let s3 := set_venues (venues s2 ++ ls) s2 in
          let s4 := set_filteredVenues (venues s3) s3 in
          (Imported (length newVenues) duplicateCount (length (venues s4)),
           updateTable s4)
      end.

(** ** Venue store: the edit dialog *)

(** An input of the edit dialog: its [dataset.field], when it has one,
    and its value. *)
Record input : Type := mkInput {
  datasetField : option string;
  value : string
}.

Definition isOneOf (l : list string) (x : string) : bool :=
  existsb (String.eqb x) l.

(** An input for column [header], filled from the record.  (A [select] or
    a numeric input keeps the cell as it is when the cell is one of its
    options or a number.) *)
Definition inputFor (o : venue) (header : string) : input :=
  mkInput (Some header) (propOr o header).

Definition populateGeneralForm (h : host) (s : crm) (o : venue) : list input :=
  let generalFields :=
    filter (fun header =>
      negb (isOneOf ["Contact"; "Best Time"; "Pref"; "Phone"; "Email";
                     "Notes"; "Status"; "Last Date"; "Timeline"; "Deadline";
                     "Played"; "Rate"; "Sets"; "Cap"; "Draw"; "Genre"; "R";
                     "Last Updated"] header)) (headers s) in
  let reorderedFields :=
    (if isOneOf generalFields "Venue" then ["Venue"] else [])
    ++ filter (fun header => negb (String.eqb header "Venue")) generalFields in
  map (inputFor o) reorderedFields
  ++ (if isOneOf (headers s) "Last Updated"
      then [mkInput None
              (if truthyProp o "Last Updated"
               then toLocaleString h (propOr o "Last Updated")
               else EmptyString)]
      else []).

(** The three other forms: the listed columns that are headers. *)
Definition populateListed (fields : list string) (s : crm) (o : venue)
  : list input :=
  map (inputFor o) (filter (isOneOf (headers s)) fields).

Definition populateVenueForm : crm -> venue -> list input :=
  populateListed ["Cap"; "Draw"; "Genre"; "R"].

Definition populateBookingForm : crm -> venue -> list input :=
  populateListed ["Status"; "Last Date"; "Timeline"; "Deadline"; "Played";
                  "Rate"; "Sets"].

Definition populateContactForm : crm -> venue -> list input :=
  populateListed ["Contact"; "Best Time"; "Pref"; "Phone"; "Email"; "Notes"].

(** The inputs [saveEdit] collects, as the dialog shows them for [o]. *)
Definition dialogInputs (h : host) (s : crm) (o : venue) : list input :=
  populateGeneralForm h s o ++ populateVenueForm s o
  ++ populateBookingForm s o ++ populateContactForm s o.

(** [editRow(index)]: the state, and the inputs of the dialog it opens.
    For an index outside the view the record is [undefined] and filling
    the dialog raises a [TypeError]: no inputs. *)
Definition editRow (h : host) (index : nat) (s : crm)
  : crm * option (list input) :=
  let s1 := set_currentEditIndex (Z.of_nat index) s in
  match nth_error (filteredVenues s1) index with
  | None => (s1, None)
  | Some l => (s1, Some (dialogInputs h s1 (deref (heap s1) l)))
  end.

(** [addNewRow()]. *)
Definition addNewRow (h : host) (s : crm) : crm * list input :=
  let newVenue :=
    setProp "Last Updated" (isoNow h)
      (fold_left (fun o header => setProp header EmptyString o) (headers s) []) in
  let '(l, s1) := alloc newVenue s in
  let s2 := set_tempNewVenue (Some l) (set_currentEditIndex (-1) s1) in
  (s2, dialogInputs h s2 newVenue).

(** [copyVenue(venue)]. *)
Definition copyVenue (h : host) (l0 : loc) (s : crm) : crm * list input :=
  let o := deref (heap s) l0 in
  let named :=
    if truthyProp o "Venue"
    then setProp "Venue" (String.append (propOr o "Venue") " (COPY)") o
    else o in
  let copiedVenue := setProp "Last Updated" (isoNow h) named in
  let '(l, s1) := alloc copiedVenue s in
  let s2 := set_tempNewVenue (Some l) (set_currentEditIndex (-1) s1) in
  (s2, dialogInputs h s2 copiedVenue).

(** [input.dataset.field] as a property name: a missing attribute reads as
    [undefined] and names the property ["undefined"]. *)
Definition fieldKey (i : input) : string :=
  match datasetField i with
  | Some f => f
  | None => "undefined"
  end.

Definition applyInputs (allInputs : list input) (o : venue) : venue :=
  fold_left (fun o i => setProp (fieldKey i) (value i) o) allInputs o.

(** [this.venues[originalIndex] = { ...venue }] when the object is found
    in the store. *)
Definition replaceInStore (l : loc) (s : crm) : crm :=
  match JsArray.findIndex l (venues s) with
  | Some originalIndex =>
      let '(l', s1) := alloc (deref (heap s) l) s in
      set_venues (JsArray.assign originalIndex l' (venues s1)) s1
  | None => s
  end.

(** [saveEdit()] on the inputs of the dialog.  [None] stands for the
    [TypeError] of a dialog that was opened on no record; it is raised
    before anything is written. *)
Definition saveEdit (h : host) (allInputs : list input) (s : crm)
  : option crm :=
  let finish := fun s' => set_tempNewVenue None (resortLastUpdated h s') in
  if currentEditIndex s =? -1 then
    match tempNewVenue s with
    | None => None
    | Some l =>
        let s1 := update l (applyInputs allInputs) s in
        let s2 := set_venues (venues s1 ++ [l]) s1 in
        let s3 := set_filteredVenues (venues s2) s2 in
        let s4 := addHistoryEntry h Add (deref (heap s3) l) None s3 in
        let s5 := calculatePagination s4 in
        Some (finish (set_currentPage (totalPages s5) s5))
    end
  else if currentEditIndex s <? 0 then None
  else
    match nth_error (filteredVenues s) (Z.to_nat (currentEditIndex s)) with
    | None => None
    | Some l =>
        let originalVenue := deref (heap s) l in
        let s1 := update l (applyInputs allInputs) s in
        let changes := getChangesDescription originalVenue (deref (heap s1) l) in
        let s2 :=
          match changes with
          | Some (_ :: _) =>
              let s' := update l (setProp "Last Updated" (isoNow h)) s1 in
              addHistoryEntry h Edit (deref (heap s') l) changes s'
          | _ => s1
          end in
        Some (finish (replaceInStore l s2))
    end.

(** [deleteRow(index)]; [confirmed] is the answer to the confirmation. *)
Definition deleteRow (h : host) (confirmed : bool) (index : nat) (s : crm)
  : option crm :=
  if negb confirmed then Some s
  else
    match nth_error (filteredVenues s) index with
    | None => None
    | Some l =>
        let originalIndex := JsArray.findIndex l (venues s) in
        let s1 := addHistoryEntry h Delete (deref (heap s) l) None s in
        let s2 :=
          match originalIndex with
          | Some i => set_venues (JsArray.splice1 i (venues s1)) s1
          | None => s1
          end in
        Some (updateTable
                (set_filteredVenues (JsArray.splice1 index (filteredVenues s2)) s2))
    end.

(** [clearAllData()] once confirmed. *)
Definition clearAllData (s : crm) : crm :=
  updateTable
    (mkCrm (heap s) [] [] [] (currentEditIndex s) (tempNewVenue s) None asc
       1 (pageSize s) 1 [] [] [] []).

(** ** Status pipeline *)

(** The chain of tests of [moveToNextStage]: the status to set, empty
    when the current status names no stage. *)
Definition nextStage (currentStatus : string) : string :=
  if JsString.includes currentStatus "CANVAS" then "FOLLOW-UP"
  else if JsString.includes currentStatus "FOLLOW-UP" then "BOOKED"
  else if JsString.includes currentStatus "BOOKED" then "BOOK-AGAIN"
  else if JsString.includes currentStatus "BOOK-AGAIN" then "CANVAS"
  else EmptyString.

(** [moveToNextStage(venue)] on the object at [l]. *)
Definition moveToNextStage (h : host) (l : loc) (s : crm) : crm :=
  let currentStatus := propOr (deref (heap s) l) "Status" in
  let newStatus := nextStage currentStatus in
  if String.eqb newStatus EmptyString then s
  else
    let s1 :=
      update l (fun o =>
        setProp "Last Updated" (isoNow h) (setProp "Status" newStatus o)) s in
    let changes := [mkChange "Status" currentStatus newStatus] in
    let s2 := addHistoryEntry h Edit (deref (heap s1) l) (Some changes) s1 in
    resortLastUpdated h s2.

(** [addToKanban(venue, index)]. *)
Definition addToKanban (h : host) (l : loc) (s : crm) : crm :=
  let s1 :=
    update l (fun o =>
      setProp "Last Updated" (isoNow h) (setProp "Status" "CANVAS" o)) s in
  let changes := [mkChange "Status" EmptyString "CANVAS"] in
  let s2 := addHistoryEntry h Edit (deref (heap s1) l) (Some changes) s1 in
  resortLastUpdated h (replaceInStore l s2).

(** ** Location resolver *)

Module Geo.

Section Resolver.
(** The coordinates stored in the index. *)
Context {coord : Type}.

(** [geoData]: a plain object from location key to coordinates. *)
Definition index : Type := list (string * coord).

(** [geoData[k]], which is truthy whenever the key is present. *)
Fixpoint lookup (k : string) (geoData : index) : option coord :=
  match geoData with
  | [] => None
  | (k', v) :: r => if String.eqb k' k then Some v else lookup k r
  end.

Definition stateAbbreviations : list (string * string) :=
  [("AL", "Alabama"); ("AK", "Alaska"); ("AZ", "Arizona"); ("AR", "Arkansas");
   ("CA", "California"); ("CO", "Colorado"); ("CT", "Connecticut");
   ("DE", "Delaware"); ("FL", "Florida"); ("GA", "Georgia"); ("HI", "Hawaii");
   ("ID", "Idaho"); ("IL", "Illinois"); ("IN", "Indiana"); ("IA", "Iowa");
   ("KS", "Kansas"); ("KY", "Kentucky"); ("LA", "Louisiana"); ("ME", "Maine");
   ("MD", "Maryland"); ("MA", "Massachusetts"); ("MI", "Michigan");
   ("MN", "Minnesota"); ("MS", "Mississippi"); ("MO", "Missouri");
   ("MT", "Montana"); ("NE", "Nebraska"); ("NV", "Nevada");
   ("NH", "New Hampshire"); ("NJ", "New Jersey"); ("NM", "New Mexico");
   ("NY", "New York"); ("NC", "North Carolina"); ("ND", "North Dakota");
   ("OH", "Ohio"); ("OK", "Oklahoma"); ("OR", "Oregon"); ("PA", "Pennsylvania");
   ("RI", "Rhode Island"); ("SC", "South Carolina"); ("SD", "South Dakota");
   ("TN", "Tennessee"); ("TX", "Texas"); ("UT", "Utah"); ("VT", "Vermont");
   ("VA", "Virginia"); ("WA", "Washington"); ("WV", "West Virginia");
   ("WI", "Wisconsin"); ("WY", "Wyoming"); ("DC", "District of Columbia")].

(** The loop of [expandStateAbbreviations] over the entries left. *)
Fixpoint expandStateFrom (table : list (string * string)) (location : string)
  : string :=
  match table with
  | [] => location
  | (abbr, fullName) :: rest =>
      if JsString.includes location (String.append ", " abbr)
      then JsString.replaceFirst location (String.append ", " abbr)
             (String.append ", " fullName)
      else expandStateFrom rest location
  end.

Definition expandStateAbbreviations (location : string) : string :=
  expandStateFrom stateAbbreviations location.

Definition cityAbbreviations : list (string * string) :=
  [("St.", "Saint"); ("St ", "Saint "); ("St,", "Saint,");
   ("St. ", "Saint "); ("St. ,", "Saint, ")].

(** Each key is looked for as a string and replaced as a regular
    expression, all matches at once. *)
Definition expandCityAbbreviations (location : string) : string :=
  fold_left (fun expanded entry =>
      let '(abbr, fullName) := entry in
      if JsString.includes expanded abbr
      then JsString.regexReplaceAll (JsString.regexOfSource abbr) fullName
             expanded
      else expanded)
    cityAbbreviations location.

(** The city of a key, as the last attempt reads it. *)
Definition cityOnlyOf (cityExpandedLocation : string) : string :=
  JsString.trim (hd EmptyString (JsString.split ","%char cityExpandedLocation)).

(** Some other key of the index starts with the city and a comma. *)
Definition cityInMultipleStates (geoData : index) (cityOnly : string) : bool :=
  existsb (fun key =>
      if String.eqb key cityOnly then false
      else JsString.startsWith key (String.append cityOnly ","))
    (map fst geoData).

(** The last attempt of [geocodeLocation]. *)
Definition cityOnlyMatch (geoData : index) (cityExpandedLocation : string)
  : option coord :=
  let cityOnly := cityOnlyOf cityExpandedLocation in
  if String.eqb cityOnly EmptyString then None
  else match lookup cityOnly geoData with
       | Some c =>
           if cityInMultipleStates geoData cityOnly then None else Some c
       | None => None
       end.

(** [geocodeLocation(location)]; [None] stands for [null]. *)
Definition geocodeLocation (geoData : index) (location : string)
  : option coord :=
  if String.eqb location EmptyString then None
  else
    let expandedLocation := expandStateAbbreviations location in
    let cityExpandedLocation := expandCityAbbreviations expandedLocation in
    match lookup cityExpandedLocation geoData with
    | Some c => Some c
    | None =>
        match lookup expandedLocation geoData with
        | Some c => Some c
        | None =>
            match lookup location geoData with
            | Some c => Some c
            | None => cityOnlyMatch geoData cityExpandedLocation
            end
        end
    end.
End Resolver.

Arguments index : clear implicits.

End Geo.

(** ** User actions *)

(** The sizes the page size selector offers. *)
Inductive pageSizeChoice : Type := P5 | P10 | P25 | P50 | P100 | P200.

Definition sizeOf (c : pageSizeChoice) : Z :=
  match c with
  | P5 => 5 | P10 => 10 | P25 => 25 | P50 => 50 | P100 => 100 | P200 => 200
  end.

(** The events of the page that change the state of the engine, each with
    what it reads from the page. *)
Inductive mutation : Type :=
| MImport (text : string)
| MEditRow (index : nat)
| MAddNewRow
| MCopyVenue (l : loc)
| MSaveEdit (allInputs : list input)
| MDeleteRow (confirmed : bool) (index : nat)
| MClearAllData
| MSortByColumn (column : string)
| MApplyFilters (searchInput : string)
| MApplyFilterModal (filterType : string) (selectedValues : list string)
    (searchInput : string)
| MGoToPage (page : Z)
| MChangePageSize (c : pageSizeChoice)
| MMoveToNextStage (l : loc)
| MAddToKanban (l : loc).

(** The handler of an event.  A handler that raises leaves the state as
    it was when it raised. *)
Definition handle (h : host) (m : mutation) (s : crm) : crm :=
  match m with
  | MImport text => snd (importData h text s)
  | MEditRow index => fst (editRow h index s)
  | MAddNewRow => fst (addNewRow h s)
  | MCopyVenue l => fst (copyVenue h l s)
  | MSaveEdit allInputs =>
      match saveEdit h allInputs s with Some s' => s' | None => s end
  | MDeleteRow confirmed index =>
      match deleteRow h confirmed index s with Some s' => s' | None => s end
  | MClearAllData => clearAllData s
  | MSortByColumn column => sortByColumn column s
  | MApplyFilters searchInput => applyFilters searchInput s
  | MApplyFilterModal filterType selectedValues searchInput =>
      applyFilterModal filterType selectedValues searchInput s
  | MGoToPage page => goToPage page s
  | MChangePageSize c => changePageSize (sizeOf c) s
  | MMoveToNextStage l => moveToNextStage h l s
  | MAddToKanban l => addToKanban h l s
  end.

(** The states the page can be in: the initial one and those the handlers
    lead to, whatever the host answers. *)
Inductive reachable : crm -> Prop :=
| reach_initial : reachable initial
| reach_handle h m s : reachable s -> reachable (handle h m s).

(** [x] occurs before [y] in [l]. *)
Definition before {A : Type} (l : list A) (x y : A) : Prop :=
  exists l1 l2 l3, l = l1 ++ x :: l2 ++ y :: l3.

(** ** Vocabulary of the statements *)

(** The three key fields of [e] and [c] agree after trimming and
    lowercasing. *)
Definition sameKey (e c : venue) : Prop :=
  keyPart e "Venue" = keyPart c "Venue"
  /\ keyPart e "City" = keyPart c "City"
  /\ keyPart e "State" = keyPart c "State".

(** The import box of the scenario: a header line and two equal rows. *)
Definition twoEqualRows : string :=
  String.append "Venue" (String tab (String.append "City" (String tab
  (String.append "State" (String tab (String.append "Status" (String newline
  (String.append "A" (String tab (String.append "Paris" (String tab
  (String.append "TX" (String tab (String newline
  (String.append "A" (String tab (String.append "Paris" (String tab
  (String.append "TX" (String tab EmptyString)))))))))))))))))))).

(** The comparator is consistent on the elements of [l]: swapping the
    arguments negates the result, and "not greater" is transitive. *)
Definition consistentOn {A : Type} (cmp : A -> A -> Z) (l : list A) : Prop :=
  (forall x y, cmp y x = - cmp x y)
  /\ (forall x y z, In x l -> In y l -> In z l ->
        cmp x y <= 0 -> cmp y z <= 0 -> cmp x z <= 0).

(** The column comparator on references into the heap of [s]. *)
Definition locCompare (column : string) (d : direction) (s : crm) (a b : loc) : Z :=
  columnCompare column d (deref (heap s) a) (deref (heap s) b).

(** The cells of [x] and [y] in [column] compare as equal. *)
Definition tiedOn (column : string) (s : crm) (x y : loc) : Prop :=
  locCompare column asc s x y = 0.

(** "Not greater" by the cells of [column] is transitive on the view. *)
Definition transitiveOn (column : string) (s : crm) : Prop :=
  forall x y z,
    In x (filteredVenues s) -> In y (filteredVenues s) ->
    In z (filteredVenues s) ->
    locCompare column asc s x y <= 0 -> locCompare column asc s y z <= 0 ->
    locCompare column asc s x z <= 0.

(** Two hosts to run the examples with: the clock at the time of an
    import and, a day later, at the time of an edit.  The locale renders
    the instant of the import; any other string here is no date. *)
Definition renderDate (iso : string) : string :=
  if String.eqb iso "2026-01-01T08:00:00.000Z" then "1/1/2026, 8:00:00 AM"
  else "Invalid Date".

Definition importHost : host :=
  mkHost "2026-01-01T08:00:00.000Z" 1767254400000 renderDate
    (fun _ => JsNumber.NaN).

Definition sampleHost : host :=
  mkHost "2026-01-02T09:30:00.000Z" 1767346200000 renderDate
    (fun _ => JsNumber.NaN).

(** A store with one imported record. *)
Definition oneRecord : crm :=
  snd (importData importHost
         (String.append "Venue" (String tab (String.append "City" (String tab
          (String.append "State" (String newline
          (String.append "Loft" (String tab (String.append "Paris" (String tab
           "TX"))))))))))
         initial).

(** A view of three records with a numeric column. *)
Definition threeRows : crm :=
  set_filteredVenues [0; 1; 2]%nat
    (set_venues [0; 1; 2]%nat
       (set_heap [[("Venue", "North Hall"); ("Cap", "250")];
                  [("Venue", "Cellar"); ("Cap", "90")];
                  [("Venue", "Loft"); ("Cap", "90.0")]] initial)).

(** A set filter lets a record pass: nothing is selected, or the cell is
    filled and is one of the selected values. *)
Definition allowPass (allow : list string) (o : venue) (k : string) : Prop :=
  allow = [] \/ (propOr o k <> EmptyString /\ In (propOr o k) allow).

(** The same without the condition on the cell: nothing is selected, or
    the cell is one of the selected values. *)
Definition memberPass (allow : list string) (o : venue) (k : string) : Prop :=
  allow = [] \/ In (propOr o k) allow.

(** The search box lets a record pass: it is empty, or some cell contains
    its text, both taken in lower case. *)
Definition searchPass (query : string) (o : venue) : Prop :=
  query = EmptyString
  \/ exists cell, In cell (values o)
       /\ JsString.includes (JsString.toLowerCase cell)
            (JsString.toLowerCase query) = true.

(** The part of the state the page number depends on. *)
Definition paging (s : crm) : Z * Z := (pageSize s, currentPage s).

(** The page size is positive and the page number at least 1. *)
Definition pageInv (s : crm) : Prop := 0 < pageSize s /\ 1 <= currentPage s.


(** A view of eleven records shown five to a page. *)
Definition elevenRows : crm :=
  calculatePagination
    (set_pageSize 5
       (set_filteredVenues (seq 0 11)
          (set_venues (seq 0 11)
             (set_heap (repeat [("Venue", "Loft")] 11) initial)))).

(** ** Export *)

Definition tabString : string := String tab EmptyString.
Definition newlineString : string := String newline EmptyString.

(** One line of the export: the cells of a record in header order. *)
Definition exportRow (hdrs : list string) (o : venue) : string :=
  String.concat tabString (map (propOr o) hdrs).

(** The text [exportData()] offers for download; nothing (an alert) for
    an empty store. *)
Definition exportData (s : crm) : option string :=
  if (length (venues s) =? 0)%nat then None
  else
    Some (fold_left (fun csvContent o =>
            String.append csvContent
              (String.append (exportRow (headers s) o) newlineString))
          (records s)
          (String.append (String.concat tabString (headers s)) newlineString)).

(** ** Kanban board *)

(** The columns of the board. *)
Inductive stage : Type := Canvas | FollowUp | Booked | BookAgain.

(** The chain of tests of [populateKanbanColumns]: the column a status
    puts its card in, none when the status names no stage. *)
Definition kanbanColumn (status : string) : option stage :=
  if JsString.includes status "CANVAS" then Some Canvas
  else if JsString.includes status "FOLLOW-UP" then Some FollowUp
  else if JsString.includes status "BOOKED" then Some Booked
  else if JsString.includes status "BOOK-AGAIN" then Some BookAgain
  else None.

(** The cards of one column, in store order. *)
Definition populateKanbanColumn (c : stage) (s : crm) : list loc :=
  filter (fun l =>
      match kanbanColumn (propOr (deref (heap s) l) "Status") with
      | Some c' =>
          match c, c' with
          | Canvas, Canvas | FollowUp, FollowUp
          | Booked, Booked | BookAgain, BookAgain => true
          | _, _ => false
          end
      | None => false
      end) (venues s).

Definition getStatusClass (status : string) : string :=
  if JsString.includes status "CANVAS" then "status-canvas"
  else if JsString.includes status "FOLLOW-UP" then "status-follow-up"
  else if JsString.includes status "BOOKED" then "status-booked"
  else if JsString.includes status "BOOK-AGAIN" then "status-book-again"
  else EmptyString.

(** The stage after a stage, round the board. *)
Definition stageAfter (c : stage) : stage :=
  match c with
  | Canvas => FollowUp
  | FollowUp => Booked
  | Booked => BookAgain
  | BookAgain => Canvas
  end.

(** ** Reaching a record from outside the table *)

(** The tail shared by [editKanbanVenue], [deleteKanbanVenue] and
    [editVenueFromHistory]: the index of the object in the view, after
    showing all venues when the view does not hold it. *)
Definition showInView (l : loc) (s : crm) : crm * option nat :=
  match JsArray.findIndex l (filteredVenues s) with
  | Some filteredIndex => (s, Some filteredIndex)
  | None =>
      let s1 := updateTable (set_currentPage 1 (set_filteredVenues (venues s) s)) in
      (s1, JsArray.findIndex l (filteredVenues s1))
  end.

Definition editKanbanVenue (h : host) (l : loc) (s : crm)
  : crm * option (list input) :=
  match showInView l s with
  | (s1, Some index) => editRow h index s1
  | (s1, None) => (s1, None)
  end.

Definition deleteKanbanVenue (h : host) (confirmed : bool) (l : loc) (s : crm)
  : option crm :=
  match showInView l s with
  | (s1, Some index) => deleteRow h confirmed index s1
  | (s1, None) => Some s1
  end.

(** [this.venues.find(v => this.getVenueId(v) === venueId)]. *)
Definition findByVenueId (venueId : string) (s : crm) : option loc :=
  find (fun l => String.eqb (getVenueId (deref (heap s) l)) venueId) (venues s).

(** [editVenueFromHistory(venueId)]: the alert for an id no venue has
    leaves the state as it is and opens nothing. *)
Definition editVenueFromHistory (h : host) (venueId : string) (s : crm)
  : crm * option (list input) :=
  match findByVenueId venueId s with
  | Some l => editKanbanVenue h l s
  | None => (s, None)
  end.

(** [clearAllFilters()], the one without argument. *)
Definition clearAllFilters (s : crm) : crm :=
  let s1 := set_filters [] [] [] s in
  updateTable (set_currentPage 1 (set_filteredVenues (venues s1) s1)).

(** ** History table *)

(** The fields of [SimpleCRM] that belong to the history table. *)
Record historyView : Type := mkHistoryView {
  historySearchFilter : string;
  historyCurrentPage : Z;
  historyPageSize : Z;
  historyTotalPages : Z
}.

(** The state of the history table the constructor builds. *)
Definition initialHistoryView : historyView := mkHistoryView EmptyString 1 5 1.

Definition actionName (a : historyAction) : string :=
  match a with
  | Add => "Add"
  | Edit => "Edit"
  | Delete => "Delete"
  end.

Definition lowerIncludes (s searchTerm : string) : bool :=
  JsString.includes (JsString.toLowerCase s) searchTerm.

(** The predicate of the filter of [updateHistoryTable]. *)
Definition historyMatches (searchTerm : string) (entry : historyEntry) : bool :=
  lowerIncludes (venueName entry) searchTerm
  || lowerIncludes (city entry) searchTerm
  || lowerIncludes (state entry) searchTerm
  || lowerIncludes (actionName (action entry)) searchTerm
  || match changes entry with
     | Some cs =>
         existsb (fun c =>
             lowerIncludes (field c) searchTerm
             || (negb (String.eqb (oldValue c) EmptyString)
                 && lowerIncludes (oldValue c) searchTerm)
             || (negb (String.eqb (newValue c) EmptyString)
                 && lowerIncludes (newValue c) searchTerm)) cs
     | None => false
     end.

Definition filteredHistory (v : historyView) (hist : list historyEntry)
  : list historyEntry :=
  if String.eqb (historySearchFilter v) EmptyString then hist
  else filter (historyMatches (JsString.toLowerCase (historySearchFilter v))) hist.

(** The pagination step of [updateHistoryTable()]. *)
Definition updateHistoryTable (hist : list historyEntry) (v : historyView)
  : historyView :=
  let total :=
    ceilDiv (Z.of_nat (length (filteredHistory v hist))) (historyPageSize v) in
  mkHistoryView (historySearchFilter v)
    (if total <? historyCurrentPage v then Z.max 1 total
     else historyCurrentPage v)
    (historyPageSize v) total.

(** The entries [updateHistoryTable()] draws, for a page from 1 on. *)
Definition historyPageData (hist : list historyEntry) (v : historyView)
  : list historyEntry :=
  let v1 := updateHistoryTable hist v in
  let startIndex := (historyCurrentPage v1 - 1) * historyPageSize v1 in
  firstn (Z.to_nat (historyPageSize v1))
    (skipn (Z.to_nat startIndex) (filteredHistory v1 hist)).

Definition goToHistoryPage (page : Z) (hist : list historyEntry)
    (v : historyView) : historyView :=
  if (1 <=? page) && (page <=? historyTotalPages v)
     && negb (page =? historyCurrentPage v)
  then updateHistoryTable hist
         (mkHistoryView (historySearchFilter v) page (historyPageSize v)
            (historyTotalPages v))
  else v.

(** [applyHistoryFilters()]; [searchInput] is the value of the search
    box of the history. *)
Definition applyHistoryFilters (searchInput : string)
    (hist : list historyEntry) (v : historyView) : historyView :=
  updateHistoryTable hist
    (mkHistoryView (JsString.toLowerCase searchInput) 1 (historyPageSize v)
       (historyTotalPages v)).

(** [clearHistory()] once confirmed: the log and the table. *)
Definition clearHistory (s : crm) (v : historyView) : crm * historyView :=
  (set_history [] s,
   updateHistoryTable []
     (mkHistoryView (historySearchFilter v) 1 (historyPageSize v) 1)).

(** ** Location index and search *)

Module GeoData.

(** Coordinates as [parseFloat] reads them. *)
Definition coordinates : Type := JsNumber.num * JsNumber.num.

(** [geoData[key] = v]: an existing key keeps its place. *)
Fixpoint assignKey (key : string) (v : coordinates)
    (geoData : Geo.index coordinates) : Geo.index coordinates :=
  match geoData with
  | [] => [(key, v)]
  | (k, v') :: r =>
      if String.eqb k key then (k, v) :: r else (k, v') :: assignKey key v r
  end.

Definition isNaNnum (v : JsNumber.num) : bool :=
  match v with JsNumber.NaN => true | _ => false end.

(** The body of the loop of [loadGeoData] for one line. *)
Definition loadLine (geoData : Geo.index coordinates) (l : string)
  : Geo.index coordinates :=
  let line := JsString.trim l in
  if String.eqb line EmptyString then geoData
  else
    let values := JsString.split ","%char line in
    if (length values <? 5)%nat then geoData
    else
      let country := nth 0 values EmptyString in
      let state := nth 1 values EmptyString in
      let name := nth 2 values EmptyString in
      let lat := JsNumber.parseFloat (nth 3 values EmptyString) in
      let lng := JsNumber.parseFloat (nth 4 values EmptyString) in
      if negb (isNaNnum lat) && negb (isNaNnum lng) then
        let withKey :=
          if String.eqb country "US" && negb (String.eqb state EmptyString)
          then assignKey (String.append name (String.append ", " state))
                 (lat, lng) geoData
          else geoData in
        assignKey name (lat, lng) withKey
      else geoData.

(** [loadGeoData()] on the text of the bundled table: the first line is
    the heading. *)
Definition loadGeoData (geoString : string) : Geo.index coordinates :=
  fold_left loadLine (tl (JsString.split newline geoString)) [].

(** The comparator of the matches of [fuzzyLocationSearch]. *)
Definition relevance (searchLower : string) (a b : string * coordinates) : Z :=
  let aExact := JsString.startsWith (JsString.toLowerCase (fst a)) searchLower in
  let bExact := JsString.startsWith (JsString.toLowerCase (fst b)) searchLower in
  if aExact && negb bExact then -1
  else if negb aExact && bExact then 1
  else Z.of_nat (String.length (fst a)) - Z.of_nat (String.length (fst b)).

Definition fuzzyLocationSearch (geoData : Geo.index coordinates)
    (searchTerm : string) : list (string * coordinates) :=
  let searchLower := JsString.toLowerCase searchTerm in
  let matches :=
    filter (fun entry =>
        JsString.includes (fst entry) ","
        && JsString.includes (JsString.toLowerCase (fst entry)) searchLower)
      geoData in
  firstn 8 (JsArray.sort (relevance searchLower) matches).

(** [handleLocationSearch(searchTerm)]: the matches shown, none when the
    term has fewer than two characters. *)
Definition handleLocationSearch (geoData : Geo.index coordinates)
    (searchTerm : string) : option (list (string * coordinates)) :=
  if (String.length searchTerm <? 2)%nat then None
  else Some (fuzzyLocationSearch geoData searchTerm).

End GeoData.

(** ** Vocabulary of the further statements *)

(** The header cells of an import text. *)
Definition headerCells (text : string) : list string :=
  JsString.split tab
    (hd EmptyString (JsString.split newline (JsString.trim text))).

(** The headers an import into a store without schema adopts. *)
Definition importedHeaders (text : string) : list string :=
  if existsb (String.eqb "Last Updated") (headerCells text)
  then headerCells text
  else headerCells text ++ ["Last Updated"].

(** The data lines of an import text, trimmed, the blank ones left out. *)
Definition dataLines (text : string) : list string :=
  filter (fun line => negb (String.eqb line EmptyString))
    (map JsString.trim (tl (JsString.split newline (JsString.trim text)))).

(** The headers in force after an accepted import. *)
Definition headersAfterImport (text : string) (s : crm) : list string :=
  match headers s with
  | [] => importedHeaders text
  | _ => headers s
  end.

(** The events that only rearrange what is shown. *)
Definition viewOnly (m : mutation) : bool :=
  match m with
  | MSortByColumn _ | MApplyFilters _ | MApplyFilterModal _ _ _
  | MGoToPage _ | MChangePageSize _ => true
  | _ => false
  end.

(** "Not greater" by the cells of [column] is transitive on the store. *)
Definition transitiveOnStore (column : string) (s : crm) : Prop :=
  forall x y z,
    In x (venues s) -> In y (venues s) -> In z (venues s) ->
    locCompare column asc s x y <= 0 -> locCompare column asc s y z <= 0 ->
    locCompare column asc s x z <= 0.

(** The keys of a table of codes: two letters each and no comma. *)
Definition stateKeysOk (table : list (string * string)) : bool :=
  forallb (fun e => (String.length (fst e) =? 2)%nat
                    && negb (JsString.includes (fst e) ",")) table.

(** One turn of the loop of [expandCityAbbreviations]. *)
Definition expandCityStep (expanded : string) (entry : string * string)
  : string :=
  let '(abbr, fullName) := entry in
  if JsString.includes expanded abbr
  then JsString.regexReplaceAll (JsString.regexOfSource abbr) fullName expanded
  else expanded.

(** The record [addNewRow] hands to the dialog. *)
Definition blankVenue (h : host) (s : crm) : venue :=
  setProp "Last Updated" (isoNow h)
    (fold_left (fun o header => setProp header EmptyString o) (headers s) []).

(** The character [c] occurs in [s]. *)
Definition hasChar (c : ascii) (s : string) : bool :=
  existsb (Ascii.eqb c) (list_ascii_of_string s).

(** The inputs carry the cells of the record [o], but for one input
    without [data-field] that holds [shown]; no input after it names the
    key ["undefined"]. *)
Definition untouchedBut (o : venue) (shown : string) (allInputs : list input)
  : Prop :=
  exists pre post,
    allInputs = pre ++ mkInput None shown :: post
    /\ (forall i, In i (pre ++ post) ->
          exists f, datasetField i = Some f /\ value i = propOr o f)
    /\ (forall i, In i post -> datasetField i <> Some "undefined").

(** The references of the store and of the view are in order: no object
    is twice in the store or twice in the view, and every reference
    denotes an object. *)
Definition refsOk (s : crm) : Prop :=
  NoDup (venues s) /\ NoDup (filteredVenues s)
  /\ (forall l, In l (venues s) \/ In l (filteredVenues s) ->
        (l < length (heap s))%nat).

(** The record being added, when there is one, denotes an object that is
    not in the store. *)
Definition tempOk (s : crm) : Prop :=
  forall l, tempNewVenue s = Some l ->
    (l < length (heap s))%nat /\ ~ In l (venues s).

Definition wellFormed (s : crm) : Prop := refsOk s /\ tempOk s.

(** Three imported records whose cells in column Doors do not line up:
    5 and 5.0 are the same number, and the text 5 pm lies between them as
    a string. *)
Definition tieBetween : crm :=
  handle importHost
    (MImport
       (String.append "Venue" (String tab (String.append "Doors"
        (String newline
        (String.append "North Hall" (String tab (String.append "5"
        (String newline
        (String.append "Cellar" (String tab (String.append "5 pm"
        (String newline
        (String.append "Loft" (String tab "5.0")))))))))))))))
    initial.

(** ** Filter modals: the options offered *)

(** The field a filter modal selects on. *)
Definition filterField (filterType : string) : option string :=
  if String.eqb filterType "status" then Some "Status"
  else if String.eqb filterType "region" then Some "Region"
  else if String.eqb filterType "type" then Some "Type"
  else None.

(** [Boolean] on the value of a field: [undefined] and the empty string
    are falsy. *)
Definition truthyValue (v : option string) : bool :=
  match v with
  | Some EmptyString | None => false
  | Some _ => true
  end.

(** [populateFilterOptions(filterType)]: the values of the checkboxes it
    puts into the modal, one for each distinct truthy value of the field
    in the store. *)
Definition populateFilterOptions (filterType : string) (s : crm) : list string :=
  match filterField filterType with
  | Some k =>
      uniq []
        (map (fun v => match v with Some x => x | None => EmptyString end)
           (filter truthyValue (map (getProp k) (records s))))
  | None => []
  end.

(** ** All the handlers that write to the state *)

(** [parseInt(button.dataset.venueIndex)] of a map popup, [None] for NaN,
    and the record of the store it names when
    [venueIndex >= 0 && venueIndex < this.venues.length]. *)
Definition popupVenue (venueIndex : option Z) (s : crm) : option loc :=
  match venueIndex with
  | Some i =>
      if (0 <=? i) && (i <? Z.of_nat (length (venues s)))
      then nth_error (venues s) (Z.to_nat i)
      else None
  | None => None
  end.

(** [applyColumnToggle(modal)]: the hidden columns are not part of the
    state here. *)
Definition applyColumnToggle (s : crm) : crm := updateTable s.

Definition resetTableLayout (confirmed : bool) (s : crm) : crm :=
  if confirmed then updateTable (set_sort None asc s) else s.

(** The events of the table, of the filter modals, of the board, of the
    history table, of the map popups and of the layout dialog. *)
Inductive userAction : Type :=
| ATable (m : mutation)
| AClearAllFilters
| AEditKanbanVenue (l : loc)
| ADeleteKanbanVenue (confirmed : bool) (l : loc)
| AEditVenueFromHistory (venueId : string)
| APopupEdit (venueIndex : option Z)
| APopupCopy (venueIndex : option Z)
| APopupKanban (venueIndex : option Z)
| APopupDelete (confirmed : bool) (venueIndex : option Z)
| AApplyColumnToggle
| AResetTableLayout (confirmed : bool)
| AClearHistory.

(** The handler of an action.  The popup handlers run the code of
    [editKanbanVenue] and [deleteKanbanVenue] on the record the popup
    names; [AClearHistory] is [clearHistory] once confirmed. *)
Definition perform (h : host) (a : userAction) (s : crm) : crm :=
  match a with
  | ATable m => handle h m s
  | AClearAllFilters => clearAllFilters s
  | AEditKanbanVenue l => fst (editKanbanVenue h l s)
  | ADeleteKanbanVenue confirmed l =>
      match deleteKanbanVenue h confirmed l s with Some s' => s' | None => s end
  | AEditVenueFromHistory venueId => fst (editVenueFromHistory h venueId s)
  | APopupEdit venueIndex =>
      match popupVenue venueIndex s with
      | Some l => fst (editKanbanVenue h l s)
      | None => s
      end
  | APopupCopy venueIndex =>
      match popupVenue venueIndex s with
      | Some l => fst (copyVenue h l s)
      | None => s
      end
  | APopupKanban venueIndex =>
      match popupVenue venueIndex s with
      | Some l => addToKanban h l s
      | None => s
      end
  | APopupDelete confirmed venueIndex =>
      match popupVenue venueIndex s with
      | Some l =>
          match deleteKanbanVenue h confirmed l s with
          | Some s' => s'
          | None => s
          end
      | None => s
      end
  | AApplyColumnToggle => applyColumnToggle s
  | AResetTableLayout confirmed => resetTableLayout confirmed s
  | AClearHistory => fst (clearHistory s initialHistoryView)
  end.

(** The values ticked in a filter modal are values of the checkboxes that
    [populateFilterOptions] put there when the modal was opened, in some
    state [s0]. *)
Definition ticksOffered (a : userAction) : Prop :=
  match a with
  | ATable (MApplyFilterModal filterType selectedValues _) =>
      exists s0, incl selectedValues (populateFilterOptions filterType s0)
  | _ => True
  end.

(** The states of a page that starts empty. *)
Inductive pageState : crm -> Prop :=
| page_initial : pageState initial
| page_perform h a s :
    pageState s -> ticksOffered a -> pageState (perform h a s).

(** The three filter selections. *)
Definition filtersOf (s : crm) : list string * list string * list string :=
  (statusFilters s, regionFilters s, typeFilters s).

(** No filter has the empty string among its selected values. *)
Definition noEmptyChoice (s : crm) : Prop :=
  ~ In EmptyString (statusFilters s)
  /\ ~ In EmptyString (regionFilters s)
  /\ ~ In EmptyString (typeFilters s).

(** Two records, one booked and one without a status, with the status
    filter set to the booked ones. *)
Definition bookedOnly : crm :=
  set_filters ["Booked"] [] []
    (set_filteredVenues [0; 1]%nat
       (set_venues [0; 1]%nat
          (set_heap [[("Venue", "North Hall"); ("Status", "Booked")];
                     [("Venue", "Cellar"); ("Status", EmptyString)]] initial))).

(** * Properties *)

(** ** Objects and strings *)

Lemma getProp_setProp_eq k v o : getProp k (setProp k v o) = Some v.
Proof.
  induction o as [|[k' v'] r IH]; simpl.
  - now rewrite String.eqb_refl.
  - destruct (String.eqb k' k) eqn:E; simpl; rewrite E; auto.
Qed.

Lemma getProp_setProp_neq k k' v o :
  k <> k' -> getProp k (setProp k' v o) = getProp k o.
Proof.
  intros N. induction o as [|[k0 v0] r IH]; simpl.
  - destruct (String.eqb k' k) eqn:E; auto.
    apply String.eqb_eq in E. congruence.
  - destruct (String.eqb k0 k') eqn:E; simpl.
    + apply String.eqb_eq in E. subst k0.
      destruct (String.eqb k' k) eqn:E'; auto.
      apply String.eqb_eq in E'. congruence.
    + now rewrite IH.
Qed.

Lemma propOr_setProp_eq k v o : propOr (setProp k v o) k = v.
Proof. unfold propOr. now rewrite getProp_setProp_eq. Qed.

Lemma propOr_setProp_neq k k' v o :
  k <> k' -> propOr (setProp k' v o) k = propOr o k.
Proof. intros N. unfold propOr. now rewrite getProp_setProp_neq. Qed.

Lemma toLowerCase_empty s : JsString.toLowerCase s = EmptyString <-> s = EmptyString.
Proof. destruct s; simpl; split; intros E; auto; discriminate. Qed.

Lemma eqb_empty_false s : String.eqb s EmptyString = false <-> s <> EmptyString.
Proof. apply String.eqb_neq. Qed.

Lemma keyPart_of_empty o k : propOr o k = EmptyString -> keyPart o k = EmptyString.
Proof. unfold keyPart. now intros ->. Qed.

(** ** Duplicate detection *)

(** C1, as stated, fails: a candidate whose Venue is a single blank has
    three non-empty fields and agrees with a stored record (the very same
    record) on all three after trimming and lowercasing, and is not
    reported as a duplicate. *)
Lemma isDuplicateVenue_blank_field :
  let c := [("Venue", " "); ("City", "Paris"); ("State", "TX")] in
  let s := set_venues [O] (set_heap [c] initial) in
  (propOr c "Venue" <> EmptyString /\ propOr c "City" <> EmptyString
   /\ propOr c "State" <> EmptyString
   /\ exists e, In e (records s) /\ sameKey e c)
  /\ isDuplicateVenue s c = false.
Proof.
  cbv zeta. split; [|reflexivity].
  repeat split; try discriminate.
  eexists. split; [left; reflexivity|]. repeat split.
Qed.

(** C1, amended: duplicate detection answers true exactly when the
    candidate's Venue, City and State are all non-empty after trimming and
    some record of the store agrees with it on all three after trimming
    and lowercasing, whatever the other fields hold; when one of the three
    candidate fields is empty the answer is false. *)
Theorem isDuplicateVenue_iff s c :
  (isDuplicateVenue s c = true <->
     JsString.trim (propOr c "Venue") <> EmptyString
     /\ JsString.trim (propOr c "City") <> EmptyString
     /\ JsString.trim (propOr c "State") <> EmptyString
     /\ exists e, In e (records s) /\ sameKey e c)
  /\ (propOr c "Venue" = EmptyString \/ propOr c "City" = EmptyString
      \/ propOr c "State" = EmptyString ->
      isDuplicateVenue s c = false).
Proof.
  assert (NE : forall k, String.eqb (keyPart c k) EmptyString = false <->
                         JsString.trim (propOr c k) <> EmptyString).
  { intros k. rewrite eqb_empty_false. unfold keyPart.
    now rewrite toLowerCase_empty. }
  split.
  - unfold isDuplicateVenue.
    destruct (String.eqb (keyPart c "Venue") EmptyString) eqn:EV; simpl.
    { split; [discriminate|]. intros (N & _). apply NE in N. congruence. }
    destruct (String.eqb (keyPart c "City") EmptyString) eqn:EC; simpl.
    { split; [discriminate|]. intros (_ & N & _). apply NE in N. congruence. }
    destruct (String.eqb (keyPart c "State") EmptyString) eqn:ES; simpl.
    { split; [discriminate|]. intros (_ & _ & N & _). apply NE in N. congruence. }
    rewrite existsb_exists. split.
    + intros (e & I & M). apply andb_prop in M as (M & M3).
      apply andb_prop in M as (M1 & M2).
      apply String.eqb_eq in M1, M2, M3.
      repeat split; try (apply NE; assumption).
      exists e. repeat split; assumption.
    + intros (_ & _ & _ & e & I & M1 & M2 & M3).
      exists e. split; [assumption|].
      rewrite M1, M2, M3, !String.eqb_refl. reflexivity.
  - intros E. unfold isDuplicateVenue.
    destruct E as [E|[E|E]]; apply keyPart_of_empty in E; rewrite E; simpl;
      rewrite ?orb_true_r; reflexivity.
Qed.

(** ** Import *)

(** The rows of an import are tested against the store as it was before
    the import: the records added are the rows, blank lines apart, that
    no record of that store duplicates. *)
Lemma parseRows_against_store h s lines :
  let rows :=
    map (venueOfLine h (headers s))
      (filter (fun line => negb (String.eqb line EmptyString))
         (map JsString.trim lines)) in
  fst (parseRows h s lines)
    = filter (fun v => negb (isDuplicateVenue s v)) rows
  /\ snd (parseRows h s lines)
    = length (filter (isDuplicateVenue s) rows).
Proof.
  induction lines as [|l rest (IH1 & IH2)]; simpl; [split; reflexivity|].
  destruct (parseRows h s rest) as (newVenues & duplicateCount). simpl in *.
  destruct (String.eqb (JsString.trim l) EmptyString); simpl; [now split|].
  destruct (isDuplicateVenue s (venueOfLine h (headers s) (JsString.trim l)));
    simpl; subst; split; reflexivity.
Qed.

(** C2, as stated, fails: the import of the two equal rows into the empty
    store does not end with one row imported and one counted as a
    duplicate. *)
Lemma importData_twoEqualRows_not_one_one :
  ~ exists total,
      fst (importData sampleHost twoEqualRows initial) = Imported 1 1 total.
Proof. intros (total & E). discriminate E. Qed.

(** C2, amended: imported into the empty store, the two equal rows are
    both imported and none is counted as a duplicate, since the rows of a
    batch are tested against the records the store held before the
    import; imported a second time, both rows are counted as duplicates
    and none is imported. *)
Theorem importData_twoEqualRows h h' :
  let s1 := snd (importData h twoEqualRows initial) in
  fst (importData h twoEqualRows initial) = Imported 2 0 2
  /\ map getVenueId (records s1) = ["a|paris|tx"; "a|paris|tx"]
  /\ fst (importData h' twoEqualRows s1) = Imported 0 2 2
  /\ records (snd (importData h' twoEqualRows s1)) = records s1.
Proof. repeat split. Qed.

(** An import that ends in an alert writes nothing. *)
Lemma importData_failure_writes_nothing h text s :
  (forall i d t, fst (importData h text s) <> Imported i d t) ->
  snd (importData h text s) = s.
Proof.
  unfold importData. intros F.
  destruct (String.eqb _ _); [reflexivity|].
  destruct (_ <? _)%nat; [reflexivity|].
  match goal with
  | |- context [match ?c with Some _ => _ | None => _ end] => destruct c
  end; [|reflexivity].
  destruct (parseRows _ _ _). destruct (allocAll _ _).
  exfalso. eapply F. reflexivity.
Qed.

Lemma headersMatch_eq a b : headersMatch a b = true <-> a = b.
Proof.
  unfold headersMatch.
  destruct (length a =? length b)%nat eqn:L; simpl.
  - apply Nat.eqb_eq in L. revert b L.
    induction a as [|x a IH]; destruct b as [|y b]; simpl; intros L;
      try discriminate; [tauto|].
    rewrite andb_true_iff, String.eqb_eq, IH by now inversion L.
    split; [intros (-> & ->); reflexivity | intros E; inversion E; auto].
  - split; [discriminate|]. intros ->. now rewrite Nat.eqb_refl in L.
Qed.

Lemma filter_notLastUpdated_app l :
  filter notLastUpdated (l ++ ["Last Updated"]) = filter notLastUpdated l.
Proof. rewrite filter_app. simpl. apply app_nil_r. Qed.

(** C3, as stated, fails: the number of lines is checked before the
    headers are.  An import text that is a header line and nothing else,
    with headers that differ from the schema of the store, ends in the
    alert for a missing data row and not in the schema mismatch; it
    writes nothing either. *)
Lemma importData_header_only_mismatch :
  let s := set_headers ["Venue"; "City"; "State"; "Last Updated"] initial in
  let text := String.append "Name" (String tab (String.append "City"
    (String tab "State"))) in
  let lines := JsString.split newline (JsString.trim text) in
  headers s <> []
  /\ filter notLastUpdated (JsString.split tab (hd EmptyString lines))
     <> filter notLastUpdated (headers s)
  /\ fst (importData sampleHost text s) = NoDataRow
  /\ fst (importData sampleHost text s) <> SchemaMismatch
  /\ snd (importData sampleHost text s) = s.
Proof. cbv zeta. repeat split; discriminate. Qed.

(** C3, amended: when the store has a header schema and the import text
    has a header line and at least one more line, and the header line,
    without Last Updated, differs from the schema without Last Updated,
    the import ends in the schema mismatch and writes nothing: the
    venues, the headers and the history (the whole state) are as
    before. *)
Theorem importData_schema_mismatch h text s :
  let lines := JsString.split newline (JsString.trim text) in
  headers s <> [] ->
  (2 <= length lines)%nat ->
  filter notLastUpdated (JsString.split tab (hd EmptyString lines))
    <> filter notLastUpdated (headers s) ->
  fst (importData h text s) = SchemaMismatch
  /\ venues (snd (importData h text s)) = venues s
  /\ headers (snd (importData h text s)) = headers s
  /\ history (snd (importData h text s)) = history s
  /\ snd (importData h text s) = s.
Proof.
  intros lines HS HL HD.
  assert (R : importData h text s = (SchemaMismatch, s)).
  { unfold importData. fold lines.
    destruct (String.eqb (JsString.trim text) EmptyString) eqn:E.
    { apply String.eqb_eq in E. subst lines. rewrite E in HL. simpl in HL. lia. }
    destruct (length lines <? 2)%nat eqn:E2.
    { apply Nat.ltb_lt in E2. lia. }
    destruct (length (headers s) =? 0)%nat eqn:E3.
    { apply Nat.eqb_eq in E3. destruct (headers s); [congruence|discriminate]. }
    match goal with
    | |- context [headersMatch ?a ?b] => destruct (headersMatch a b) eqn:M
    end; [|reflexivity].
    apply headersMatch_eq in M. exfalso. apply HD. rewrite <- M.
    destruct (existsb _ _); [reflexivity|].
    now rewrite filter_notLastUpdated_app. }
  rewrite R. simpl. auto.
Qed.

(** C3 at an input: a store with schema Venue, City, State and an import
    whose header line is Name, City, State. *)
Lemma importData_schema_mismatch_witness :
  let h := mkHost "2026-01-01T00:00:00.000Z" 1 (fun x => x) (fun _ => JsNumber.NaN) in
  let s := set_headers ["Venue"; "City"; "State"; "Last Updated"] initial in
  let text := String.append "Name" (String tab (String.append "City"
    (String tab (String.append "State" (String newline "A"))))) in
  fst (importData h text s) = SchemaMismatch
  /\ venues (snd (importData h text s)) = venues s
  /\ headers (snd (importData h text s)) = headers s
  /\ history (snd (importData h text s)) = history s
  /\ snd (importData h text s) = s.
Proof.
  cbv zeta. apply importData_schema_mismatch.
  - discriminate.
  - vm_compute. lia.
  - vm_compute. discriminate.
Defined.

(** ** The heap *)

Lemma length_assign {A} i (x : A) l : length (JsArray.assign i x l) = length l.
Proof. revert i. induction l; destruct i; simpl; auto. Qed.

Lemma nth_assign_eq {A} i (x d : A) l :
  (i < length l)%nat -> nth i (JsArray.assign i x l) d = x.
Proof.
  revert i. induction l; destruct i; simpl; intros L; try lia; auto.
  apply IHl. lia.
Qed.

Lemma nth_assign_neq {A} i j (x d : A) l :
  i <> j -> nth j (JsArray.assign i x l) d = nth j l d.
Proof.
  revert i j. induction l; destruct i, j; simpl; intros N; auto; try congruence.
Qed.

Lemma heap_calculatePagination s : heap (calculatePagination s) = heap s.
Proof. unfold calculatePagination. now destruct (_ <? _). Qed.

Lemma heap_resortLastUpdated h s : heap (resortLastUpdated h s) = heap s.
Proof.
  unfold resortLastUpdated, updateTable.
  destruct (sameColumn _ _); now rewrite heap_calculatePagination.
Qed.

Lemma heap_update l f s :
  heap (update l f s) = JsArray.assign l (f (deref (heap s) l)) (heap s).
Proof. reflexivity. Qed.

Lemma deref_update_eq l f s :
  (l < length (heap s))%nat ->
  deref (heap (update l f s)) l = f (deref (heap s) l).
Proof. intros L. rewrite heap_update. unfold deref at 1. now apply nth_assign_eq. Qed.

(** ** Status pipeline *)

Lemma moveToNextStage_status h l s :
  (l < length (heap s))%nat ->
  let st := propOr (deref (heap s) l) "Status" in
  propOr (deref (heap (moveToNextStage h l s)) l) "Status"
    = (if String.eqb (nextStage st) EmptyString then st else nextStage st)
  /\ length (heap (moveToNextStage h l s)) = length (heap s).
Proof.
  intros L st. unfold moveToNextStage. fold st.
  destruct (String.eqb (nextStage st) EmptyString) eqn:E; [auto|].
  rewrite heap_resortLastUpdated. cbn [addHistoryEntry set_history heap].
  split.
  - rewrite deref_update_eq by assumption.
    rewrite propOr_setProp_neq by discriminate.
    apply propOr_setProp_eq.
  - rewrite heap_update. apply length_assign.
Qed.

Lemma moveToNextStage_four h h2 h3 h4 l s :
  (l < length (heap s))%nat ->
  let step := fun st =>
    if String.eqb (nextStage st) EmptyString then st else nextStage st in
  propOr (deref (heap (moveToNextStage h4 l (moveToNextStage h3 l
            (moveToNextStage h2 l (moveToNextStage h l s))))) l) "Status"
  = step (step (step (step (propOr (deref (heap s) l) "Status")))).
Proof.
  intros L step.
  destruct (moveToNextStage_status h l s L) as (S1 & L1).
  set (s1 := moveToNextStage h l s) in *.
  assert (V1 : (l < length (heap s1))%nat) by lia.
  destruct (moveToNextStage_status h2 l s1 V1) as (S2 & L2).
  set (s2 := moveToNextStage h2 l s1) in *.
  assert (V2 : (l < length (heap s2))%nat) by lia.
  destruct (moveToNextStage_status h3 l s2 V2) as (S3 & L3).
  set (s3 := moveToNextStage h3 l s2) in *.
  assert (V3 : (l < length (heap s3))%nat) by lia.
  destruct (moveToNextStage_status h4 l s3 V3) as (S4 & L4).
  rewrite S4, S3, S2, S1. reflexivity.
Qed.

Lemma deref_outside hp l : (length hp <= l)%nat -> deref hp l = [].
Proof. intros L. unfold deref. now apply nth_overflow. Qed.

(** C5: [moveToNextStage] finds the stage by testing the status for the
    substrings CANVAS, FOLLOW-UP, BOOKED, BOOK-AGAIN in this order, sets
    the status to exactly the next token (BOOK-AGAIN wraps to CANVAS) and
    leaves the whole state alone when no token occurs; four moves from
    the status CANVAS lead to a status containing CANVAS. *)
Theorem moveToNextStage_pipeline h h2 h3 h4 l s :
  let status := fun s' => propOr (deref (heap s') l) "Status" in
  let has := fun token => JsString.includes (status s) token in
  (has "CANVAS" = true -> status (moveToNextStage h l s) = "FOLLOW-UP")
  /\ (has "CANVAS" = false -> has "FOLLOW-UP" = true ->
      status (moveToNextStage h l s) = "BOOKED")
  /\ (has "CANVAS" = false -> has "FOLLOW-UP" = false -> has "BOOKED" = true ->
      status (moveToNextStage h l s) = "BOOK-AGAIN")
  /\ (has "CANVAS" = false -> has "FOLLOW-UP" = false -> has "BOOKED" = false ->
      has "BOOK-AGAIN" = true ->
      status (moveToNextStage h l s) = "CANVAS")
  /\ (has "CANVAS" = false -> has "FOLLOW-UP" = false -> has "BOOKED" = false ->
      has "BOOK-AGAIN" = false ->
      moveToNextStage h l s = s)
  /\ (status s = "CANVAS" ->
      let s4 := moveToNextStage h4 l (moveToNextStage h3 l
                  (moveToNextStage h2 l (moveToNextStage h l s))) in
      status s4 = "CANVAS" /\ JsString.includes (status s4) "CANVAS" = true).
Proof.
  intros status has.
  destruct (Nat.lt_ge_cases l (length (heap s))) as [L|L].
  - pose proof (moveToNextStage_status h l s L) as (S1 & L1).
    fold (status s) in S1. fold (status (moveToNextStage h l s)) in S1.
    unfold has. split; [|split; [|split; [|split; [|split]]]].
    + intros C. rewrite S1. unfold nextStage. now rewrite C.
    + intros C F. rewrite S1. unfold nextStage. now rewrite C, F.
    + intros C F B. rewrite S1. unfold nextStage. now rewrite C, F, B.
    + intros C F B A. rewrite S1. unfold nextStage. now rewrite C, F, B, A.
    + intros C F B A. unfold moveToNextStage. fold (status s).
      unfold nextStage. now rewrite C, F, B, A.
    + intros E. cbv zeta. unfold status in *.
      rewrite (moveToNextStage_four h h2 h3 h4 l s L), E.
      split; reflexivity.
  - assert (E : status s = EmptyString).
    { unfold status. now rewrite deref_outside. }
    unfold has. rewrite E.
    split; [|split; [|split; [|split; [|split]]]]; try discriminate.
    intros _ _ _ _. unfold moveToNextStage. fold (status s). now rewrite E.
Qed.

(** ** Order of occurrence in a list *)

Section Before.
Context {A : Type}.
Implicit Types (l : list A) (x y a : A).

Lemma before_cons_iff a l x y :
  before (a :: l) x y <-> (x = a /\ In y l) \/ before l x y.
Proof.
  unfold before. split.
  - intros (l1 & l2 & l3 & E). destruct l1 as [|b l1]; simpl in E.
    + inversion E; subst. left. split; auto.
      apply in_or_app. right. now left.
    + inversion E; subst. right. now exists l1, l2, l3.
  - intros [(-> & I)|(l1 & l2 & l3 & ->)].
    + apply in_split in I as (l2 & l3 & ->). now exists [], l2, l3.
    + now exists (a :: l1), l2, l3.
Qed.

Lemma before_later l1 x l2 y : In y l2 -> before (l1 ++ x :: l2) x y.
Proof.
  intros I. apply in_split in I as (m & r & ->). now exists l1, m, r.
Qed.

Lemma before_insert_mid l1 l2 a x y :
  before (l1 ++ l2) x y -> before (l1 ++ a :: l2) x y.
Proof.
  revert l2. induction l1 as [|b l1 IH]; intros l2; simpl.
  - intros B. apply before_cons_iff. now right.
  - rewrite !before_cons_iff. intros [(-> & I)|B].
    + left. split; auto. apply in_app_or in I. apply in_or_app.
      destruct I; [now left | right; now right].
    + right. now apply IH.
Qed.

Lemma before_in l x y : before l x y -> In x l /\ In y l.
Proof.
  intros (l1 & l2 & l3 & ->). split; apply in_or_app; right.
  - now left.
  - right. apply in_or_app. right. now left.
Qed.

Lemma in_before l x y :
  In x l -> In y l -> x <> y -> before l x y \/ before l y x.
Proof.
  induction l as [|a l IH]; simpl; [tauto|].
  intros [->|Ix] [->|Iy] N; try congruence.
  - left. apply before_cons_iff. auto.
  - right. apply before_cons_iff. auto.
  - destruct (IH Ix Iy N); [left|right]; apply before_cons_iff; auto.
Qed.

Lemma sorted_before (R : A -> A -> Prop) l x y :
  StronglySorted R l -> before l x y -> R x y.
Proof.
  induction 1 as [|a l S IH F]; intros B.
  - destruct B as (l1 & l2 & l3 & E). now destruct l1.
  - apply before_cons_iff in B as [(-> & I)|B]; auto.
    rewrite Forall_forall in F. auto.
Qed.
End Before.

(** ** The stable sort *)

Section SortFacts.
Context {A : Type}.
Variable cmp : A -> A -> Z.

(** Where [insert] puts the new element. *)
Lemma insert_split x l :
  exists l1 l2,
    l = l1 ++ l2 /\ JsArray.insert cmp x l = l1 ++ x :: l2
    /\ (forall z, In z l1 -> 0 < cmp x z)
    /\ match l2 with [] => True | y :: _ => cmp x y <= 0 end.
Proof.
  induction l as [|y ys (l1 & l2 & E & EI & G & H)]; simpl.
  - exists [], []. repeat split; auto. intros z [].
  - destruct (0 <? cmp x y) eqn:C.
    + apply Z.ltb_lt in C. exists (y :: l1), l2. subst ys. rewrite EI.
      repeat split; auto. intros z [<-|I]; auto.
    + apply Z.ltb_ge in C. exists [], (y :: ys). repeat split; auto.
      intros z [].
Qed.

Lemma insert_perm x l : Permutation (JsArray.insert cmp x l) (x :: l).
Proof.
  destruct (insert_split x l) as (l1 & l2 & -> & -> & _).
  symmetry. apply Permutation_middle.
Qed.

Lemma sort_perm l : Permutation (JsArray.sort cmp l) l.
Proof.
  induction l as [|x xs IH]; simpl; [constructor|].
  rewrite insert_perm. now constructor.
Qed.

Lemma in_sort_iff l x : In x (JsArray.sort cmp l) <-> In x l.
Proof.
  split; apply Permutation_in; [|symmetry]; apply sort_perm.
Qed.

(** The sort is stable: a pair that is in order, or tied, keeps its
    order of occurrence. *)
Lemma sort_stable l x y :
  before l x y -> cmp x y <= 0 -> before (JsArray.sort cmp l) x y.
Proof.
  induction l as [|a l IH]; intros B C.
  - destruct B as (l1 & l2 & l3 & E). now destruct l1.
  - simpl. destruct (insert_split a (JsArray.sort cmp l))
      as (l1 & l2 & E & -> & G & _).
    apply before_cons_iff in B as [(-> & I)|B].
    + apply in_sort_iff in I. rewrite E in I. apply in_app_or in I as [I|I].
      * apply G in I. lia.
      * now apply before_later.
    + apply before_insert_mid. rewrite <- E. auto.
Qed.

Lemma consistentOn_incl l l' :
  (forall x, In x l' -> In x l) -> consistentOn cmp l -> consistentOn cmp l'.
Proof. intros I (S & T). split; auto. intros x y z **. apply (T x y z); auto. Qed.

Lemma insert_sorted x l :
  consistentOn cmp (x :: l) ->
  StronglySorted (fun a b => cmp a b <= 0) l ->
  StronglySorted (fun a b => cmp a b <= 0) (JsArray.insert cmp x l).
Proof.
  intros (S & T) H. induction H as [|y ys H IH F]; simpl.
  - repeat constructor.
  - destruct (0 <? cmp x y) eqn:C.
    + apply Z.ltb_lt in C. constructor.
      * apply IH. intros a b c Ia Ib Ic. apply T; simpl in *; tauto.
      * rewrite Forall_forall in *. intros z I.
        apply (Permutation_in _ (insert_perm x ys)) in I as [E|I]; auto.
        subst z. rewrite (S x y). lia.
    + apply Z.ltb_ge in C. constructor; [now constructor|].
      constructor; auto. rewrite Forall_forall in *. intros z I.
      apply (T x y z); simpl; auto.
Qed.

Lemma sort_sorted l :
  consistentOn cmp l ->
  StronglySorted (fun a b => cmp a b <= 0) (JsArray.sort cmp l).
Proof.
  induction l as [|x xs IH]; intros C; simpl; [constructor|].
  apply insert_sorted.
  - revert C. apply consistentOn_incl. intros z [<-|I]; [now left|right].
    now apply in_sort_iff.
  - apply IH. revert C. apply consistentOn_incl. intros z I. now right.
Qed.
End SortFacts.

Lemma sort_ext {A} (c c' : A -> A -> Z) l :
  (forall x y, c x y = c' x y) -> JsArray.sort c l = JsArray.sort c' l.
Proof.
  intros E. induction l as [|x xs IH]; simpl; [reflexivity|].
  rewrite IH. generalize (JsArray.sort c' xs). intros m.
  induction m as [|y ys IHm]; simpl; [reflexivity|].
  now rewrite E, IHm.
Qed.

(** Sorting twice, the second time by the opposite comparator: the pairs
    that are not tied change places, the tied ones keep theirs. *)
Lemma sort_then_opposite {A} (c1 c2 : A -> A -> Z) l x y :
  (forall a b, c2 a b = - c1 a b) ->
  consistentOn c1 l ->
  before (JsArray.sort c1 l) x y ->
  (c1 x y = 0 -> before (JsArray.sort c2 (JsArray.sort c1 l)) x y)
  /\ (c1 x y <> 0 ->
      before (JsArray.sort c2 (JsArray.sort c1 l)) y x
      /\ ~ before (JsArray.sort c2 (JsArray.sort c1 l)) x y).
Proof.
  intros O C B.
  assert (C1 : consistentOn c1 (JsArray.sort c1 l)).
  { revert C. apply consistentOn_incl. intros z. apply in_sort_iff. }
  assert (C2 : consistentOn c2 (JsArray.sort c1 l)).
  { destruct C1 as (S & T). split.
    - intros a b. rewrite !O, (S a b). lia.
    - intros a b c Ia Ib Ic. rewrite !O. intros H1 H2.
      assert (c1 c b <= 0) by (rewrite (S b c); lia).
      assert (c1 b a <= 0) by (rewrite (S a b); lia).
      assert (c1 c a <= 0) by (apply (T c b a); auto).
      rewrite (S c a). lia. }
  pose proof (sorted_before _ _ x y (sort_sorted c1 l C) B) as LE.
  cbv beta in LE.
  split.
  - intros E. apply sort_stable; auto. rewrite O. lia.
  - intros N.
    assert (NB : ~ before (JsArray.sort c2 (JsArray.sort c1 l)) x y).
    { intros B2.
      pose proof (sorted_before _ _ x y (sort_sorted c2 _ C2) B2) as LE2.
      cbv beta in LE2. rewrite O in LE2. lia. }
    split; auto.
    destruct (before_in _ _ _ B) as (Ix & Iy).
    assert (x <> y).
    { intros ->. destruct C as (S & _). specialize (S y y). lia. }
    destruct (in_before (JsArray.sort c2 (JsArray.sort c1 l)) x y); auto;
      try (now apply in_sort_iff); tauto.
Qed.

(** ** The column comparator *)

Lemma calculatePagination_keeps s :
  heap (calculatePagination s) = heap s
  /\ venues (calculatePagination s) = venues s
  /\ filteredVenues (calculatePagination s) = filteredVenues s
  /\ headers (calculatePagination s) = headers s
  /\ sortColumn (calculatePagination s) = sortColumn s
  /\ sortDirection (calculatePagination s) = sortDirection s
  /\ pageSize (calculatePagination s) = pageSize s
  /\ history (calculatePagination s) = history s.
Proof. unfold calculatePagination. destruct (_ <? _); repeat split. Qed.

Lemma numLtb_asym a b : JsNumber.ltb a b = true -> JsNumber.ltb b a = false.
Proof.
  destruct a as [|p| |], b as [|q| |]; simpl; try discriminate; auto.
  rewrite <- (Qcompare_antisym p q). destruct (p ?= q)%Q; simpl; auto; discriminate.
Qed.

Lemma strLtb_asym a b : JsString.ltb a b = true -> JsString.ltb b a = false.
Proof.
  unfold JsString.ltb. rewrite (String.compare_antisym a b).
  destruct (String.compare b a); simpl; auto; discriminate.
Qed.

Lemma keyLt_asym x y : keyLt x y = true -> keyLt y x = false.
Proof.
  destruct x, y; simpl; auto using numLtb_asym, strLtb_asym.
Qed.

Lemma directed_swap d x y : directed d y x = - directed d x y.
Proof.
  unfold directed. destruct (keyLt x y) eqn:E.
  - rewrite (keyLt_asym _ _ E). destruct d; reflexivity.
  - destruct (keyLt y x), d; reflexivity.
Qed.

Lemma directed_flip d x y : directed (flip d) x y = - directed d x y.
Proof.
  unfold directed. destruct (keyLt x y), (keyLt y x), d; reflexivity.
Qed.

Lemma sortKeys_swap a b :
  sortKeys b a = (snd (sortKeys a b), fst (sortKeys a b)).
Proof.
  unfold sortKeys. destruct (JsNumber.isNaN a), (JsNumber.isNaN b); reflexivity.
Qed.

Lemma columnCompare_swap column d a b :
  columnCompare column d b a = - columnCompare column d a b.
Proof.
  unfold columnCompare. rewrite sortKeys_swap.
  destruct (sortKeys (propOr a column) (propOr b column)). simpl.
  apply directed_swap.
Qed.

Lemma columnCompare_flip column d a b :
  columnCompare column (flip d) a b = - columnCompare column d a b.
Proof.
  unfold columnCompare.
  destruct (sortKeys (propOr a column) (propOr b column)).
  apply directed_flip.
Qed.

Lemma columnCompare_zero column d a b :
  columnCompare column d a b = 0 <-> columnCompare column asc a b = 0.
Proof.
  destruct d; [tauto|]. change desc with (flip asc).
  rewrite columnCompare_flip. lia.
Qed.

Lemma locCompare_consistent column d s :
  transitiveOn column s ->
  consistentOn (locCompare column d s) (filteredVenues s).
Proof.
  intros T. split.
  - intros x y. apply columnCompare_swap.
  - intros x y z Ix Iy Iz. destruct d; [now apply T|].
    unfold locCompare. change desc with (flip asc).
    rewrite !columnCompare_flip. intros H1 H2.
    pose proof (columnCompare_swap column asc (deref (heap s) x) (deref (heap s) y)).
    pose proof (columnCompare_swap column asc (deref (heap s) y) (deref (heap s) z)).
    pose proof (columnCompare_swap column asc (deref (heap s) x) (deref (heap s) z)).
    assert (locCompare column asc s z x <= 0).
    { apply (T z y x); auto; unfold locCompare; lia. }
    unfold locCompare in *. lia.
Qed.

(** What one click on a column header does to the view. *)
Lemma sortByColumn_view column s :
  let d := if sameColumn (sortColumn s) column
           then flip (sortDirection s) else asc in
  filteredVenues (sortByColumn column s)
    = JsArray.sort (locCompare column d s) (filteredVenues s)
  /\ heap (sortByColumn column s) = heap s
  /\ sortColumn (sortByColumn column s) = Some column
  /\ sortDirection (sortByColumn column s) = d.
Proof.
  intros d. subst d. unfold sortByColumn, updateTable.
  destruct (sameColumn (sortColumn s) column) eqn:SC;
    match goal with
    | |- context [calculatePagination ?t] =>
        destruct (calculatePagination_keeps t) as (-> & _ & -> & _ & -> & -> & _)
    end; simpl; repeat split.
  unfold sameColumn in SC. destruct (sortColumn s) as [c|]; [|discriminate].
  apply String.eqb_eq in SC. now subst c.
Qed.

Lemma sameColumn_refl column : sameColumn (Some column) column = true.
Proof. simpl. apply String.eqb_refl. Qed.

Lemma flip_flip d : flip (flip d) = d.
Proof. now destruct d. Qed.

(** In a list without repetition no three elements stand each before
    the next in a circle. *)
Lemma before_no_cycle {A : Type} (l : list A) x y z :
  NoDup l -> before l x y -> before l y z -> before l z x -> False.
Proof.
  intros D. revert x y z. induction D as [|a l N D IH]; intros x y z.
  - intros (l1 & l2 & l3 & E). destruct l1; discriminate.
  - rewrite !before_cons_iff.
    assert (X : forall u v, u = a -> before l v u -> False).
    { intros u v -> B. apply N. apply (before_in l v a B). }
    assert (Y : forall u v, u = a -> In v l -> v = a -> False).
    { intros u v _ I ->. contradiction. }
    intros [(E1 & I1)|B1] [(E2 & I2)|B2] [(E3 & I3)|B3];
      try (subst; contradiction);
      try (now apply (X x z E1)); try (now apply (X y x E2));
      try (now apply (X z y E3)).
    now apply (IH x y z).
Qed.

(** C7, as stated, fails: after the import of three rows with the cells
    5, 5 pm and 5.0 in a column, the first click on that column leaves the
    three records in their order, the first two pairs are not tied and
    the first and the third record are.  The second click would
    have to put the third record before the second, the second before
    the first and the first before the third: no arrangement does, so
    whatever order [sort] gives, a pair that is not tied keeps its order
    or the tied pair loses it. *)
Lemma sortByColumn_twice_tie_between :
  let s1 := sortByColumn "Doors" tieBetween in
  let s2 := sortByColumn "Doors" s1 in
  reachable tieBetween
  /\ filteredVenues tieBetween = [0; 1; 2]%nat
  /\ filteredVenues s1 = [0; 1; 2]%nat
  /\ ~ tiedOn "Doors" tieBetween 0%nat 1%nat
  /\ ~ tiedOn "Doors" tieBetween 1%nat 2%nat
  /\ tiedOn "Doors" tieBetween 0%nat 2%nat
  /\ ~ transitiveOn "Doors" tieBetween
  /\ (forall view2 : list loc,
        NoDup view2 ->
        ~ (before view2 1%nat 0%nat /\ before view2 2%nat 1%nat
           /\ before view2 0%nat 2%nat))
  /\ ~ (forall x y,
          before (filteredVenues s1) x y ->
          (tiedOn "Doors" tieBetween x y -> before (filteredVenues s2) x y)
          /\ (~ tiedOn "Doors" tieBetween x y ->
              before (filteredVenues s2) y x)).
Proof.
  cbv zeta.
  assert (V1 : filteredVenues (sortByColumn "Doors" tieBetween)
               = [0; 1; 2]%nat) by (vm_compute; reflexivity).
  assert (N01 : ~ tiedOn "Doors" tieBetween 0%nat 1%nat)
    by (vm_compute; discriminate).
  assert (N12 : ~ tiedOn "Doors" tieBetween 1%nat 2%nat)
    by (vm_compute; discriminate).
  assert (T02 : tiedOn "Doors" tieBetween 0%nat 2%nat)
    by (vm_compute; reflexivity).
  assert (C : forall view2 : list loc,
            NoDup view2 ->
            ~ (before view2 1%nat 0%nat /\ before view2 2%nat 1%nat
               /\ before view2 0%nat 2%nat)).
  { intros view2 D (B1 & B2 & B3).
    exact (before_no_cycle view2 1%nat 0%nat 2%nat D B1 B3 B2). }
  split; [unfold tieBetween; apply reach_handle, reach_initial|].
  split; [vm_compute; reflexivity|].
  split; [exact V1|]. split; [exact N01|]. split; [exact N12|].
  split; [exact T02|]. split; [|split; [exact C|]].
  - intros T.
    assert (L : locCompare "Doors" asc tieBetween 2%nat 1%nat <= 0).
    { apply (T 2%nat 0%nat 1%nat);
        try (vm_compute; auto; discriminate). }
    vm_compute in L. apply L. reflexivity.
  - intros H. rewrite V1 in H.
    apply (C (filteredVenues
                (sortByColumn "Doors" (sortByColumn "Doors" tieBetween)))).
    + vm_compute. repeat constructor; simpl; intuition discriminate.
    + split; [|split].
      * apply (H 0%nat 1%nat); [now exists [], [], [2%nat]|exact N01].
      * apply (H 1%nat 2%nat); [now exists [0%nat], [], []|exact N12].
      * apply (H 0%nat 2%nat); [now exists [], [1%nat], []|exact T02].
Qed.

(** C7, amended: two clicks in a row on the header of a column leave the
    column selected and toggle the direction, a third click toggles it
    back; when the comparator is transitive on the cells of the view,
    between the view after the first click and the view after the
    second, records whose cells are not tied change places and records
    whose cells are tied keep their order. *)
Theorem sortByColumn_twice column s :
  transitiveOn column s ->
  let s1 := sortByColumn column s in
  let s2 := sortByColumn column s1 in
  let s3 := sortByColumn column s2 in
  (sortColumn s1 = Some column /\ sortColumn s2 = Some column
   /\ sortDirection s2 = flip (sortDirection s1)
   /\ sortDirection s3 = sortDirection s1)
  /\ forall x y,
       before (filteredVenues s1) x y ->
       (tiedOn column s x y -> before (filteredVenues s2) x y)
       /\ (~ tiedOn column s x y ->
           before (filteredVenues s2) y x
           /\ ~ before (filteredVenues s2) x y).
Proof.
  intros T s1 s2 s3.
  destruct (sortByColumn_view column s) as (V1 & H1 & C1 & D1).
  destruct (sortByColumn_view column s1) as (V2 & H2 & C2 & D2).
  destruct (sortByColumn_view column s2) as (V3 & H3 & C3 & D3).
  fold s1 in V1, H1, C1, D1. fold s2 in V2, H2, C2, D2, V3, H3, C3, D3.
  fold s3 in V3, H3, C3, D3.
  rewrite C1, sameColumn_refl in D2, V2.
  rewrite C2, sameColumn_refl in D3.
  split.
  { repeat split; auto. rewrite D3, D2. apply flip_flip. }
  intros x y B. rewrite V2, V1 in *.
  set (d := sortDirection s1) in *.
  assert (E : forall a b, locCompare column (flip d) s1 a b
                          = - locCompare column d s a b).
  { intros a b. unfold locCompare. rewrite H1. apply columnCompare_flip. }
  pose proof (sort_then_opposite (locCompare column d s)
                (locCompare column (flip d) s1) (filteredVenues s) x y E
                (locCompare_consistent column d s T)) as R.
  assert (Z : locCompare column d s x y = 0 <-> tiedOn column s x y).
  { unfold tiedOn, locCompare. apply columnCompare_zero. }
  rewrite D1 in *. fold d in R.
  destruct (R B) as (R1 & R2). split.
  - intros TI. apply R1. now apply Z.
  - intros NT. apply R2. intros E0. apply NT. now apply Z.
Qed.

(** C7 at an input: three records sorted by their capacity, two of them
    tied. *)
Lemma sortByColumn_twice_witness :
  let s1 := sortByColumn "Cap" threeRows in
  let s2 := sortByColumn "Cap" s1 in
  sortDirection s2 = flip (sortDirection s1)
  /\ before (filteredVenues s1) 1%nat 2%nat
  /\ before (filteredVenues s2) 1%nat 2%nat
  /\ before (filteredVenues s1) 2%nat 0%nat
  /\ before (filteredVenues s2) 0%nat 2%nat.
Proof.
  assert (T : transitiveOn "Cap" threeRows).
  { intros x y z Ix Iy Iz. simpl in Ix, Iy, Iz.
    repeat match goal with
           | H : _ \/ _ |- _ => destruct H as [<-|H]
           | H : False |- _ => destruct H
           end;
      vm_compute; intros H1 H2 H3; try discriminate H3;
      try (apply H1; reflexivity); apply H2; reflexivity. }
  pose proof (sortByColumn_twice "Cap" threeRows T) as H.
  cbv zeta in *. destruct H as ((_ & _ & H & _) & R).
  assert (B12 : before (filteredVenues (sortByColumn "Cap" threeRows))
                  1%nat 2%nat) by (now exists [], [], [0%nat]).
  assert (B20 : before (filteredVenues (sortByColumn "Cap" threeRows))
                  2%nat 0%nat) by (now exists [1%nat], [], []).
  split; [exact H|]. split; [exact B12|]. split; [|split; [exact B20|]].
  - apply (R 1%nat 2%nat B12). reflexivity.
  - apply (R 2%nat 0%nat B20). discriminate.
Defined.

(** C10: when one of two compared cells is empty (a blank or missing
    cell) and the other passes the numeric test, the comparator of
    [sortByColumn] and [applyCurrentSort] compares numbers, the empty cell
    counting as 0; a blank cell thus sorts after a negative number, where
    the comparison of strings would put it first. *)
Theorem columnCompare_blank_numeric column d a b :
  propOr a column = EmptyString ->
  JsNumber.isNaN (propOr b column) = false ->
  let n := JsNumber.orZero (JsNumber.parseFloat (propOr b column)) in
  sortKeys (propOr a column) (propOr b column)
    = (KNum (JsNumber.Fin 0), KNum n)
  /\ columnCompare column d a b = directed d (KNum (JsNumber.Fin 0)) (KNum n)
  /\ columnCompare column d b a = directed d (KNum n) (KNum (JsNumber.Fin 0))
  /\ (propOr b column = "-5" ->
      columnCompare column asc a b = 1
      /\ directed asc (KStr (JsString.toLowerCase (propOr a column)))
           (KStr (JsString.toLowerCase (propOr b column))) = -1).
Proof.
  intros EA NB n.
  assert (K : sortKeys (propOr a column) (propOr b column)
              = (KNum (JsNumber.Fin 0), KNum n)).
  { unfold sortKeys. rewrite EA, NB. reflexivity. }
  split; [exact K|]. split; [|split].
  - unfold columnCompare. now rewrite K.
  - unfold columnCompare. rewrite sortKeys_swap, K. reflexivity.
  - intros E5. unfold columnCompare. rewrite K. subst n. rewrite EA, E5.
    split; reflexivity.
Qed.

(** C10 at an input: a record without capacity against one with the
    capacity 120. *)
Lemma columnCompare_blank_numeric_witness :
  columnCompare "Cap" asc [("Venue", "Loft")] [("Venue", "Cellar"); ("Cap", "120")]
  = directed asc (KNum (JsNumber.Fin 0)) (KNum (JsNumber.Fin 120)).
Proof.
  pose proof (columnCompare_blank_numeric "Cap" asc [("Venue", "Loft")]
                [("Venue", "Cellar"); ("Cap", "120")]) as H.
  destruct H as (_ & H & _); [reflexivity | reflexivity |].
  rewrite H. reflexivity.
Defined.

(** ** Filtering *)

Lemma truthyProp_iff o k : truthyProp o k = true <-> propOr o k <> EmptyString.
Proof.
  unfold truthyProp, propOr. destruct (getProp k o) as [[|c r]|]; split;
    congruence.
Qed.

Lemma existsb_eqb_In x l : existsb (String.eqb x) l = true <-> In x l.
Proof.
  rewrite existsb_exists. split.
  - intros (y & I & E). apply String.eqb_eq in E. now subst.
  - intros I. exists x. split; auto. apply String.eqb_refl.
Qed.

Lemma allowMatch_iff allow o k : allowMatch allow o k = true <-> allowPass allow o k.
Proof.
  unfold allowMatch, allowPass.
  rewrite orb_true_iff, andb_true_iff, truthyProp_iff, existsb_eqb_In.
  rewrite Nat.eqb_eq, length_zero_iff_nil. reflexivity.
Qed.

Lemma includes_empty_l sub : JsString.includes EmptyString sub = true -> sub = EmptyString.
Proof. destruct sub; simpl; [reflexivity|discriminate]. Qed.

Lemma searchMatch_iff query o :
  searchMatch (JsString.toLowerCase query) o = true <-> searchPass query o.
Proof.
  unfold searchMatch, searchPass.
  rewrite orb_true_iff, String.eqb_eq, toLowerCase_empty, existsb_exists.
  split; (intros [E|(cell & I & M)]; [now left|]).
  - apply andb_prop in M as (_ & M). right. now exists cell.
  - destruct cell as [|c r].
    + left. apply includes_empty_l in M. now apply toLowerCase_empty.
    + right. exists (String c r). split; auto.
Qed.

(** The records [applyFilters] keeps, before any sorting. *)
Lemma applyFilters_in searchInput s l :
  In l (filteredVenues (applyFilters searchInput s)) <->
  In l (if (length (statusFilters s) =? 0)%nat
           && (length (regionFilters s) =? 0)%nat
           && (length (typeFilters s) =? 0)%nat
           && String.eqb (JsString.toLowerCase searchInput) EmptyString
        then venues s
        else filter (fun l =>
               allowMatch (statusFilters s) (deref (heap s) l) "Status"
               && allowMatch (regionFilters s) (deref (heap s) l) "Region"
               && allowMatch (typeFilters s) (deref (heap s) l) "Type"
               && searchMatch (JsString.toLowerCase searchInput) (deref (heap s) l))
             (venues s)).
Proof.
  unfold applyFilters, applyCurrentSort, updateTable.
  match goal with
  | |- context [set_filteredVenues ?fv s] => generalize fv
  end.
  intros fv.
  destruct (activeSortColumn (set_currentPage 1 (set_filteredVenues fv s))).
  - match goal with
    | |- context [calculatePagination ?t] =>
        destruct (calculatePagination_keeps t) as (_ & _ & -> & _)
    end.
    simpl. apply in_sort_iff.
  - match goal with
    | |- context [calculatePagination ?t] =>
        destruct (calculatePagination_keeps t) as (_ & _ & -> & _)
    end.
    reflexivity.
Qed.

(** The view after [applyFilters], test by test: a record is in it exactly
    when it is in the store and passes the Status, Region and Type filters
    and the search: a set filter passes when nothing is selected or the
    cell is filled and among the selected values, the search passes when
    the box is empty or some cell contains its text, case ignored. *)
Lemma applyFilters_allowPass searchInput s l :
  In l (filteredVenues (applyFilters searchInput s)) <->
  In l (venues s)
  /\ allowPass (statusFilters s) (deref (heap s) l) "Status"
  /\ allowPass (regionFilters s) (deref (heap s) l) "Region"
  /\ allowPass (typeFilters s) (deref (heap s) l) "Type"
  /\ searchPass searchInput (deref (heap s) l).
Proof.
  rewrite applyFilters_in.
  destruct ((length (statusFilters s) =? 0)%nat
            && (length (regionFilters s) =? 0)%nat
            && (length (typeFilters s) =? 0)%nat
            && String.eqb (JsString.toLowerCase searchInput) EmptyString) eqn:E.
  - repeat (apply andb_prop in E as (E & ?)).
    repeat match goal with
           | H : (_ =? 0)%nat = true |- _ =>
               apply Nat.eqb_eq, length_zero_iff_nil in H
           end.
    match goal with
    | H : String.eqb _ _ = true |- _ =>
        apply String.eqb_eq in H; apply -> toLowerCase_empty in H
    end.
    split; [intros I | tauto].
    repeat split; auto; now left.
  - rewrite filter_In, !andb_true_iff, !allowMatch_iff, searchMatch_iff. tauto.
Qed.

(** ** Pagination *)

Lemma ceilDiv_pos n p : 0 < p -> 1 <= n -> 1 <= ceilDiv n p.
Proof.
  intros P N. unfold ceilDiv.
  assert (- n / p < 0) by (apply Z.div_lt_upper_bound; lia). lia.
Qed.

Lemma pageInv_paging s s' : paging s' = paging s -> pageInv s -> pageInv s'.
Proof. unfold paging, pageInv. intros E. inversion E as [[E1 E2]]. now rewrite E1, E2. Qed.



Lemma totalPages_calculatePagination s :
  totalPages (calculatePagination s)
  = ceilDiv (Z.of_nat (length (filteredVenues s))) (pageSize s).
Proof. unfold calculatePagination. now destruct (_ <? _). Qed.

Lemma calculatePagination_in_range s :
  pageInv s ->
  let s' := calculatePagination s in
  1 <= currentPage s'
    <= Z.max 1 (ceilDiv (Z.of_nat (length (filteredVenues s'))) (pageSize s')).
Proof.
  unfold pageInv, calculatePagination. intros (P & C).
  destruct (_ <? _) eqn:E; simpl in *; [lia|].
  apply Z.ltb_ge in E. lia.
Qed.

Lemma pageInv_sortView cmp s : pageInv s -> pageInv (sortView cmp s).
Proof. apply pageInv_paging. reflexivity. Qed.














(** ** Location resolver *)

Lemma cityOnlyMatch_iff {coord} (geoData : Geo.index coord) key c :
  Geo.cityOnlyMatch geoData key = Some c <->
  Geo.cityOnlyOf key <> EmptyString
  /\ Geo.lookup (Geo.cityOnlyOf key) geoData = Some c
  /\ forall k, In k (map fst geoData) -> k <> Geo.cityOnlyOf key ->
       JsString.startsWith k (String.append (Geo.cityOnlyOf key) ",") = false.
Proof.
  unfold Geo.cityOnlyMatch.
  destruct (String.eqb (Geo.cityOnlyOf key) EmptyString) eqn:E.
  { apply String.eqb_eq in E. split; [discriminate|]. intros (N & _). congruence. }
  apply String.eqb_neq in E.
  destruct (Geo.lookup (Geo.cityOnlyOf key) geoData) as [c'|].
  2:{ split; [discriminate|]. intros (_ & D & _). discriminate. }
  destruct (Geo.cityInMultipleStates geoData (Geo.cityOnlyOf key)) eqn:M.
  - split; [discriminate|]. intros (_ & _ & U). exfalso.
    unfold Geo.cityInMultipleStates in M. apply existsb_exists in M as (k & I & P).
    destruct (String.eqb k (Geo.cityOnlyOf key)) eqn:K; [discriminate|].
    apply String.eqb_neq in K. rewrite (U k I K) in P. discriminate.
  - split.
    + intros [= ->]. repeat split; auto. intros k I K.
      unfold Geo.cityInMultipleStates in M.
      destruct (JsString.startsWith k _) eqn:P; auto.
      assert (X : existsb (fun key0 =>
                if String.eqb key0 (Geo.cityOnlyOf key) then false
                else JsString.startsWith key0
                       (String.append (Geo.cityOnlyOf key) ","))
              (map fst geoData) = true).
      { apply existsb_exists. exists k. split; auto.
        apply String.eqb_neq in K. now rewrite K. }
      congruence.
    + intros (_ & D & _). exact D.
Qed.

(** C6, as stated, fails in its last part: with an index that holds only
    the raw key, "St. Louis, MO" is resolved although the index has no
    entry under "Saint Louis, Missouri". *)
Lemma geocodeLocation_raw_key_hit :
  let geoData := [("St. Louis, MO", (386270, -901994))] in
  Geo.geocodeLocation geoData "St. Louis, MO" = Some (386270, -901994)
  /\ Geo.lookup "Saint Louis, Missouri" geoData = None.
Proof. split; reflexivity. Qed.

(** C6, amended: for a location key the resolver tries, in this order,
    the key with the state abbreviation expanded and then the city
    abbreviations expanded, the key with only the state expanded, the key
    as given, and the bare city, the last only if no other key of the
    index starts with the city and a comma; it returns the first hit, and
    every result is the entry of one of these four keys (nothing fuzzy).
    "St. Louis, MO" expands to exactly "Saint Louis, Missouri", the first
    key tried, and is resolved whenever the index holds that key; without
    it the later attempts can still resolve it. *)
Theorem geocodeLocation_order {coord} (geoData : Geo.index coord) location :
  location <> EmptyString ->
  let expandedLocation := Geo.expandStateAbbreviations location in
  let cityExpandedLocation := Geo.expandCityAbbreviations expandedLocation in
  let cityOnly := Geo.cityOnlyOf cityExpandedLocation in
  let found := Geo.geocodeLocation geoData location in
  (forall c, Geo.lookup cityExpandedLocation geoData = Some c -> found = Some c)
  /\ (Geo.lookup cityExpandedLocation geoData = None ->
      forall c, Geo.lookup expandedLocation geoData = Some c -> found = Some c)
  /\ (Geo.lookup cityExpandedLocation geoData = None ->
      Geo.lookup expandedLocation geoData = None ->
      forall c, Geo.lookup location geoData = Some c -> found = Some c)
  /\ (Geo.lookup cityExpandedLocation geoData = None ->
      Geo.lookup expandedLocation geoData = None ->
      Geo.lookup location geoData = None ->
      forall c, found = Some c <->
        cityOnly <> EmptyString
        /\ Geo.lookup cityOnly geoData = Some c
        /\ forall k, In k (map fst geoData) -> k <> cityOnly ->
             JsString.startsWith k (String.append cityOnly ",") = false)
  /\ (forall c, found = Some c ->
      exists key, In key [cityExpandedLocation; expandedLocation; location; cityOnly]
                  /\ Geo.lookup key geoData = Some c)
  /\ Geo.expandCityAbbreviations (Geo.expandStateAbbreviations "St. Louis, MO")
     = "Saint Louis, Missouri"
  /\ (forall c, Geo.lookup "Saint Louis, Missouri" geoData = Some c ->
      Geo.geocodeLocation geoData "St. Louis, MO" = Some c).
Proof.
  intros NE expandedLocation cityExpandedLocation cityOnly found.
  assert (F : found =
    match Geo.lookup cityExpandedLocation geoData with
    | Some c => Some c
    | None =>
        match Geo.lookup expandedLocation geoData with
        | Some c => Some c
        | None =>
            match Geo.lookup location geoData with
            | Some c => Some c
            | None => Geo.cityOnlyMatch geoData cityExpandedLocation
            end
        end
    end).
  { subst found. unfold Geo.geocodeLocation.
    apply String.eqb_neq in NE. now rewrite NE. }
  split; [|split; [|split; [|split; [|split; [|split]]]]].
  - intros c A. now rewrite F, A.
  - intros A c B. now rewrite F, A, B.
  - intros A B c C. now rewrite F, A, B, C.
  - intros A B C c. rewrite F, A, B, C. apply cityOnlyMatch_iff.
  - intros c. rewrite F.
    destruct (Geo.lookup cityExpandedLocation geoData) as [a|] eqn:A.
    { intros [= <-]. exists cityExpandedLocation. simpl. auto. }
    destruct (Geo.lookup expandedLocation geoData) as [b|] eqn:B.
    { intros [= <-]. exists expandedLocation. simpl. auto. }
    destruct (Geo.lookup location geoData) as [r|] eqn:C.
    { intros [= <-]. exists location. simpl. auto. }
    intros D. apply cityOnlyMatch_iff in D as (_ & D & _).
    exists cityOnly. split; [simpl; tauto | exact D].
  - reflexivity.
  - intros c A. unfold Geo.geocodeLocation.
    change (Geo.expandCityAbbreviations (Geo.expandStateAbbreviations "St. Louis, MO"))
      with "Saint Louis, Missouri".
    simpl String.eqb. cbv iota. now rewrite A.
Qed.

(** C6 at an input: an index with the expanded key of St. Louis. *)
Lemma geocodeLocation_order_witness :
  Geo.geocodeLocation [("Saint Louis, Missouri", (386270, -901994))] "St. Louis, MO"
  = Some (386270, -901994).
Proof.
  pose proof (geocodeLocation_order
                [("Saint Louis, Missouri", (386270, -901994))] "St. Louis, MO") as H.
  cbv zeta in H. destruct H as (H & _); [discriminate|].
  apply H. reflexivity.
Defined.

(** C5 at an input: a record in the stage CANVAS. *)
Lemma moveToNextStage_pipeline_witness :
  let s := set_venues [O] (set_heap [[("Venue", "Loft"); ("Status", "CANVAS")]] initial) in
  propOr (deref (heap (moveToNextStage sampleHost O s)) O) "Status" = "FOLLOW-UP".
Proof.
  cbv zeta.
  pose proof (moveToNextStage_pipeline sampleHost sampleHost sampleHost sampleHost O
    (set_venues [O] (set_heap [[("Venue", "Loft"); ("Status", "CANVAS")]] initial))) as H.
  cbv zeta in H. destruct H as (H & _).
  apply H. reflexivity.
Defined.

(** ** Change history *)

Lemma history_calculatePagination s : history (calculatePagination s) = history s.
Proof. apply calculatePagination_keeps. Qed.

Lemma history_resortLastUpdated h s : history (resortLastUpdated h s) = history s.
Proof.
  unfold resortLastUpdated, updateTable.
  destruct (sameColumn _ _); now rewrite history_calculatePagination.
Qed.

Lemma history_replaceInStore l s : history (replaceInStore l s) = history s.
Proof. unfold replaceInStore. now destruct (JsArray.findIndex l (venues s)). Qed.

(** Adding a record through the dialog logs exactly one entry, an Add. *)
Lemma saveEdit_add_history h allInputs s l :
  currentEditIndex s = -1 -> tempNewVenue s = Some l ->
  exists s' e,
    saveEdit h allInputs s = Some s'
    /\ history s' = e :: history s /\ action e = Add /\ changes e = None.
Proof.
  intros E T. unfold saveEdit. rewrite E, T. simpl Z.eqb. cbv iota.
  eexists. eexists. split; [reflexivity|].
  cbn [history set_tempNewVenue]. rewrite history_resortLastUpdated.
  cbn [history set_currentPage]. rewrite history_calculatePagination.
  cbn. repeat split.
Qed.

(** Saving the dialog of an existing record logs one Edit entry when
    [getChangesDescription] finds a change, and nothing otherwise; in
    the second case the record keeps its Last Updated. *)
Lemma saveEdit_edit_history h allInputs s l :
  0 <= currentEditIndex s ->
  nth_error (filteredVenues s) (Z.to_nat (currentEditIndex s)) = Some l ->
  (l < length (heap s))%nat ->
  let old := deref (heap s) l in
  exists s',
    saveEdit h allInputs s = Some s'
    /\ match getChangesDescription old (applyInputs allInputs old) with
       | Some (c :: cs) =>
           exists e, history s' = e :: history s /\ action e = Edit
                     /\ changes e = Some (c :: cs)
       | _ =>
           history s' = history s
           /\ deref (heap s') l = applyInputs allInputs old
       end.
Proof.
  intros P N V old. unfold saveEdit.
  destruct (currentEditIndex s =? -1) eqn:E1; [apply Z.eqb_eq in E1; lia|].
  destruct (currentEditIndex s <? 0) eqn:E2; [apply Z.ltb_lt in E2; lia|].
  rewrite N. eexists. split; [reflexivity|].
  cbn [history set_tempNewVenue heap].
  rewrite history_resortLastUpdated, history_replaceInStore, heap_resortLastUpdated.
  rewrite deref_update_eq by assumption. fold old.
  destruct (getChangesDescription old (applyInputs allInputs old)) as [[|c cs]|].
  - split; [reflexivity|].
    unfold replaceInStore.
    destruct (JsArray.findIndex l (venues (update l (applyInputs allInputs) s))) as [i|];
      cbn [heap alloc set_venues set_heap fst snd].
    + unfold deref. rewrite app_nth1.
      * fold (deref (heap (update l (applyInputs allInputs) s)) l).
        now apply deref_update_eq.
      * rewrite heap_update, length_assign. assumption.
    + now apply deref_update_eq.
  - eexists. repeat split.
  - split; [reflexivity|].
    unfold replaceInStore.
    destruct (JsArray.findIndex l (venues (update l (applyInputs allInputs) s))) as [i|];
      cbn [heap alloc set_venues set_heap fst snd].
    + unfold deref. rewrite app_nth1.
      * fold (deref (heap (update l (applyInputs allInputs) s)) l).
        now apply deref_update_eq.
      * rewrite heap_update, length_assign. assumption.
    + now apply deref_update_eq.
Qed.

(** Deleting a row, once confirmed, logs exactly one entry, a Delete. *)
Lemma deleteRow_history h index s l :
  nth_error (filteredVenues s) index = Some l ->
  exists s' e,
    deleteRow h true index s = Some s'
    /\ history s' = e :: history s /\ action e = Delete
    /\ venueId e = getVenueId (deref (heap s) l).
Proof.
  intros N. unfold deleteRow. rewrite N. simpl negb. cbv iota.
  eexists. eexists. split; [reflexivity|].
  unfold updateTable. rewrite history_calculatePagination.
  destruct (JsArray.findIndex l (venues s)); cbn; repeat split.
Qed.

Lemma propOr_setProp_same o f k : propOr (setProp f (propOr o f) o) k = propOr o k.
Proof.
  destruct (string_dec k f) as [->|N].
  - apply propOr_setProp_eq.
  - now apply propOr_setProp_neq.
Qed.

Lemma propOr_applyInputs allInputs o :
  (forall i, In i allInputs -> value i = propOr o (fieldKey i)) ->
  forall k, propOr (applyInputs allInputs o) k = propOr o k.
Proof.
  unfold applyInputs. revert o.
  induction allInputs as [|i r IH]; intros o H k; simpl; [reflexivity|].
  rewrite IH.
  - rewrite (H i) by now left. apply propOr_setProp_same.
  - intros j J. rewrite (H i) by now left.
    rewrite propOr_setProp_same. apply H. now right.
Qed.

Lemma getChangesDescription_same oldVenue newVenue :
  (forall k, propOr newVenue k = propOr oldVenue k) ->
  getChangesDescription oldVenue newVenue = None.
Proof.
  intros E. unfold getChangesDescription.
  generalize (uniq [] (keys oldVenue ++ keys newVenue)). intros ks.
  assert (F : flat_map (fun key =>
                if String.eqb (propOr oldVenue key) (propOr newVenue key) then []
                else [mkChange key (propOr oldVenue key) (propOr newVenue key)]) ks
              = []).
  { induction ks as [|k ks IH]; simpl; [reflexivity|].
    now rewrite E, String.eqb_refl, IH. }
  now rewrite F.
Qed.

(** What [saveEdit] is written to do: when every input carries the value
    the record already has under the key the input names, nothing is
    logged and the cells of the record, Last Updated among them, read as
    before. *)
Lemma saveEdit_same_values h allInputs s l :
  0 <= currentEditIndex s ->
  nth_error (filteredVenues s) (Z.to_nat (currentEditIndex s)) = Some l ->
  (l < length (heap s))%nat ->
  (forall i, In i allInputs -> value i = propOr (deref (heap s) l) (fieldKey i)) ->
  exists s',
    saveEdit h allInputs s = Some s'
    /\ history s' = history s
    /\ forall k, propOr (deref (heap s') l) k = propOr (deref (heap s) l) k.
Proof.
  intros P N V S.
  destruct (saveEdit_edit_history h allInputs s l P N V) as (s' & E & H).
  cbv zeta in H.
  rewrite getChangesDescription_same in H by now apply propOr_applyInputs.
  destruct H as (H1 & H2). exists s'. repeat split; auto.
  intros k. rewrite H2. now apply propOr_applyInputs.
Qed.

(** C4 on the code: the dialog opened on the one record of the store and
    saved with its inputs as they were filled logs an Edit entry and
    stamps Last Updated.  The read-only input that shows Last Updated
    has no [data-field], so its text is written to the record under the
    key ["undefined"] and found as a change. *)
Theorem saveEdit_untouched_dialog :
  exists s1 allInputs s2,
    editRow sampleHost O oneRecord = (s1, Some allInputs)
    /\ allInputs = dialogInputs sampleHost s1 (deref (heap s1) O)
    /\ saveEdit sampleHost allInputs s1 = Some s2
    /\ history oneRecord = []
    /\ map action (history s2) = [Edit]
    /\ map changes (history s2)
       = [Some [mkChange "undefined" EmptyString "1/1/2026, 8:00:00 AM"]]
    /\ map (fun o => propOr o "Last Updated") (records oneRecord)
       = ["2026-01-01T08:00:00.000Z"]
    /\ map (fun o => propOr o "Last Updated") (records s2)
       = ["2026-01-02T09:30:00.000Z"].
Proof.
  eexists. eexists. eexists.
  split; [reflexivity|]. split; [reflexivity|]. split; [reflexivity|].
  repeat split.
Qed.

(** ** Columns on which the comparator is an order *)

Lemma orZero_not_NaN v : JsNumber.orZero v <> JsNumber.NaN.
Proof.
  destruct v as [|q| |]; simpl; try discriminate.
  destruct (Qeq_bool q 0); discriminate.
Qed.

Lemma Qltb_false_iff x y :
  match (x ?= y)%Q with Lt => true | _ => false end = false <-> (y <= x)%Q.
Proof.
  rewrite Qle_alt, <- (Qcompare_antisym x y).
  destruct (x ?= y)%Q; simpl; split; congruence.
Qed.

Lemma numLtb_false_trans a b c :
  a <> JsNumber.NaN -> b <> JsNumber.NaN -> c <> JsNumber.NaN ->
  JsNumber.ltb b a = false -> JsNumber.ltb c b = false ->
  JsNumber.ltb c a = false.
Proof.
  destruct a as [|p| |], b as [|q| |], c as [|r| |]; simpl;
    try congruence; intros _ _ _.
  rewrite !Qltb_false_iff. intros H1 H2. now apply Qle_trans with q.
Qed.

(** On a column whose cells in the view all pass the numeric test the
    comparator is transitive. *)
Lemma transitiveOn_numeric column s :
  (forall l, In l (filteredVenues s) ->
     JsNumber.isNaN (propOr (deref (heap s) l) column) = false) ->
  transitiveOn column s.
Proof.
  intros N x y z Ix Iy Iz. unfold locCompare, columnCompare, sortKeys.
  rewrite (N x Ix), (N y Iy), (N z Iz). simpl.
  set (a := JsNumber.orZero (JsNumber.parseFloat (propOr (deref (heap s) x) column))).
  set (b := JsNumber.orZero (JsNumber.parseFloat (propOr (deref (heap s) y) column))).
  set (c := JsNumber.orZero (JsNumber.parseFloat (propOr (deref (heap s) z) column))).
  assert (Na : a <> JsNumber.NaN) by apply orZero_not_NaN.
  assert (Nb : b <> JsNumber.NaN) by apply orZero_not_NaN.
  assert (Nc : c <> JsNumber.NaN) by apply orZero_not_NaN.
  unfold directed, keyLt. intros H1 H2.
  assert (BA : JsNumber.ltb b a = false).
  { destruct (JsNumber.ltb b a) eqn:E; auto.
    destruct (JsNumber.ltb a b) eqn:E'; [|lia].
    apply numLtb_asym in E'. congruence. }
  assert (CB : JsNumber.ltb c b = false).
  { destruct (JsNumber.ltb c b) eqn:E; auto.
    destruct (JsNumber.ltb b c) eqn:E'; [|lia].
    apply numLtb_asym in E'. congruence. }
  rewrite (numLtb_false_trans a b c Na Nb Nc BA CB).
  destruct (JsNumber.ltb a c); lia.
Qed.

Lemma string_compare_trans a b c :
  String.compare a b <> Gt -> String.compare b c <> Gt ->
  String.compare a c <> Gt.
Proof.
  revert b c. induction a as [|x a IH]; intros [|y b] [|z c]; simpl;
    try congruence.
  unfold Ascii.compare.
  destruct (N.compare_spec (N_of_ascii x) (N_of_ascii y)) as [E1|L1|G1];
    destruct (N.compare_spec (N_of_ascii y) (N_of_ascii z)) as [E2|L2|G2];
    destruct (N.compare_spec (N_of_ascii x) (N_of_ascii z)) as [E3|L3|G3];
    try congruence; try lia.
  apply IH.
Qed.

Lemma strLtb_false_iff a b :
  JsString.ltb b a = false <-> String.compare a b <> Gt.
Proof.
  unfold JsString.ltb. rewrite (String.compare_antisym a b).
  destruct (String.compare b a); simpl; split; congruence.
Qed.

(** On a column whose cells in the view all fail the numeric test the
    comparator is transitive. *)
Lemma transitiveOn_text column s :
  (forall l, In l (filteredVenues s) ->
     JsNumber.isNaN (propOr (deref (heap s) l) column) = true) ->
  transitiveOn column s.
Proof.
  intros N x y z Ix Iy Iz. unfold locCompare, columnCompare, sortKeys.
  rewrite (N x Ix), (N y Iy), (N z Iz). simpl.
  set (a := JsString.toLowerCase (propOr (deref (heap s) x) column)).
  set (b := JsString.toLowerCase (propOr (deref (heap s) y) column)).
  set (c := JsString.toLowerCase (propOr (deref (heap s) z) column)).
  unfold directed, keyLt. intros H1 H2.
  assert (BA : JsString.ltb b a = false).
  { destruct (JsString.ltb b a) eqn:E; auto.
    destruct (JsString.ltb a b) eqn:E'; [|lia].
    apply strLtb_asym in E'. congruence. }
  assert (CB : JsString.ltb c b = false).
  { destruct (JsString.ltb c b) eqn:E; auto.
    destruct (JsString.ltb b c) eqn:E'; [|lia].
    apply strLtb_asym in E'. congruence. }
  assert (CA : JsString.ltb c a = false).
  { apply strLtb_false_iff. apply strLtb_false_iff in BA, CB.
    now apply string_compare_trans with b. }
  rewrite CA. destruct (JsString.ltb a c); lia.
Qed.

(** On mixed cells the comparator can run in a circle: 2 is below 10 as a
    number, 10 below 1a and 1a below 2 as strings.  No order of sorting
    is defined for such a column. *)
Lemma columnCompare_cycle :
  let cell := fun v => [("Cap", v)] in
  columnCompare "Cap" asc (cell "2") (cell "10") = -1
  /\ columnCompare "Cap" asc (cell "10") (cell "1a") = -1
  /\ columnCompare "Cap" asc (cell "1a") (cell "2") = -1.
Proof. repeat split. Qed.

(** * Further properties of the code *)

(** ** Import, continued *)

(** [headersMatch] answers true exactly for two equal lists: the same
    length and, position by position, the same names, case and blanks
    included. *)
Theorem headersMatch_equal newHeaders existingHeaders :
  headersMatch newHeaders existingHeaders = true
  <-> newHeaders = existingHeaders.
Proof. apply headersMatch_eq. Qed.

Lemma allocAll_spec os s :
  allocAll os s
  = (seq (length (heap s)) (length os), set_heap (heap s ++ os) s).
Proof.
  unfold allocAll.
  assert (G : forall (acc : list loc) s0,
            fold_left (fun acc o =>
                let '(l, s') := alloc o (snd acc) in (fst acc ++ [l], s'))
              os (acc, s0)
            = (acc ++ seq (length (heap s0)) (length os),
               set_heap (heap s0 ++ os) s0)).
  { induction os as [|o os IH]; intros acc s0; simpl.
    - rewrite !app_nil_r. now destruct s0.
    - rewrite IH. simpl. rewrite length_app, <- !app_assoc. simpl.
      now rewrite Nat.add_1_r. }
  apply G.
Qed.

Lemma parseRows_counts h s lines :
  (length (fst (parseRows h s lines)) + snd (parseRows h s lines))%nat
  = length (filter (fun line => negb (String.eqb line EmptyString))
              (map JsString.trim lines)).
Proof.
  destruct (parseRows_against_store h s lines) as (E1 & E2).
  cbv zeta in E1, E2. rewrite E1, E2.
  rewrite <- (length_map (venueOfLine h (headers s))
                (filter (fun line => negb (String.eqb line EmptyString))
                   (map JsString.trim lines))).
  generalize (map (venueOfLine h (headers s))
    (filter (fun line => negb (String.eqb line EmptyString))
       (map JsString.trim lines))).
  intros rows. induction rows as [|r rows IH]; simpl; [reflexivity|].
  destruct (isDuplicateVenue s r); simpl; lia.
Qed.

(** The state an accepted import leads to. *)
Lemma importData_accepted_state h text s :
  (2 <= length (JsString.split newline (JsString.trim text)))%nat ->
  headers s = []
  \/ filter notLastUpdated (headerCells text)
     = filter notLastUpdated (headers s) ->
  let rows := map (venueOfLine h (headersAfterImport text s)) (dataLines text) in
  let kept := filter (fun v => negb (isDuplicateVenue s v)) rows in
  importData h text s
  = (Imported (length kept) (length rows - length kept)
       (length (venues s) + length kept),
     updateTable
       (set_filteredVenues (venues s ++ seq (length (heap s)) (length kept))
          (set_venues (venues s ++ seq (length (heap s)) (length kept))
             (set_heap (heap s ++ kept)
                (set_headers (headersAfterImport text s) s))))).
Proof.
  intros L M rows kept.
  unfold importData.
  destruct (String.eqb (JsString.trim text) EmptyString) eqn:E0.
  { apply String.eqb_eq in E0. rewrite E0 in L. simpl in L. lia. }
  destruct (length (JsString.split newline (JsString.trim text)) <? 2)%nat eqn:E1.
  { apply Nat.ltb_lt in E1. lia. }
  fold (headerCells text). fold (importedHeaders text).
  assert (C : (if (length (headers s) =? 0)%nat
               then Some (set_headers (importedHeaders text) s)
               else if headersMatch
                         (filter notLastUpdated (importedHeaders text))
                         (filter notLastUpdated (headers s))
                    then Some s else None)
              = Some (set_headers (headersAfterImport text s) s)).
  { unfold headersAfterImport. destruct (headers s) as [|x r] eqn:H;
      cbn [length Nat.eqb].
    - reflexivity.
    - destruct M as [M|M]; [discriminate|].
      assert (F : filter notLastUpdated (importedHeaders text)
                  = filter notLastUpdated (x :: r)).
      { rewrite <- M. unfold importedHeaders.
        destruct (existsb _ _); [reflexivity|].
        apply filter_notLastUpdated_app. }
      apply headersMatch_eq in F. rewrite F.
      f_equal. destruct s; simpl in *. now subst. }
  rewrite C.
  pose proof (parseRows_against_store h
    (set_headers (headersAfterImport text s) s)
    (tl (JsString.split newline (JsString.trim text)))) as (P1 & P2).
  cbv zeta in P1, P2.
  destruct (parseRows h (set_headers (headersAfterImport text s) s)
              (tl (JsString.split newline (JsString.trim text))))
    as (newVenues & duplicateCount).
  simpl in P1, P2. fold (dataLines text) in P1, P2.
  change (map (venueOfLine h (headersAfterImport text s)) (dataLines text))
    with rows in P1, P2.
  change (filter (fun v => negb (isDuplicateVenue
            (set_headers (headersAfterImport text s) s) v)) rows)
    with kept in P1.
  rewrite allocAll_spec. cbv zeta. subst newVenues. simpl.
  rewrite length_app, length_seq. f_equal. f_equal.
  rewrite P2.
  change (isDuplicateVenue (set_headers (headersAfterImport text s) s))
    with (isDuplicateVenue s).
  subst kept. clear.
  assert (G : (length (filter (isDuplicateVenue s) rows)
               + length (filter (fun v => negb (isDuplicateVenue s v)) rows)
               = length rows)%nat).
  { induction rows as [|r rows IH]; simpl; [reflexivity|].
    destruct (isDuplicateVenue s r); simpl; lia. }
  lia.
Qed.

(** An import text with a data line is accepted when the store has no
    schema or the header line agrees with the schema, Last Updated set
    aside.  Then every data line that is not blank is counted once, as
    imported or as duplicate; the imported records are the rows no record
    of the store duplicates, in the order of the lines, added behind the
    records of the store; the view shows the whole store; the objects
    already there and the history are not touched. *)
Theorem importData_accepted h text s :
  (2 <= length (JsString.split newline (JsString.trim text)))%nat ->
  headers s = []
  \/ filter notLastUpdated (headerCells text)
     = filter notLastUpdated (headers s) ->
  let rows := map (venueOfLine h (headersAfterImport text s)) (dataLines text) in
  let kept := filter (fun v => negb (isDuplicateVenue s v)) rows in
  let s' := snd (importData h text s) in
  fst (importData h text s)
    = Imported (length kept) (length rows - length kept)
        (length (venues s) + length kept)
  /\ heap s' = heap s ++ kept
  /\ venues s' = venues s ++ seq (length (heap s)) (length kept)
  /\ filteredVenues s' = venues s'
  /\ headers s' = headersAfterImport text s
  /\ history s' = history s.
Proof.
  intros L M rows kept s'.
  subst s'. rewrite (importData_accepted_state h text s L M).
  fold rows. fold kept. unfold updateTable. simpl fst. simpl snd.
  match goal with
  | |- context [calculatePagination ?t] =>
      destruct (calculatePagination_keeps t) as (-> & -> & -> & -> & _ & _ & _ & ->)
  end.
  simpl. repeat split.
Qed.

(** An accepted import at an input: two rows into the initial state. *)
Lemma importData_accepted_witness :
  venues (snd (importData sampleHost twoEqualRows initial)) = [0; 1]%nat.
Proof.
  pose proof (importData_accepted sampleHost twoEqualRows initial) as H.
  cbv zeta in H. destruct H as (_ & _ & H & _).
  - vm_compute. lia.
  - left. reflexivity.
  - rewrite H. reflexivity.
Defined.

Lemma deref_app_old hp os l :
  (l < length hp)%nat -> deref (hp ++ os) l = deref hp l.
Proof. intros L. unfold deref. now apply app_nth1. Qed.

Lemma deref_app_new hp os i :
  deref (hp ++ os) (length hp + i)%nat = nth i os [].
Proof.
  unfold deref. rewrite app_nth2 by lia. f_equal. lia.
Qed.

Lemma map_deref_new hp os :
  map (deref (hp ++ os)) (seq (length hp) (length os)) = os.
Proof.
  apply nth_ext with (d := []) (d' := []).
  - now rewrite length_map, length_seq.
  - intros n L. rewrite length_map, length_seq in L.
    rewrite (nth_indep _ [] (deref (hp ++ os) O)) by now rewrite length_map, length_seq.
    rewrite map_nth, seq_nth by assumption. apply deref_app_new.
Qed.

Lemma isDuplicateVenue_empty_store s v :
  venues s = [] -> isDuplicateVenue s v = false.
Proof.
  intros E. unfold isDuplicateVenue, records. rewrite E. simpl.
  now destruct (_ || _).
Qed.

(** An import into a store without records keeps every data line that is
    not blank as a record, in the order of the lines, repeated lines
    included: nothing is counted as a duplicate. *)
Theorem importData_into_empty_store h text s :
  venues s = [] ->
  (2 <= length (JsString.split newline (JsString.trim text)))%nat ->
  headers s = []
  \/ filter notLastUpdated (headerCells text)
     = filter notLastUpdated (headers s) ->
  let rows := map (venueOfLine h (headersAfterImport text s)) (dataLines text) in
  fst (importData h text s) = Imported (length rows) 0 (length rows)
  /\ records (snd (importData h text s)) = rows.
Proof.
  intros V L M rows.
  pose proof (importData_accepted_state h text s L M) as E.
  cbv zeta in E. fold rows in E.
  assert (O : fst (importData h text s)
              = Imported
                  (length (filter (fun v => negb (isDuplicateVenue s v)) rows))
                  (length rows
                   - length (filter (fun v => negb (isDuplicateVenue s v)) rows))
                  (length (venues s)
                   + length (filter (fun v => negb (isDuplicateVenue s v)) rows)))
    by (rewrite E; reflexivity).
  assert (HW : heap (snd (importData h text s))
               = heap s ++ filter (fun v => negb (isDuplicateVenue s v)) rows
               /\ venues (snd (importData h text s))
                  = venues s
                    ++ seq (length (heap s))
                         (length (filter (fun v => negb (isDuplicateVenue s v))
                                    rows))).
  { rewrite E. unfold updateTable. simpl snd.
    match goal with
    | |- context [calculatePagination ?t] =>
        destruct (calculatePagination_keeps t) as (-> & -> & _)
    end.
    split; reflexivity. }
  destruct HW as (H & W).
  assert (K : filter (fun v => negb (isDuplicateVenue s v)) rows = rows).
  { clear - V. induction rows as [|r rows IH]; simpl; [reflexivity|].
    rewrite (isDuplicateVenue_empty_store s r V). simpl. now rewrite IH. }
  rewrite K in O, H, W. split.
  - rewrite O, V. simpl. f_equal. lia.
  - unfold records. rewrite H, W, V. simpl. apply map_deref_new.
Qed.

(** An import into the empty store at an input: the two equal rows. *)
Lemma importData_into_empty_store_witness :
  length (records (snd (importData sampleHost twoEqualRows initial))) = 2%nat.
Proof.
  pose proof (importData_into_empty_store sampleHost twoEqualRows initial) as H.
  cbv zeta in H. destruct H as (_ & H).
  - reflexivity.
  - vm_compute. lia.
  - left. reflexivity.
  - rewrite H. reflexivity.
Defined.

(** ** The record of a data line *)

Lemma getProp_fold_setProp_notin (f : nat -> string) k js hs o :
  ~ In k hs ->
  getProp k (fold_left (fun o jh => setProp (snd jh) (f (fst jh)) o)
               (combine js hs) o)
  = getProp k o.
Proof.
  revert js o. induction hs as [|x hs IH]; intros [|j js] o N; simpl; auto.
  rewrite IH by (intros I; apply N; now right).
  apply getProp_setProp_neq. intros ->. apply N. now left.
Qed.

Lemma getProp_fold_setProp_in (f : nat -> string) n hs o j :
  NoDup hs -> (j < length hs)%nat ->
  getProp (nth j hs EmptyString)
    (fold_left (fun o jh => setProp (snd jh) (f (fst jh)) o)
       (combine (seq n (length hs)) hs) o)
  = Some (f (n + j)%nat).
Proof.
  revert n o j. induction hs as [|x hs IH]; intros n o j ND L; simpl in *; [lia|].
  inversion ND as [|? ? NI ND']; subst.
  destruct j as [|j].
  - rewrite getProp_fold_setProp_notin by assumption.
    rewrite getProp_setProp_eq. f_equal. f_equal. lia.
  - rewrite (IH (S n) _ j ND') by lia. f_equal. f_equal. lia.
Qed.

Lemma keys_setProp_in k v o : In k (keys o) -> keys (setProp k v o) = keys o.
Proof.
  induction o as [|[k' v'] r IH]; simpl; [tauto|].
  intros [->|I].
  - now rewrite String.eqb_refl.
  - destruct (String.eqb k' k); simpl; [reflexivity|]. now rewrite IH.
Qed.

Lemma keys_setProp_notin k v o : ~ In k (keys o) -> keys (setProp k v o) = keys o ++ [k].
Proof.
  induction o as [|[k' v'] r IH]; simpl; [reflexivity|].
  intros N. destruct (String.eqb k' k) eqn:E.
  - apply String.eqb_eq in E. tauto.
  - simpl. rewrite IH; tauto.
Qed.

Lemma keys_fold_setProp (f : nat -> string) js hs o :
  NoDup (keys o ++ hs) -> length js = length hs ->
  keys (fold_left (fun o jh => setProp (snd jh) (f (fst jh)) o)
          (combine js hs) o)
  = keys o ++ hs.
Proof.
  revert js o. induction hs as [|x hs IH]; intros [|j js] o ND L;
    simpl in *; try discriminate; [now rewrite app_nil_r|].
  assert (NI : ~ In x (keys o)).
  { intros I. apply NoDup_remove_2 in ND. apply ND.
    apply in_or_app. now left. }
  rewrite IH.
  - rewrite keys_setProp_notin by assumption. now rewrite <- app_assoc.
  - rewrite keys_setProp_notin by assumption. now rewrite <- app_assoc.
  - now inversion L.
Qed.

(** The record built for a data line, for headers without repetition:
    its columns are the headers and Last Updated, no other (in which order
    the engine lists them is left open); the cell of the j-th header is
    the j-th tab-separated field of the line, empty when the line has
    fewer fields; Last Updated holds the time of the import whatever the
    line says. *)
Theorem venueOfLine_cells h hdrs line :
  NoDup hdrs ->
  let o := venueOfLine h hdrs line in
  (forall k, In k (keys o) <-> In k hdrs \/ k = "Last Updated")
  /\ propOr o "Last Updated" = isoNow h
  /\ forall j, (j < length hdrs)%nat ->
       nth j hdrs EmptyString <> "Last Updated" ->
       propOr o (nth j hdrs EmptyString)
       = nth j (JsString.split tab line) EmptyString.
Proof.
  intros ND o. subst o. unfold venueOfLine.
  set (cells := fold_left _ _ _).
  assert (K : keys cells = hdrs).
  { subst cells.
    rewrite (keys_fold_setProp
               (fun j => nth j (JsString.split tab line) EmptyString));
      simpl; auto using length_seq. }
  split; [|split].
  - intros k. destruct (existsb (String.eqb "Last Updated") hdrs) eqn:E.
    + apply existsb_eqb_In in E.
      rewrite keys_setProp_in, K by (rewrite K; exact E).
      split; [now left|]. now intros [I| ->].
    + rewrite keys_setProp_notin, K.
      * rewrite in_app_iff. simpl. intuition.
      * rewrite K. intros I. apply existsb_eqb_In in I. congruence.
  - apply propOr_setProp_eq.
  - intros j L N. rewrite propOr_setProp_neq by assumption.
    unfold propOr. subst cells.
    now rewrite (getProp_fold_setProp_in
                   (fun j => nth j (JsString.split tab line) EmptyString) O).
Qed.

(** The record of a data line at an input: three headers, two fields. *)
Lemma venueOfLine_cells_witness :
  propOr (venueOfLine sampleHost ["Venue"; "City"; "State"]
            (String.append "Loft" (String tab "Paris"))) "State"
  = EmptyString.
Proof.
  pose proof (venueOfLine_cells sampleHost ["Venue"; "City"; "State"]
                (String.append "Loft" (String tab "Paris"))) as H.
  cbv zeta in H. destruct H as (_ & _ & H).
  - repeat constructor; simpl; intuition discriminate.
  - exact (H 2%nat ltac:(simpl; lia) ltac:(discriminate)).
Defined.

(** ** The differences between two records *)

Lemma uniq_In seen l k :
  In k (uniq seen l) <-> In k l /\ ~ In k seen.
Proof.
  revert seen. induction l as [|x l IH]; intros seen; simpl; [tauto|].
  destruct (existsb (String.eqb x) seen) eqn:E.
  - apply existsb_eqb_In in E. rewrite IH. split.
    + tauto.
    + intros ([->|I] & N); tauto.
  - assert (N : ~ In x seen).
    { intros I. apply existsb_eqb_In in I. congruence. }
    simpl. rewrite IH. simpl. split.
    + intros [->|(I & M)]; [tauto|]. split; [tauto|]. intros J. apply M. now right.
    + intros ([->|I] & M); [now left|].
      destruct (string_dec x k) as [->|D]; [now left|]. right.
      split; auto. intros [J|J]; tauto.
Qed.

Lemma uniq_NoDup seen l : NoDup (uniq seen l).
Proof.
  revert seen. induction l as [|x l IH]; intros seen; simpl; [constructor|].
  destruct (existsb (String.eqb x) seen); [apply IH|].
  constructor; [|apply IH]. intros I. apply uniq_In in I as (_ & N).
  apply N. now left.
Qed.

Lemma getProp_None_keys k o : ~ In k (keys o) -> getProp k o = None.
Proof.
  induction o as [|[k' v] r IH]; simpl; [reflexivity|].
  intros N. destruct (String.eqb k' k) eqn:E.
  - apply String.eqb_eq in E. tauto.
  - apply IH. tauto.
Qed.

(** The changes of a key list: one entry for every key whose two values
    differ. *)
Lemma changes_of_keys oldVenue newVenue ks c :
  In c (flat_map (fun key =>
          if String.eqb (propOr oldVenue key) (propOr newVenue key) then []
          else [mkChange key (propOr oldVenue key) (propOr newVenue key)]) ks)
  <-> In (field c) ks
      /\ c = mkChange (field c) (propOr oldVenue (field c))
               (propOr newVenue (field c))
      /\ propOr oldVenue (field c) <> propOr newVenue (field c).
Proof.
  rewrite in_flat_map. split.
  - intros (k & I & J).
    destruct (String.eqb (propOr oldVenue k) (propOr newVenue k)) eqn:E;
      [destruct J|].
    destruct J as [<-|[]]. simpl. apply String.eqb_neq in E. auto.
  - intros (I & E & N). exists (field c). split; auto.
    apply String.eqb_neq in N. rewrite N. left. now symmetry.
Qed.

Lemma changes_fields_NoDup oldVenue newVenue ks :
  NoDup ks ->
  NoDup (map field (flat_map (fun key =>
          if String.eqb (propOr oldVenue key) (propOr newVenue key) then []
          else [mkChange key (propOr oldVenue key) (propOr newVenue key)]) ks)).
Proof.
  induction 1 as [|k ks N ND IH]; simpl; [constructor|].
  rewrite map_app.
  destruct (String.eqb (propOr oldVenue k) (propOr newVenue k)); simpl; auto.
  constructor; auto. intros I. apply in_map_iff in I as (c & F & I).
  apply changes_of_keys in I as (I & _). congruence.
Qed.

(** [getChangesDescription] answers [null] exactly when the two records
    read the same under every key, a missing cell counting as an empty
    one.  Otherwise it lists the keys of the two records that read
    differently: each such key once, with what the old and the new record
    hold under it, and no key that reads the same. *)
Theorem getChangesDescription_spec oldVenue newVenue :
  (getChangesDescription oldVenue newVenue = None
   <-> forall key, propOr oldVenue key = propOr newVenue key)
  /\ forall cs,
       getChangesDescription oldVenue newVenue = Some cs ->
       cs <> []
       /\ NoDup (map field cs)
       /\ forall c, In c cs <->
            In (field c) (keys oldVenue ++ keys newVenue)
            /\ c = mkChange (field c) (propOr oldVenue (field c))
                     (propOr newVenue (field c))
            /\ propOr oldVenue (field c) <> propOr newVenue (field c).
Proof.
  unfold getChangesDescription.
  set (ks := uniq [] (keys oldVenue ++ keys newVenue)).
  set (cs0 := flat_map _ ks).
  assert (IK : forall k, In k ks <-> In k (keys oldVenue ++ keys newVenue)).
  { intros k. subst ks. rewrite uniq_In. simpl. tauto. }
  assert (M : forall c, In c cs0 <->
            In (field c) (keys oldVenue ++ keys newVenue)
            /\ c = mkChange (field c) (propOr oldVenue (field c))
                     (propOr newVenue (field c))
            /\ propOr oldVenue (field c) <> propOr newVenue (field c)).
  { intros c. subst cs0. rewrite changes_of_keys, IK. reflexivity. }
  split.
  - split.
    + intros E key. destruct cs0 as [|c cs1] eqn:C; [|discriminate].
      destruct (string_dec (propOr oldVenue key) (propOr newVenue key)) as [|N];
        auto.
      exfalso.
      assert (I : In key (keys oldVenue ++ keys newVenue)).
      { destruct (in_dec string_dec key (keys oldVenue ++ keys newVenue)) as [|NI];
          auto.
        exfalso. apply N. unfold propOr.
        rewrite !getProp_None_keys; auto; intros J; apply NI, in_or_app; auto. }
      assert (J : In (mkChange key (propOr oldVenue key) (propOr newVenue key)) []).
      { apply M. simpl. auto. }
      destruct J.
    + intros E. destruct cs0 as [|c cs1] eqn:C; [reflexivity|].
      exfalso. assert (I : In c (c :: cs1)) by now left.
      apply M in I as (_ & _ & N). apply N, E.
  - intros cs E. destruct cs0 as [|c cs1] eqn:C; [discriminate|].
    inversion E; subst cs. split; [discriminate|]. split; [|exact M].
    rewrite <- C. subst cs0. apply changes_fields_NoDup. subst ks.
    apply uniq_NoDup.
Qed.

(** ** The log only grows *)

Lemma importData_keeps h text s :
  history (snd (importData h text s)) = history s
  /\ sortColumn (snd (importData h text s)) = sortColumn s
  /\ sortDirection (snd (importData h text s)) = sortDirection s
  /\ pageSize (snd (importData h text s)) = pageSize s.
Proof.
  unfold importData.
  destruct (String.eqb _ _); [auto|].
  destruct (_ <? _)%nat; [auto|].
  match goal with
  | |- context [match ?c with Some _ => _ | None => _ end] =>
      assert (P : match c with
                  | Some s1 => history s1 = history s
                               /\ sortColumn s1 = sortColumn s
                               /\ sortDirection s1 = sortDirection s
                               /\ pageSize s1 = pageSize s
                  | None => True
                  end);
      [ destruct (length (headers s) =? 0)%nat; [simpl; auto|];
        destruct (headersMatch _ _); auto
      | destruct c as [s1|]; [|auto] ]
  end.
  destruct (parseRows h s1 _) as (newVenues & duplicateCount).
  rewrite allocAll_spec. cbv zeta. unfold updateTable. simpl snd.
  match goal with
  | |- context [calculatePagination ?t] =>
      destruct (calculatePagination_keeps t)
        as (_ & _ & _ & _ & -> & -> & -> & ->)
  end.
  exact P.
Qed.

Lemma history_sortByColumn column s : history (sortByColumn column s) = history s.
Proof.
  unfold sortByColumn, updateTable. rewrite history_calculatePagination.
  now destruct (sameColumn (sortColumn s) column).
Qed.

Lemma history_applyFilters searchInput s :
  history (applyFilters searchInput s) = history s.
Proof.
  unfold applyFilters, applyCurrentSort, updateTable.
  match goal with
  | |- context [set_filteredVenues ?fv s] => generalize fv
  end.
  intros fv.
  destruct (activeSortColumn (set_currentPage 1 (set_filteredVenues fv s)));
    now rewrite history_calculatePagination.
Qed.

(** The events of the table, [clearAllData] apart, leave the log as it is
    or put one entry in front of it, stamped with the time of the
    action. *)
Lemma history_handle h m s :
  m <> MClearAllData ->
  exists pre,
    history (handle h m s) = pre ++ history s
    /\ (length pre <= 1)%nat
    /\ forall e, In e pre -> timestamp e = isoNow h.
Proof.
  intros NC.
  assert (Z0 : forall s', history s' = history s ->
            exists pre, history s' = pre ++ history s
              /\ (length pre <= 1)%nat
              /\ forall e, In e pre -> timestamp e = isoNow h).
  { intros s' E. exists []. rewrite E. simpl. repeat split; auto. intros e []. }
  assert (Z1 : forall s' e, history s' = e :: history s ->
            timestamp e = isoNow h ->
            exists pre, history s' = pre ++ history s
              /\ (length pre <= 1)%nat
              /\ forall e, In e pre -> timestamp e = isoNow h).
  { intros s' e E T. exists [e]. rewrite E. simpl. repeat split; auto.
    intros e' [<-|[]]. exact T. }
  destruct m; simpl.
  - apply Z0. apply importData_keeps.
  - apply Z0. unfold editRow. now destruct (nth_error _ _).
  - apply Z0. reflexivity.
  - apply Z0. reflexivity.
  - unfold saveEdit.
    destruct (currentEditIndex s =? -1).
    + destruct (tempNewVenue s) as [l|]; [|now apply Z0].
      eapply Z1.
      * cbn [history set_tempNewVenue]. rewrite history_resortLastUpdated.
        cbn [history set_currentPage]. rewrite history_calculatePagination.
        cbn. reflexivity.
      * reflexivity.
    + destruct (currentEditIndex s <? 0); [now apply Z0|].
      destruct (nth_error _ _) as [l|]; [|now apply Z0].
      cbn [history set_tempNewVenue].
      rewrite history_resortLastUpdated, history_replaceInStore.
      destruct (getChangesDescription _ _) as [[|c cs]|].
      * now apply Z0.
      * eapply Z1; cbn; reflexivity.
      * now apply Z0.
  - unfold deleteRow. destruct confirmed; simpl; [|now apply Z0].
    destruct (nth_error _ _) as [l|]; [|now apply Z0].
    unfold updateTable. eapply Z1.
    + rewrite history_calculatePagination.
      destruct (JsArray.findIndex l (venues s)); cbn; reflexivity.
    + reflexivity.
  - congruence.
  - apply Z0. apply history_sortByColumn.
  - apply Z0. apply history_applyFilters.
  - apply Z0. unfold applyFilterModal. rewrite history_applyFilters.
    repeat destruct (String.eqb filterType _); reflexivity.
  - apply Z0. unfold goToPage. destruct (_ && _); [|reflexivity].
    unfold updateTable. now rewrite history_calculatePagination.
  - apply Z0. unfold changePageSize, updateTable.
    now rewrite history_calculatePagination.
  - unfold moveToNextStage. destruct (String.eqb _ _); [now apply Z0|].
    eapply Z1.
    + rewrite history_resortLastUpdated. cbn. reflexivity.
    + reflexivity.
  - unfold addToKanban. eapply Z1.
    + rewrite history_resortLastUpdated, history_replaceInStore. cbn. reflexivity.
    + reflexivity.
Qed.

Lemma history_showInView l s : history (fst (showInView l s)) = history s.
Proof.
  unfold showInView. destruct (JsArray.findIndex l (filteredVenues s)); simpl.
  - reflexivity.
  - unfold updateTable. now rewrite history_calculatePagination.
Qed.

Lemma history_editKanbanVenue h l s :
  history (fst (editKanbanVenue h l s)) = history s.
Proof.
  unfold editKanbanVenue. pose proof (history_showInView l s) as E.
  destruct (showInView l s) as (s1 & [index|]); simpl in E |- *; [|exact E].
  unfold editRow. now destruct (nth_error _ _).
Qed.

Lemma history_deleteKanbanVenue h confirmed l s :
  exists pre,
    history (match deleteKanbanVenue h confirmed l s with
             | Some s' => s'
             | None => s
             end) = pre ++ history s
    /\ (length pre <= 1)%nat
    /\ forall e, In e pre -> timestamp e = isoNow h.
Proof.
  unfold deleteKanbanVenue. pose proof (history_showInView l s) as E.
  destruct (showInView l s) as (s1 & [index|]); simpl in E.
  - destruct (history_handle h (MDeleteRow confirmed index) s1)
      as (pre & P & L & T); [discriminate|].
    cbn [handle] in P. exists pre.
    destruct (deleteRow h confirmed index s1) as [s'|].
    + rewrite P, E. auto.
    + split; [|auto]. destruct pre as [|e pre].
      * reflexivity.
      * exfalso. apply (f_equal (@length _)) in P.
        rewrite length_app in P. simpl in P. lia.
  - exists []. rewrite E. repeat split; auto. intros e [].
Qed.

(** The handlers of the table, the filter modals, the board, the history
    table, the map popups and the layout dialog, [clearAllData] and
    [clearHistory] apart, remove or alter no entry of the history: each
    leaves the log as it is or puts one entry in front of it, stamped with
    the time of the action, so the log stays newest first. *)
Theorem history_append_only h a s :
  a <> ATable MClearAllData -> a <> AClearHistory ->
  exists pre,
    history (perform h a s) = pre ++ history s
    /\ (length pre <= 1)%nat
    /\ forall e, In e pre -> timestamp e = isoNow h.
Proof.
  intros NA NH.
  assert (Z0 : forall s', history s' = history s ->
            exists pre, history s' = pre ++ history s
              /\ (length pre <= 1)%nat
              /\ forall e, In e pre -> timestamp e = isoNow h).
  { intros s' E. exists []. rewrite E. simpl. repeat split; auto. intros e []. }
  destruct a as [m| |l|confirmed l|venueId|i|i|i|confirmed i| |confirmed|];
    cbn [perform].
  - apply history_handle. congruence.
  - apply Z0. unfold clearAllFilters, updateTable.
    now rewrite history_calculatePagination.
  - apply Z0, history_editKanbanVenue.
  - apply history_deleteKanbanVenue.
  - apply Z0. unfold editVenueFromHistory.
    destruct (findByVenueId venueId s); [|reflexivity].
    apply history_editKanbanVenue.
  - destruct (popupVenue i s); [|now apply Z0].
    apply Z0, history_editKanbanVenue.
  - destruct (popupVenue i s); now apply Z0.
  - destruct (popupVenue i s) as [l|]; [|now apply Z0].
    apply (history_handle h (MAddToKanban l) s). discriminate.
  - destruct (popupVenue i s) as [l|]; [|now apply Z0].
    apply history_deleteKanbanVenue.
  - apply Z0. unfold applyColumnToggle, updateTable.
    now rewrite history_calculatePagination.
  - apply Z0. unfold resetTableLayout, updateTable.
    destruct confirmed; [|reflexivity].
    now rewrite history_calculatePagination.
  - congruence.
Qed.

(** [clearAllData] and [clearHistory] empty the log. *)
Lemma history_cleared h s :
  history (perform h (ATable MClearAllData) s) = []
  /\ history (perform h AClearHistory s) = [].
Proof.
  split; [|reflexivity].
  cbn [perform handle]. unfold clearAllData, updateTable.
  now rewrite history_calculatePagination.
Qed.

(** The log at an input: deleting, from the board, the first of the two
    imported rows. *)
Lemma history_append_only_witness :
  let s := snd (importData importHost twoEqualRows initial) in
  exists pre,
    history (perform sampleHost (ADeleteKanbanVenue true 0%nat) s)
    = pre ++ history s
    /\ (length pre <= 1)%nat
    /\ forall e, In e pre -> timestamp e = isoNow sampleHost.
Proof.
  cbv zeta. apply history_append_only; discriminate.
Defined.

(** ** The view after sorting and filtering *)

Lemma currentPage_calculatePagination_first s :
  currentPage s = 1 -> currentPage (calculatePagination s) = 1.
Proof.
  intros E. unfold calculatePagination. destruct (_ <? _) eqn:C; simpl; [|exact E].
  apply Z.ltb_lt in C. simpl in C. lia.
Qed.

Lemma locCompare_consistent_on column d s l :
  (forall x y z, In x l -> In y l -> In z l ->
     locCompare column asc s x y <= 0 -> locCompare column asc s y z <= 0 ->
     locCompare column asc s x z <= 0) ->
  consistentOn (locCompare column d s) l.
Proof.
  intros T. split.
  - intros x y. apply columnCompare_swap.
  - intros x y z Ix Iy Iz. destruct d; [now apply T|].
    unfold locCompare. change desc with (flip asc).
    rewrite !columnCompare_flip. intros H1 H2.
    pose proof (columnCompare_swap column asc (deref (heap s) x) (deref (heap s) y)).
    pose proof (columnCompare_swap column asc (deref (heap s) y) (deref (heap s) z)).
    pose proof (columnCompare_swap column asc (deref (heap s) x) (deref (heap s) z)).
    assert (locCompare column asc s z x <= 0).
    { apply (T z y x); auto; unfold locCompare; lia. }
    unfold locCompare in *. lia.
Qed.

(** After a click on a column header the view holds the same rows as
    before, ordered by the cells of the column in the direction now set:
    no row stands before a row it is greater than.  The first page is
    shown.  (For a comparator that is transitive on the cells of the
    view.) *)
Theorem sortByColumn_sorted column s :
  transitiveOn column s ->
  let s1 := sortByColumn column s in
  Permutation (filteredVenues s1) (filteredVenues s)
  /\ (forall x y, before (filteredVenues s1) x y ->
        locCompare column (sortDirection s1) s1 x y <= 0)
  /\ currentPage s1 = 1.
Proof.
  intros T s1.
  destruct (sortByColumn_view column s) as (V & H & C & D).
  fold s1 in V, H, C, D. split; [|split].
  - rewrite V. apply sort_perm.
  - intros x y B. rewrite V in B. rewrite D.
    set (d := if sameColumn (sortColumn s) column
              then flip (sortDirection s) else asc) in *.
    pose proof (sorted_before _ _ x y
                  (sort_sorted (locCompare column d s) (filteredVenues s)
                     (locCompare_consistent column d s T)) B) as LE.
    cbv beta in LE. unfold locCompare in *. now rewrite H.
  - subst s1. unfold sortByColumn, updateTable.
    apply currentPage_calculatePagination_first. reflexivity.
Qed.

(** The ordered view at an input: the three records by capacity. *)
Lemma sortByColumn_sorted_witness :
  currentPage (sortByColumn "Cap" threeRows) = 1.
Proof.
  assert (T : transitiveOn "Cap" threeRows).
  { apply transitiveOn_numeric. intros l I. simpl in I.
    repeat match goal with
           | H : _ \/ _ |- _ => destruct H as [<-|H]
           | H : False |- _ => destruct H
           end; reflexivity. }
  exact (proj2 (proj2 (sortByColumn_sorted "Cap" threeRows T))).
Defined.

(** With a sort column set, [applyFilters] leaves the view ordered by
    that column in the direction set, whatever it filters.  (For a
    comparator that is transitive on the cells of the store.) *)
Theorem applyFilters_sorted searchInput column s :
  activeSortColumn s = Some column ->
  transitiveOnStore column s ->
  let s1 := applyFilters searchInput s in
  sortColumn s1 = sortColumn s
  /\ sortDirection s1 = sortDirection s
  /\ forall x y, before (filteredVenues s1) x y ->
       locCompare column (sortDirection s) s x y <= 0.
Proof.
  intros A T s1. subst s1. unfold applyFilters, applyCurrentSort, updateTable.
  match goal with
  | |- context [set_filteredVenues ?fv s] =>
      assert (I : forall l, In l fv -> In l (venues s));
      [ destruct (_ && _); [auto|]; intros l J; now apply filter_In in J
      | revert I; generalize fv ]
  end.
  intros fv I.
  change (activeSortColumn (set_currentPage 1 (set_filteredVenues fv s)))
    with (activeSortColumn s).
  rewrite A.
  match goal with
  | |- context [calculatePagination ?t] =>
      destruct (calculatePagination_keeps t)
        as (_ & _ & -> & _ & -> & -> & _)
  end.
  split; [reflexivity|]. split; [reflexivity|].
  intros x y B. simpl in B.
  assert (C : consistentOn (locCompare column (sortDirection s) s) fv).
  { apply locCompare_consistent_on. intros a b c Ia Ib Ic. apply T; auto. }
  exact (sorted_before _ _ x y (sort_sorted _ fv C) B).
Qed.

(** The filtered and ordered view at an input: the three records, sorted
    by capacity, searched for the letter o. *)
Lemma applyFilters_sorted_witness :
  filteredVenues (applyFilters "o" (set_sort (Some "Cap") desc threeRows))
  = [0; 2]%nat.
Proof.
  assert (T : transitiveOnStore "Cap" (set_sort (Some "Cap") desc threeRows)).
  { intros x y z Ix Iy Iz.
    apply (transitiveOn_numeric "Cap" threeRows); auto.
    intros l I. simpl in I.
    repeat match goal with
           | H : _ \/ _ |- _ => destruct H as [<-|H]
           | H : False |- _ => destruct H
           end; reflexivity. }
  pose proof (applyFilters_sorted "o" "Cap"
                (set_sort (Some "Cap") desc threeRows) eq_refl T) as H.
  reflexivity.
Defined.

Lemma applyFilters_keeps searchInput s :
  heap (applyFilters searchInput s) = heap s
  /\ venues (applyFilters searchInput s) = venues s
  /\ headers (applyFilters searchInput s) = headers s
  /\ history (applyFilters searchInput s) = history s.
Proof.
  unfold applyFilters, applyCurrentSort, updateTable.
  match goal with
  | |- context [set_filteredVenues ?fv s] => generalize fv
  end.
  intros fv.
  destruct (activeSortColumn (set_currentPage 1 (set_filteredVenues fv s)));
    match goal with
    | |- context [calculatePagination ?t] =>
        destruct (calculatePagination_keeps t)
          as (-> & -> & _ & -> & _ & _ & _ & ->)
    end; repeat split.
Qed.

(** Sorting, filtering, turning the page and changing the page size
    only rearrange what is shown: the records of the store, their
    objects, the headers and the history stay as they are. *)
Theorem view_operations_keep_store h m s :
  viewOnly m = true ->
  heap (handle h m s) = heap s
  /\ venues (handle h m s) = venues s
  /\ records (handle h m s) = records s
  /\ headers (handle h m s) = headers s
  /\ history (handle h m s) = history s.
Proof.
  intros V.
  assert (G : heap (handle h m s) = heap s
              /\ venues (handle h m s) = venues s
              /\ headers (handle h m s) = headers s
              /\ history (handle h m s) = history s).
  { destruct m; try discriminate; simpl.
    - unfold sortByColumn, updateTable.
      match goal with
      | |- context [calculatePagination ?t] =>
          destruct (calculatePagination_keeps t)
            as (-> & -> & _ & -> & _ & _ & _ & ->)
      end.
      destruct (sameColumn (sortColumn s) column); repeat split.
    - apply applyFilters_keeps.
    - unfold applyFilterModal.
      match goal with
      | |- context [applyFilters searchInput ?t] =>
          destruct (applyFilters_keeps searchInput t) as (-> & -> & -> & ->)
      end.
      repeat destruct (String.eqb filterType _); repeat split.
    - unfold goToPage. destruct (_ && _); [|repeat split].
      unfold updateTable.
      match goal with
      | |- context [calculatePagination ?t] =>
          destruct (calculatePagination_keeps t)
            as (-> & -> & _ & -> & _ & _ & _ & ->)
      end. repeat split.
    - unfold changePageSize, updateTable.
      match goal with
      | |- context [calculatePagination ?t] =>
          destruct (calculatePagination_keeps t)
            as (-> & -> & _ & -> & _ & _ & _ & ->)
      end. repeat split. }
  destruct G as (G1 & G2 & G3 & G4). unfold records.
  rewrite G1, G2. auto.
Qed.

(** The store under a view operation, at an input: a sort. *)
Lemma view_operations_keep_store_witness :
  records (handle sampleHost (MSortByColumn "Cap") threeRows) = records threeRows.
Proof.
  exact (proj1 (proj2 (proj2
    (view_operations_keep_store sampleHost (MSortByColumn "Cap") threeRows eq_refl)))).
Defined.

(** ** Pages *)

Lemma chunks_concat {A} (P n : nat) (l : list A) :
  (0 < P)%nat -> (length l <= n * P)%nat ->
  concat (map (fun i => firstn P (skipn (i * P) l)) (seq 0 n)) = l.
Proof.
  intros HP. revert l. induction n as [|n IH]; intros l L.
  - simpl in *. destruct l; [reflexivity | simpl in L; lia].
  - rewrite <- cons_seq, <- seq_shift, map_cons, map_map. cbn [concat].
    change (0 * P)%nat with 0%nat. cbn [skipn].
    transitivity (firstn P l ++ skipn P l); [|apply firstn_skipn].
    f_equal. etransitivity; [|apply (IH (skipn P l))].
    + f_equal. apply map_ext. intros i. f_equal.
      rewrite skipn_skipn. f_equal. simpl. lia.
    + rewrite length_skipn. simpl in L. lia.
Qed.

Lemma ceilDiv_covers n p : 0 < p -> n <= ceilDiv n p * p.
Proof.
  intros P. unfold ceilDiv. pose proof (Z.mul_div_le (- n) p P). lia.
Qed.

Lemma ceilDiv_tight n p : 0 < p -> (ceilDiv n p - 1) * p < n.
Proof.
  intros P. unfold ceilDiv. pose proof (Z.mul_succ_div_gt (- n) p P). lia.
Qed.

Lemma ceilDiv_nonneg n p : 0 < p -> 0 <= n -> 0 <= ceilDiv n p.
Proof.
  intros P N. unfold ceilDiv.
  assert (- n / p <= 0) by (apply Z.div_le_upper_bound; lia). lia.
Qed.

(** The pages of the view, from page 1 to the last, put one after the
    other give the view: every row is on exactly one page, in the order
    of the view. *)
Theorem pages_partition s :
  0 < pageSize s ->
  let s' := calculatePagination s in
  concat (map (fun p => currentPageData (set_currentPage (Z.of_nat p) s'))
            (seq 1 (Z.to_nat (totalPages s'))))
  = filteredVenues s'.
Proof.
  intros P s'.
  assert (F : filteredVenues s' = filteredVenues s) by apply calculatePagination_keeps.
  assert (S : pageSize s' = pageSize s) by apply calculatePagination_keeps.
  assert (T : totalPages s'
              = ceilDiv (Z.of_nat (length (filteredVenues s))) (pageSize s))
    by apply totalPages_calculatePagination.
  rewrite <- seq_shift, map_map.
  etransitivity;
    [|apply (chunks_concat (Z.to_nat (pageSize s)) (Z.to_nat (totalPages s'))
               (filteredVenues s'))].
  - f_equal. apply map_ext. intros i. unfold currentPageData.
    cbn [currentPage pageSize filteredVenues set_currentPage]. rewrite S.
    f_equal. f_equal. rewrite Nat2Z.inj_succ.
    replace (Z.succ (Z.of_nat i) - 1) with (Z.of_nat i) by lia.
    rewrite Z2Nat.inj_mul, Nat2Z.id by lia. reflexivity.
  - lia.
  - rewrite F, T.
    pose proof (ceilDiv_covers (Z.of_nat (length (filteredVenues s))) (pageSize s) P).
    pose proof (ceilDiv_nonneg (Z.of_nat (length (filteredVenues s))) (pageSize s) P
                  ltac:(lia)).
    apply Nat2Z.inj_le. rewrite Nat2Z.inj_mul, !Z2Nat.id by lia. lia.
Qed.

(** The pages at an input: eleven rows, five to a page. *)
Lemma pages_partition_witness :
  map (fun p => length (currentPageData (set_currentPage (Z.of_nat p) elevenRows)))
    [1; 2; 3]%nat
  = [5; 5; 1]%nat.
Proof.
  pose proof (pages_partition elevenRows ltac:(reflexivity)) as H.
  reflexivity.
Defined.

(** After the pagination is recomputed the page on display holds at most
    a page size of rows, all of them rows of the view, and it is empty
    only when the view is: a page left without rows (by deleting its
    last row, by a filter) is not shown. *)
Theorem currentPageData_not_empty s :
  pageInv s ->
  let s' := calculatePagination s in
  Z.of_nat (length (currentPageData s')) <= pageSize s'
  /\ (forall l, In l (currentPageData s') -> In l (filteredVenues s'))
  /\ (filteredVenues s' <> [] -> currentPageData s' <> []).
Proof.
  intros I s'.
  pose proof (calculatePagination_in_range s I) as R. cbv zeta in R. fold s' in R.
  assert (F : filteredVenues s' = filteredVenues s) by apply calculatePagination_keeps.
  assert (S : pageSize s' = pageSize s) by apply calculatePagination_keeps.
  destruct I as (P & C).
  unfold currentPageData. split; [|split].
  - rewrite length_firstn. lia.
  - intros l J.
    rewrite <- (firstn_skipn (Z.to_nat ((currentPage s' - 1) * pageSize s'))
                  (filteredVenues s')).
    apply in_or_app. right.
    rewrite <- (firstn_skipn (Z.to_nat (pageSize s'))
                  (skipn (Z.to_nat ((currentPage s' - 1) * pageSize s'))
                     (filteredVenues s'))).
    apply in_or_app. now left.
  - intros NE.
    assert (N1 : 1 <= Z.of_nat (length (filteredVenues s'))).
    { destruct (filteredVenues s'); [congruence | simpl; lia]. }
    pose proof (ceilDiv_tight (Z.of_nat (length (filteredVenues s'))) (pageSize s')
                  ltac:(lia)) as TI.
    pose proof (ceilDiv_pos (Z.of_nat (length (filteredVenues s'))) (pageSize s')
                  ltac:(lia) N1) as CP.
    assert (K : (Z.to_nat ((currentPage s' - 1) * pageSize s')
                 < length (filteredVenues s'))%nat).
    { apply Nat2Z.inj_lt. rewrite Z2Nat.id by nia. nia. }
    destruct (skipn _ (filteredVenues s')) as [|x r] eqn:E.
    + apply (f_equal (@length _)) in E. rewrite length_skipn in E. simpl in E. lia.
    + destruct (Z.to_nat (pageSize s')) eqn:Q; [lia|]. simpl. discriminate.
Qed.

(** The page on display at an input: page 3 of the eleven rows after its
    only row is deleted. *)
Lemma currentPageData_not_empty_witness :
  let s := set_filteredVenues (seq 0 10) (set_currentPage 3 elevenRows) in
  length (currentPageData (calculatePagination s)) = 5%nat.
Proof.
  cbv zeta.
  pose proof (currentPageData_not_empty
                (set_filteredVenues (seq 0 10) (set_currentPage 3 elevenRows))) as H.
  cbv zeta in H. destruct H as (_ & _ & H); [unfold pageInv; simpl; lia|].
  reflexivity.
Defined.

(** ** Location search *)

Lemma relevance_consistent searchLower l :
  consistentOn (GeoData.relevance searchLower) l.
Proof.
  split.
  - intros x y. unfold GeoData.relevance.
    destruct (JsString.startsWith (JsString.toLowerCase (fst x)) searchLower),
             (JsString.startsWith (JsString.toLowerCase (fst y)) searchLower);
      simpl; lia.
  - intros x y z _ _ _. unfold GeoData.relevance.
    destruct (JsString.startsWith (JsString.toLowerCase (fst x)) searchLower),
             (JsString.startsWith (JsString.toLowerCase (fst y)) searchLower),
             (JsString.startsWith (JsString.toLowerCase (fst z)) searchLower);
      simpl; lia.
Qed.

Lemma before_firstn {A} n (l : list A) x y :
  before (firstn n l) x y -> before l x y.
Proof.
  intros (l1 & l2 & l3 & E). exists l1, l2, (l3 ++ skipn n l).
  rewrite <- (firstn_skipn n l) at 1. rewrite E.
  repeat (rewrite <- app_assoc; simpl). reflexivity.
Qed.

Lemma before_across {A} (l1 l2 : list A) x y :
  In x l1 -> In y l2 -> before (l1 ++ l2) x y.
Proof.
  intros Ix Iy. apply in_split in Ix as (a & b & ->).
  apply in_split in Iy as (c & d & ->).
  exists a, (b ++ c), d. repeat (rewrite <- app_assoc; simpl). reflexivity.
Qed.

(** [fuzzyLocationSearch] returns at most eight entries of the index.
    Each has a comma in its key and contains the search term, case
    ignored.  They are ordered: keys that start with the term come
    first, shorter keys before longer ones.  A matching entry that is
    left out is left out because eight entries that rank no lower were
    found. *)
Theorem fuzzyLocationSearch_results geoData searchTerm :
  let searchLower := JsString.toLowerCase searchTerm in
  let isMatch := fun e : string * GeoData.coordinates =>
    JsString.includes (fst e) ","
    && JsString.includes (JsString.toLowerCase (fst e)) searchLower in
  let found := GeoData.fuzzyLocationSearch geoData searchTerm in
  (length found <= 8)%nat
  /\ (forall e, In e found -> In e geoData /\ isMatch e = true)
  /\ (forall x y, before found x y -> GeoData.relevance searchLower x y <= 0)
  /\ (forall e, In e geoData -> isMatch e = true ->
        In e found
        \/ (length found = 8%nat
            /\ forall x, In x found -> GeoData.relevance searchLower x e <= 0)).
Proof.
  intros searchLower isMatch found.
  unfold GeoData.fuzzyLocationSearch in found. fold searchLower in found.
  fold isMatch in found.
  set (sorted := JsArray.sort (GeoData.relevance searchLower) (filter isMatch geoData))
    in *.
  assert (SS : StronglySorted (fun a b => GeoData.relevance searchLower a b <= 0) sorted).
  { apply sort_sorted, relevance_consistent. }
  assert (IS : forall e, In e sorted <-> In e geoData /\ isMatch e = true).
  { intros e. subst sorted. rewrite in_sort_iff. apply filter_In. }
  split; [|split; [|split]].
  - subst found. rewrite length_firstn. lia.
  - intros e I. apply IS. subst found.
    rewrite <- (firstn_skipn 8 sorted). apply in_or_app. now left.
  - intros x y B. subst found. apply before_firstn in B.
    exact (sorted_before _ _ x y SS B).
  - intros e I M.
    assert (J : In e sorted) by now apply IS.
    rewrite <- (firstn_skipn 8 sorted) in J. apply in_app_or in J as [J|J];
      [now left|right].
    split.
    + subst found. rewrite length_firstn.
      assert (length (skipn 8 sorted) <> 0)%nat
        by (destruct (skipn 8 sorted); [destruct J | discriminate]).
      rewrite length_skipn in *. lia.
    + intros x X. subst found.
      pose proof (before_across _ _ x e X J) as B.
      rewrite firstn_skipn in B.
      exact (sorted_before _ _ x e SS B).
Qed.

(** ** Loading the location table *)

Lemma lookup_assignKey_eq key v (geoData : Geo.index GeoData.coordinates) :
  Geo.lookup key (GeoData.assignKey key v geoData) = Some v.
Proof.
  induction geoData as [|[k v'] r IH]; simpl.
  - now rewrite String.eqb_refl.
  - destruct (String.eqb k key) eqn:E; simpl; rewrite E; auto.
Qed.

Lemma lookup_assignKey_neq key k v (geoData : Geo.index GeoData.coordinates) :
  k <> key ->
  Geo.lookup k (GeoData.assignKey key v geoData) = Geo.lookup k geoData.
Proof.
  intros N. induction geoData as [|[k0 v0] r IH]; simpl.
  - destruct (String.eqb key k) eqn:E; auto.
    apply String.eqb_eq in E. congruence.
  - destruct (String.eqb k0 key) eqn:E; simpl.
    + apply String.eqb_eq in E. subst k0.
      destruct (String.eqb key k) eqn:E'; auto.
      apply String.eqb_eq in E'. congruence.
    + now rewrite IH.
Qed.

Lemma lookup_assignKey_some key k v (geoData : Geo.index GeoData.coordinates) :
  Geo.lookup k geoData <> None ->
  Geo.lookup k (GeoData.assignKey key v geoData) <> None.
Proof.
  intros H. destruct (string_dec k key) as [->|N].
  - rewrite lookup_assignKey_eq. discriminate.
  - now rewrite lookup_assignKey_neq.
Qed.

Lemma loadLine_keeps_keys geoData l k :
  Geo.lookup k geoData <> None ->
  Geo.lookup k (GeoData.loadLine geoData l) <> None.
Proof.
  intros H. unfold GeoData.loadLine.
  destruct (String.eqb _ _); auto.
  destruct (_ <? _)%nat; auto.
  destruct (_ && _); auto.
  apply lookup_assignKey_some.
  destruct (_ && _); auto. now apply lookup_assignKey_some.
Qed.

Lemma loadLines_keep_keys lines geoData k :
  Geo.lookup k geoData <> None ->
  Geo.lookup k (fold_left GeoData.loadLine lines geoData) <> None.
Proof.
  revert geoData. induction lines as [|l lines IH]; intros geoData H; simpl; auto.
  apply IH. now apply loadLine_keeps_keys.
Qed.

Lemma geocodeLocation_raw_key {coord} (geoData : Geo.index coord) location :
  location <> EmptyString ->
  Geo.lookup location geoData <> None ->
  Geo.geocodeLocation geoData location <> None.
Proof.
  intros NE H. unfold Geo.geocodeLocation.
  apply String.eqb_neq in NE. rewrite NE.
  destruct (Geo.lookup (Geo.expandCityAbbreviations
                          (Geo.expandStateAbbreviations location)) geoData);
    [discriminate|].
  destruct (Geo.lookup (Geo.expandStateAbbreviations location) geoData);
    [discriminate|].
  destruct (Geo.lookup location geoData); [discriminate|]. congruence.
Qed.

(** Every line of the location table after the heading that has at
    least five comma-separated fields and coordinates that parse makes
    its place name a key of the index; when its country is US and its
    state is not empty, the key "name, state" is in the index as well and
    [geocodeLocation] resolves it.  Later lines never remove a key. *)
Theorem loadGeoData_resolves geoString line :
  In line (tl (JsString.split newline geoString)) ->
  let values := JsString.split ","%char (JsString.trim line) in
  let country := nth 0 values EmptyString in
  let state := nth 1 values EmptyString in
  let name := nth 2 values EmptyString in
  (5 <= length values)%nat ->
  JsNumber.parseFloat (nth 3 values EmptyString) <> JsNumber.NaN ->
  JsNumber.parseFloat (nth 4 values EmptyString) <> JsNumber.NaN ->
  Geo.lookup name (GeoData.loadGeoData geoString) <> None
  /\ (country = "US" -> state <> EmptyString ->
      Geo.lookup (String.append name (String.append ", " state))
        (GeoData.loadGeoData geoString) <> None
      /\ Geo.geocodeLocation (GeoData.loadGeoData geoString)
           (String.append name (String.append ", " state)) <> None).
Proof.
  intros I values country state name L LA LN.
  unfold GeoData.loadGeoData.
  apply in_split in I as (before_ & after & ->).
  rewrite fold_left_app. simpl.
  set (g0 := fold_left GeoData.loadLine before_ []).
  assert (NB : String.eqb (JsString.trim line) EmptyString = false).
  { apply String.eqb_neq. intros E. subst values. rewrite E in L. simpl in L. lia. }
  assert (E : GeoData.loadLine g0 line =
    GeoData.assignKey name
      (JsNumber.parseFloat (nth 3 values EmptyString),
       JsNumber.parseFloat (nth 4 values EmptyString))
      (if String.eqb country "US" && negb (String.eqb state EmptyString)
       then GeoData.assignKey (String.append name (String.append ", " state))
              (JsNumber.parseFloat (nth 3 values EmptyString),
               JsNumber.parseFloat (nth 4 values EmptyString)) g0
       else g0)).
  { unfold GeoData.loadLine. rewrite NB. fold values.
    assert (LT : (length values <? 5)%nat = false) by (apply Nat.ltb_ge; lia).
    rewrite LT. fold country state name.
    destruct (JsNumber.parseFloat (nth 3 values EmptyString)); try congruence;
      destruct (JsNumber.parseFloat (nth 4 values EmptyString)); try congruence;
      reflexivity. }
  split.
  - apply loadLines_keep_keys. rewrite E, lookup_assignKey_eq. discriminate.
  - intros C S.
    assert (K : Geo.lookup (String.append name (String.append ", " state))
                  (fold_left GeoData.loadLine after (GeoData.loadLine g0 line))
                <> None).
    { apply loadLines_keep_keys. rewrite E.
      apply lookup_assignKey_some.
      rewrite C. apply String.eqb_neq in S. rewrite S. simpl.
      rewrite lookup_assignKey_eq. discriminate. }
    split; [exact K|].
    apply geocodeLocation_raw_key; [|exact K].
    destruct name; discriminate.
Qed.

(** The location table at an input: a heading and one line. *)
Lemma loadGeoData_resolves_witness :
  let geoString :=
    String.append "country,state,name,lat,lng"
      (String newline "US,Missouri,Saint Louis,38.627,-90.1994") in
  Geo.geocodeLocation (GeoData.loadGeoData geoString) "Saint Louis, Missouri"
  <> None.
Proof.
  cbv zeta.
  pose proof (loadGeoData_resolves
    (String.append "country,state,name,lat,lng"
       (String newline "US,Missouri,Saint Louis,38.627,-90.1994"))
    "US,Missouri,Saint Louis,38.627,-90.1994") as H.
  cbv zeta in H. destruct H as (_ & H).
  - simpl. now left.
  - vm_compute. lia.
  - vm_compute. discriminate.
  - vm_compute. discriminate.
  - apply H; [reflexivity | discriminate].
Defined.

(** ** The board and the pipeline *)

Lemma venues_resortLastUpdated h s : venues (resortLastUpdated h s) = venues s.
Proof.
  unfold resortLastUpdated, updateTable.
  destruct (sameColumn _ _);
    match goal with
    | |- context [calculatePagination ?t] =>
        destruct (calculatePagination_keeps t) as (_ & -> & _)
    end; reflexivity.
Qed.

Lemma In_populateKanbanColumn c s l :
  In l (populateKanbanColumn c s)
  <-> In l (venues s)
      /\ kanbanColumn (propOr (deref (heap s) l) "Status") = Some c.
Proof.
  unfold populateKanbanColumn. rewrite filter_In.
  destruct (kanbanColumn _) as [c'|]; [|intuition discriminate].
  destruct c, c'; intuition (discriminate || congruence).
Qed.

Lemma kanbanColumn_nextStage status c :
  kanbanColumn status = Some c ->
  nextStage status <> EmptyString
  /\ kanbanColumn (nextStage status) = Some (stageAfter c).
Proof.
  unfold kanbanColumn, nextStage.
  destruct (JsString.includes status "CANVAS");
    [intros [= <-]; split; [discriminate|reflexivity]|].
  destruct (JsString.includes status "FOLLOW-UP");
    [intros [= <-]; split; [discriminate|reflexivity]|].
  destruct (JsString.includes status "BOOKED");
    [intros [= <-]; split; [discriminate|reflexivity]|].
  destruct (JsString.includes status "BOOK-AGAIN");
    [intros [= <-]; split; [discriminate|reflexivity]|].
  discriminate.
Qed.

Lemma heap_moveToNextStage_other h l s l' :
  l' <> l ->
  deref (heap (moveToNextStage h l s)) l' = deref (heap s) l'.
Proof.
  intros N. unfold moveToNextStage. destruct (String.eqb _ _); [reflexivity|].
  rewrite heap_resortLastUpdated. cbn [addHistoryEntry set_history heap].
  rewrite heap_update. unfold deref. apply nth_assign_neq. congruence.
Qed.

(** The board follows the pipeline: a card that stands in a column is,
    after [moveToNextStage], in the next column round the board and in no
    other, and the style of its status is that of the new column; every
    other card stays in its column.  The column a card stands in is the
    stage [moveToNextStage] reads. *)
Theorem moveToNextStage_moves_card h l s c :
  In l (populateKanbanColumn c s) ->
  let s' := moveToNextStage h l s in
  In l (populateKanbanColumn (stageAfter c) s')
  /\ (forall c', In l (populateKanbanColumn c' s') -> c' = stageAfter c)
  /\ (forall l' c', l' <> l ->
        (In l' (populateKanbanColumn c' s') <-> In l' (populateKanbanColumn c' s)))
  /\ getStatusClass (propOr (deref (heap s') l) "Status")
     = match stageAfter c with
       | Canvas => "status-canvas"
       | FollowUp => "status-follow-up"
       | Booked => "status-booked"
       | BookAgain => "status-book-again"
       end.
Proof.
  intros I s'. apply In_populateKanbanColumn in I as (IV & K).
  assert (L : (l < length (heap s))%nat).
  { destruct (Nat.lt_ge_cases l (length (heap s))) as [L|L]; auto.
    rewrite deref_outside in K by assumption. discriminate. }
  destruct (kanbanColumn_nextStage _ _ K) as (NE & KN).
  destruct (moveToNextStage_status h l s L) as (S1 & _). fold s' in S1.
  apply String.eqb_neq in NE. rewrite NE in S1.
  assert (V : venues s' = venues s).
  { subst s'. unfold moveToNextStage. rewrite NE.
    now rewrite venues_resortLastUpdated. }
  split; [|split; [|split]].
  - apply In_populateKanbanColumn. rewrite V, S1. auto.
  - intros c' J. apply In_populateKanbanColumn in J as (_ & J).
    rewrite S1, KN in J. congruence.
  - intros l' c' N. rewrite !In_populateKanbanColumn, V.
    subst s'. now rewrite heap_moveToNextStage_other.
  - rewrite S1. revert K. unfold kanbanColumn, nextStage.
    destruct (JsString.includes _ "CANVAS"); [intros [= <-]; reflexivity|].
    destruct (JsString.includes _ "FOLLOW-UP"); [intros [= <-]; reflexivity|].
    destruct (JsString.includes _ "BOOKED"); [intros [= <-]; reflexivity|].
    destruct (JsString.includes _ "BOOK-AGAIN"); [intros [= <-]; reflexivity|].
    discriminate.
Qed.

(** The board at an input: a card in the column CANVAS. *)
Lemma moveToNextStage_moves_card_witness :
  let s := set_venues [O] (set_heap [[("Venue", "Loft"); ("Status", "CANVAS")]] initial) in
  populateKanbanColumn FollowUp (moveToNextStage sampleHost O s) = [O].
Proof.
  cbv zeta.
  pose proof (moveToNextStage_moves_card sampleHost O
    (set_venues [O] (set_heap [[("Venue", "Loft"); ("Status", "CANVAS")]] initial))
    Canvas) as H.
  cbv zeta in H. destruct H as (H & _); [simpl; now left|].
  reflexivity.
Defined.

(** ** Reaching a record from the board and from the history *)

Lemma findIndex_Some x arr i :
  JsArray.findIndex x arr = Some i -> nth_error arr i = Some x.
Proof.
  revert i. induction arr as [|y ys IH]; intros i; simpl; [discriminate|].
  destruct (Nat.eqb y x) eqn:E.
  - intros [= <-]. apply Nat.eqb_eq in E. now subst.
  - destruct (JsArray.findIndex x ys) as [j|]; [|discriminate].
    intros [= <-]. simpl. now apply IH.
Qed.

Lemma findIndex_In x arr :
  In x arr -> exists i, JsArray.findIndex x arr = Some i.
Proof.
  induction arr as [|y ys IH]; simpl; [tauto|].
  intros I. destruct (Nat.eqb y x) eqn:E; [now exists O|].
  destruct I as [->|I]; [now rewrite Nat.eqb_refl in E|].
  destruct (IH I) as (i & ->). now exists (S i).
Qed.

Lemma findIndex_None x arr : JsArray.findIndex x arr = None -> ~ In x arr.
Proof.
  intros N I. apply findIndex_In in I as (i & E). congruence.
Qed.

Lemma showInView_spec l s :
  In l (venues s) ->
  exists index,
    snd (showInView l s) = Some index
    /\ nth_error (filteredVenues (fst (showInView l s))) index = Some l
    /\ heap (fst (showInView l s)) = heap s
    /\ venues (fst (showInView l s)) = venues s
    /\ headers (fst (showInView l s)) = headers s
    /\ history (fst (showInView l s)) = history s
    /\ (In l (filteredVenues s) -> fst (showInView l s) = s)
    /\ (~ In l (filteredVenues s) ->
        filteredVenues (fst (showInView l s)) = venues s).
Proof.
  intros I. unfold showInView.
  destruct (JsArray.findIndex l (filteredVenues s)) as [i|] eqn:F.
  - exists i. simpl. repeat split; auto using findIndex_Some.
    intros N. exfalso. apply N.
    apply findIndex_Some, nth_error_In in F. exact F.
  - unfold updateTable.
    destruct (calculatePagination_keeps
                (set_currentPage 1 (set_filteredVenues (venues s) s)))
      as (H1 & H2 & H3 & H4 & _ & _ & _ & H5).
    cbn [fst snd]. rewrite H1, H2, H3, H4, H5. simpl.
    destruct (findIndex_In l (venues s) I) as (i & E). rewrite E.
    exists i. repeat split; auto using findIndex_Some.
    intros J. apply findIndex_None in F. tauto.
Qed.

(** A click on the edit button of a history entry opens the dialog on
    the first record of the store that has the identity of the entry: the
    row being edited is that record and the dialog shows its cells.  When
    the view does not hold the record, the view is reset to the whole
    store, filters set aside.  When no record has the identity (the venue
    was deleted or renamed) nothing is opened and nothing changes.  The
    store is never changed. *)
Theorem editVenueFromHistory_opens h venueId s :
  let s' := fst (editVenueFromHistory h venueId s) in
  (forall l, findByVenueId venueId s = Some l ->
     getVenueId (deref (heap s) l) = venueId
     /\ 0 <= currentEditIndex s'
     /\ nth_error (filteredVenues s') (Z.to_nat (currentEditIndex s')) = Some l
     /\ snd (editVenueFromHistory h venueId s)
        = Some (dialogInputs h s' (deref (heap s') l))
     /\ (~ In l (filteredVenues s) -> filteredVenues s' = venues s))
  /\ (findByVenueId venueId s = None ->
      (forall l, In l (venues s) -> getVenueId (deref (heap s) l) <> venueId)
      /\ editVenueFromHistory h venueId s = (s, None))
  /\ heap s' = heap s /\ venues s' = venues s /\ history s' = history s.
Proof.
  intros s'. subst s'. unfold editVenueFromHistory, findByVenueId.
  destruct (find _ (venues s)) as [l|] eqn:F.
  - apply find_some in F as (I & E). apply String.eqb_eq in E.
    destruct (showInView_spec l s I)
      as (index & S1 & S2 & S3 & S4 & S5 & S6 & S7 & S8).
    unfold editKanbanVenue.
    destruct (showInView l s) as (s1 & r). simpl in *. subst r.
    unfold editRow. cbn [filteredVenues set_currentEditIndex]. rewrite S2.
    cbn [fst snd currentEditIndex filteredVenues heap venues history
         set_currentEditIndex].
    split; [|split; [intros [=]|auto]].
    intros l0 [= <-]. rewrite Nat2Z.id.
    repeat split; auto. lia.
  - split; [intros l [=]|]. split; [|auto].
    intros _. split; [|reflexivity].
    intros l I E. apply (find_none _ _ F) in I.
    apply String.eqb_neq in I. congruence.
Qed.

Lemma length_splice1 {A} i (l : list A) :
  (i < length l)%nat -> S (length (JsArray.splice1 i l)) = length l.
Proof.
  intros L. unfold JsArray.splice1.
  rewrite length_app, length_firstn, length_skipn. lia.
Qed.

(** A confirmed click on the delete button of a card of the board takes
    the record of the card out of the store, at the place where the store
    holds it, and logs one Delete entry with the identity of the record;
    the other records keep their order. *)
Theorem deleteKanbanVenue_removes h l s :
  In l (venues s) ->
  exists s' i e,
    deleteKanbanVenue h true l s = Some s'
    /\ JsArray.findIndex l (venues s) = Some i
    /\ venues s' = JsArray.splice1 i (venues s)
    /\ S (length (venues s')) = length (venues s)
    /\ history s' = e :: history s
    /\ action e = Delete
    /\ venueId e = getVenueId (deref (heap s) l)
    /\ heap s' = heap s.
Proof.
  intros I.
  destruct (showInView_spec l s I)
    as (index & S1 & S2 & S3 & S4 & S5 & S6 & _).
  destruct (findIndex_In l (venues s) I) as (i & F).
  unfold deleteKanbanVenue.
  destruct (showInView l s) as (s1 & r). simpl in *. subst r.
  unfold deleteRow. simpl negb. cbv iota. rewrite S2, S4, F.
  eexists. exists i. eexists. split; [reflexivity|].
  unfold updateTable.
  match goal with
  | |- context [calculatePagination ?t] =>
      destruct (calculatePagination_keeps t)
        as (-> & -> & _ & _ & _ & _ & _ & ->)
  end.
  cbn [venues history heap set_filteredVenues set_venues addHistoryEntry
       set_history action venueId].
  rewrite S3, S4, S6. repeat split; auto.
  apply length_splice1. apply findIndex_Some in F.
  assert (N : @nth_error nat (venues s) i <> None) by (rewrite F; discriminate).
  apply nth_error_Some in N. exact N.
Qed.

(** Deleting a card at an input: the first of two imported rows. *)
Lemma deleteKanbanVenue_removes_witness :
  exists s',
    deleteKanbanVenue sampleHost true O
      (snd (importData importHost twoEqualRows initial)) = Some s'
    /\ S (length (venues s'))
       = length (venues (snd (importData importHost twoEqualRows initial))).
Proof.
  destruct (deleteKanbanVenue_removes sampleHost O
              (snd (importData importHost twoEqualRows initial)))
    as (s' & i & e & E & _ & _ & L & _).
  { vm_compute. left. reflexivity. }
  exists s'. split; assumption.
Defined.

(** ** Abbreviations in a location *)

Lemma prefix_empty s : String.prefix EmptyString s = true.
Proof. destruct s; reflexivity. Qed.

Lemma includes_comma_cons c s :
  JsString.includes (String c s) "," = false ->
  c <> ","%char /\ JsString.includes s "," = false.
Proof.
  cbn [JsString.includes String.prefix]. intros H.
  apply orb_false_iff in H. destruct H as (H1 & H2). split; auto.
  intros ->. destruct (ascii_dec "," ","); [|congruence].
  rewrite prefix_empty in H1. discriminate.
Qed.

Lemma includes_comma_app a b :
  JsString.includes a "," = false -> JsString.includes b "," = false ->
  JsString.includes (a ++ b) "," = false.
Proof.
  intros A B. induction a as [|c a IH]; [exact B|].
  apply includes_comma_cons in A. destruct A as (N & A).
  change (String c a ++ b)%string with (String c (a ++ b)).
  cbn [JsString.includes String.prefix].
  destruct (ascii_dec "," c); [congruence|]. simpl. auto.
Qed.

(** A text without comma holds no occurrence of a pattern that starts
    with one. *)
Lemma includes_comma_pattern s p :
  JsString.includes s "," = false ->
  JsString.includes s (String "," p) = false.
Proof.
  induction s as [|c s IH]; intros H; [reflexivity|].
  apply includes_comma_cons in H. destruct H as (N & H).
  cbn [JsString.includes String.prefix].
  destruct (ascii_dec "," c); [congruence|]. simpl. auto.
Qed.

(** In front of a text, a part without comma is skipped by the search
    for such a pattern and by the replacement. *)
Lemma includes_skip_prefix s r p :
  JsString.includes s "," = false ->
  JsString.includes (s ++ r) (String "," p) = JsString.includes r (String "," p).
Proof.
  induction s as [|c s IH]; intros H; [reflexivity|].
  apply includes_comma_cons in H. destruct H as (N & H).
  change (String c s ++ r)%string with (String c (s ++ r)).
  cbn [JsString.includes String.prefix].
  destruct (ascii_dec "," c); [congruence|]. simpl. auto.
Qed.

Lemma replaceFirst_skip_prefix s r p rep :
  JsString.includes s "," = false ->
  JsString.replaceFirst (s ++ r) (String "," p) rep
  = (s ++ JsString.replaceFirst r (String "," p) rep)%string.
Proof.
  induction s as [|c s IH]; intros H; [reflexivity|].
  apply includes_comma_cons in H. destruct H as (N & H).
  change (String c s ++ r)%string with (String c (s ++ r)).
  cbn [JsString.replaceFirst String.prefix].
  destruct (ascii_dec "," c); [congruence|].
  rewrite IH by assumption. reflexivity.
Qed.

Lemma prefix_two a b r :
  String.length a = 2%nat -> String.length b = 2%nat ->
  String.prefix a (b ++ r) = String.eqb a b.
Proof.
  destruct a as [|a1 [|a2 [|]]]; try discriminate.
  destruct b as [|b1 [|b2 [|]]]; try discriminate. intros _ _.
  cbn [String.append String.prefix String.eqb].
  destruct (ascii_dec a1 b1) as [->|N1].
  - rewrite Ascii.eqb_refl. destruct (ascii_dec a2 b2) as [->|N2].
    + rewrite Ascii.eqb_refl. apply prefix_empty.
    + apply Ascii.eqb_neq in N2. rewrite N2. reflexivity.
  - apply Ascii.eqb_neq in N1. rewrite N1. reflexivity.
Qed.

Lemma prefix_after_comma p x :
  String.prefix (", " ++ p) (", " ++ x) = String.prefix p x.
Proof.
  cbn [String.append String.prefix].
  destruct (ascii_dec "," ","); [|congruence].
  destruct (ascii_dec " " " "); [|congruence]. reflexivity.
Qed.

Lemma includes_after_comma x p :
  JsString.includes x "," = false ->
  JsString.includes (", " ++ x) (", " ++ p) = String.prefix p x.
Proof.
  intros H.
  change (JsString.includes (", " ++ x) (", " ++ p))
    with (String.prefix (", " ++ p) (", " ++ x)
          || JsString.includes (" " ++ x) (", " ++ p)).
  rewrite prefix_after_comma.
  change (", " ++ p)%string with (String "," (" " ++ p)).
  rewrite includes_comma_pattern; [apply orb_false_r|].
  apply includes_comma_app; [reflexivity|assumption].
Qed.

Lemma replaceFirst_after_comma x p rep :
  String.prefix p x = true ->
  JsString.replaceFirst (", " ++ x) (", " ++ p) rep
  = (rep ++ JsString.drop (String.length p) x)%string.
Proof.
  intros H.
  change (JsString.replaceFirst (", " ++ x) (", " ++ p) rep)
    with (if String.prefix (", " ++ p) (", " ++ x)
          then (rep ++ JsString.drop (String.length (", " ++ p)) (", " ++ x))%string
          else String "," (JsString.replaceFirst (" " ++ x) (", " ++ p) rep)).
  rewrite prefix_after_comma, H. reflexivity.
Qed.

Lemma drop_app a r : JsString.drop (String.length a) (a ++ r) = r.
Proof. induction a as [|c a IH]; [destruct r; reflexivity|exact IH]. Qed.

Lemma append_assoc (a b c : string) : ((a ++ b) ++ c = a ++ (b ++ c))%string.
Proof. induction a as [|x a IH]; [reflexivity|simpl; now rewrite IH]. Qed.

Lemma expandStateFrom_hit table city abbr fullName rest :
  stateKeysOk table = true -> NoDup (map fst table) ->
  In (abbr, fullName) table ->
  JsString.includes city "," = false ->
  JsString.includes rest "," = false ->
  Geo.expandStateFrom table (city ++ ", " ++ abbr ++ rest)
  = (city ++ ", " ++ fullName ++ rest)%string.
Proof.
  intros K D I C R. induction table as [|(a, f) table IH]; [destruct I|].
  cbn [stateKeysOk forallb fst] in K.
  apply andb_true_iff in K. destruct K as (Ka & K).
  apply andb_true_iff in Ka. destruct Ka as (La & Ca).
  apply Nat.eqb_eq in La. apply negb_true_iff in Ca.
  assert (Labbr : String.length abbr = 2%nat
                  /\ JsString.includes abbr "," = false).
  { destruct I as [E|I].
    - inversion E; subst. auto.
    - unfold stateKeysOk in K. rewrite forallb_forall in K.
      specialize (K _ I). cbn [fst] in K.
      apply andb_true_iff in K. destruct K as (L1 & L2).
      apply Nat.eqb_eq in L1. apply negb_true_iff in L2. auto. }
  destruct Labbr as (Lb & Cb).
  assert (X : JsString.includes (abbr ++ rest) "," = false)
    by (apply includes_comma_app; assumption).
  cbn [Geo.expandStateFrom].
  change (", " ++ a)%string with (String "," (" " ++ a)).
  rewrite includes_skip_prefix, replaceFirst_skip_prefix by assumption.
  change (String "," (" " ++ a)) with (", " ++ a)%string.
  rewrite (includes_after_comma (abbr ++ rest) a X).
  rewrite (prefix_two a abbr rest La Lb).
  destruct (String.eqb a abbr) eqn:E.
  - apply String.eqb_eq in E. subst a.
    assert (f = fullName) as ->.
    { destruct I as [E|I]; [congruence|].
      inversion D; subst. exfalso. apply H1.
      apply (in_map fst) in I. exact I. }
    rewrite replaceFirst_after_comma
      by (rewrite prefix_two by assumption; apply String.eqb_refl).
    rewrite drop_app. rewrite append_assoc. reflexivity.
  - apply IH; auto.
    + inversion D; auto.
    + destruct I as [E'|I]; [|exact I].
      inversion E'; subst. rewrite String.eqb_refl in E. discriminate.
Qed.

Lemma expandStateFrom_no_comma table s :
  JsString.includes s "," = false -> Geo.expandStateFrom table s = s.
Proof.
  intros H. induction table as [|(a, f) table IH]; [reflexivity|].
  cbn [Geo.expandStateFrom].
  change (", " ++ a)%string with (String "," (" " ++ a)).
  rewrite includes_comma_pattern by assumption. exact IH.
Qed.

(** A two-letter state code after the first comma of a location is
    written out in full, whatever follows it up to the next comma; a
    location without comma is left as it is. *)
Theorem expandStateAbbreviations_code city rest :
  JsString.includes city "," = false ->
  JsString.includes rest "," = false ->
  Geo.expandStateAbbreviations city = city
  /\ forall abbr fullName,
       In (abbr, fullName) Geo.stateAbbreviations ->
       Geo.expandStateAbbreviations (city ++ ", " ++ abbr ++ rest)
       = (city ++ ", " ++ fullName ++ rest)%string.
Proof.
  intros C R. split.
  - apply expandStateFrom_no_comma; assumption.
  - intros abbr fullName I.
    apply expandStateFrom_hit; [reflexivity| |assumption..].
    unfold Geo.stateAbbreviations. cbn [map fst].
    repeat (constructor; [cbn [In]; intuition discriminate|]).
    constructor.
Qed.

Lemma expandStateAbbreviations_code_witness :
  Geo.expandStateAbbreviations "Austin, TX" = "Austin, Texas".
Proof.
  refine (proj2 (expandStateAbbreviations_code "Austin" EmptyString
                   eq_refl eq_refl) "TX" "Texas" _).
  unfold Geo.stateAbbreviations. repeat (first [left; reflexivity | right]).
Defined.

Lemma prefix_app_true p q x :
  String.prefix (p ++ q) x = true -> String.prefix p x = true.
Proof.
  revert x. induction p as [|a p IH]; intros x H; [apply prefix_empty|].
  destruct x as [|b x]; [discriminate|].
  cbn [String.append String.prefix] in *.
  destruct (ascii_dec a b); [auto|discriminate].
Qed.

Lemma includes_longer s p q :
  JsString.includes s p = false -> JsString.includes s (p ++ q) = false.
Proof.
  induction s as [|c s IH]; intros H.
  - cbn [JsString.includes] in *. apply orb_false_iff in H.
    destruct H as (H & _). rewrite orb_false_r.
    destruct (String.prefix (p ++ q) "") eqn:E; [|reflexivity].
    apply prefix_app_true in E. congruence.
  - cbn [JsString.includes] in *. apply orb_false_iff in H.
    destruct H as (H1 & H2). rewrite (IH H2), orb_false_r.
    destruct (String.prefix (p ++ q) (String c s)) eqn:E; [|reflexivity].
    apply prefix_app_true in E. congruence.
Qed.

Lemma includes_prefix s p :
  String.prefix p s = true -> JsString.includes s p = true.
Proof. intros H. destruct s; cbn [JsString.includes]; rewrite H; reflexivity. Qed.

Lemma matchAt_two c1 c2 re s r :
  JsString.matchAt (JsString.PLit c1 :: JsString.PLit c2 :: re) s = Some r ->
  String.prefix (String c1 (String c2 EmptyString)) s = true.
Proof.
  destruct s as [|a [|b s]]; cbn [JsString.matchAt JsString.pcharMatches].
  - discriminate.
  - destruct (Ascii.eqb a c1); discriminate.
  - destruct (Ascii.eqb a c1) eqn:E1; [|discriminate].
    destruct (Ascii.eqb b c2) eqn:E2; [|discriminate]. intros _.
    apply Ascii.eqb_eq in E1. apply Ascii.eqb_eq in E2. subst.
    cbn [String.prefix].
    destruct (ascii_dec c1 c1); [|congruence].
    destruct (ascii_dec c2 c2); [|congruence]. apply prefix_empty.
Qed.

(** A global replacement changes nothing in a text that does not hold the
    two literal characters its pattern starts with. *)
Lemma regexReplaceFrom_absent fuel c1 c2 re rep s :
  JsString.includes s (String c1 (String c2 EmptyString)) = false ->
  JsString.regexReplaceFrom fuel
    (JsString.PLit c1 :: JsString.PLit c2 :: re) rep s = s.
Proof.
  revert s. induction fuel as [|fuel IH]; intros s H; [reflexivity|].
  destruct s as [|c s]; [reflexivity|].
  cbn [JsString.regexReplaceFrom].
  cbn [JsString.includes] in H. apply orb_false_iff in H.
  destruct H as (H1 & H2).
  destruct (JsString.matchAt _ (String c s)) eqn:M.
  - apply matchAt_two in M. congruence.
  - rewrite (IH s H2). reflexivity.
Qed.

Lemma expandCityAbbreviations_fold location :
  Geo.expandCityAbbreviations location
  = fold_left expandCityStep Geo.cityAbbreviations location.
Proof. reflexivity. Qed.

Lemma expandCity_absent table s :
  Forall (fun e => exists q, fst e = ("St" ++ q)%string) table ->
  JsString.includes s "St" = false ->
  fold_left expandCityStep table s = s.
Proof.
  intros F H. induction F as [|(abbr, fullName) table (q & E) F IH];
    [reflexivity|].
  cbn [fold_left fst expandCityStep] in *. subst abbr.
  rewrite (includes_longer s "St" q H). exact IH.
Qed.

Lemma cityKeys_St :
  Forall (fun e : string * string => exists q, fst e = ("St" ++ q)%string)
    Geo.cityAbbreviations.
Proof.
  unfold Geo.cityAbbreviations.
  repeat (constructor; [eexists; reflexivity|]). constructor.
Qed.

Lemma includes_Saint x :
  JsString.includes x "St" = false ->
  JsString.includes ("Saint" ++ x) "St" = false.
Proof.
  intros H.
  cbn [String.append JsString.includes String.prefix].
  repeat match goal with
  | |- context [ascii_dec ?a ?b] =>
      destruct (ascii_dec a b); try discriminate
  end.
  all: cbn [orb]; exact H.
Qed.

Lemma includes_space x :
  JsString.includes x "St" = false ->
  JsString.includes (" " ++ x) "St" = false.
Proof.
  intros H.
  cbn [String.append JsString.includes String.prefix].
  destruct (ascii_dec "S" " "); [discriminate|exact H].
Qed.

Lemma regexReplaceFrom_hit fuel re rep c s r :
  JsString.matchAt re (String c s) = Some r ->
  JsString.regexReplaceFrom (S fuel) re rep (String c s)
  = (rep ++ JsString.regexReplaceFrom fuel re rep r)%string.
Proof. intros M. cbn [JsString.regexReplaceFrom]. rewrite M. reflexivity. Qed.

Lemma expandCityStep_hit abbr fullName c1 c2 re s r x :
  JsString.regexOfSource abbr = JsString.PLit c1 :: JsString.PLit c2 :: re ->
  String.prefix abbr (String x s) = true ->
  JsString.matchAt (JsString.regexOfSource abbr) (String x s) = Some r ->
  JsString.includes r (String c1 (String c2 EmptyString)) = false ->
  expandCityStep (String x s) (abbr, fullName) = (fullName ++ r)%string.
Proof.
  intros R P M H. unfold expandCityStep.
  rewrite (includes_prefix _ _ P). unfold JsString.regexReplaceAll.
  rewrite R in *.
  rewrite (regexReplaceFrom_hit _ _ _ _ _ _ M).
  rewrite regexReplaceFrom_absent by assumption. reflexivity.
Qed.

(** A location that holds no "St" is left as it is by the expansion of
    city abbreviations; in front of such a text, "St." becomes "Saint"
    and "St " becomes "Saint ". *)
Theorem expandCityAbbreviations_saint rest :
  JsString.includes rest "St" = false ->
  Geo.expandCityAbbreviations rest = rest
  /\ Geo.expandCityAbbreviations ("St." ++ rest) = ("Saint" ++ rest)%string
  /\ Geo.expandCityAbbreviations ("St " ++ rest) = ("Saint " ++ rest)%string.
Proof.
  intros H. pose proof cityKeys_St as K.
  split; [|split]; rewrite expandCityAbbreviations_fold;
    unfold Geo.cityAbbreviations in *.
  - apply expandCity_absent; assumption.
  - cbn [fold_left].
    change ("St." ++ rest)%string with (String "S" ("t." ++ rest)).
    rewrite (expandCityStep_hit "St." "Saint" "S" "t" [JsString.PAny]
               ("t." ++ rest) rest "S");
      [|reflexivity|cbn; rewrite prefix_empty; reflexivity
       |destruct rest; reflexivity|assumption].
    inversion K as [|? ? _ K1]; subst.
    refine (expandCity_absent _ _ K1 _). apply includes_Saint, H.
  - cbn [fold_left].
    assert (E : expandCityStep ("St " ++ rest) ("St.", "Saint")
                = ("St " ++ rest)%string).
    { unfold expandCityStep.
      replace (JsString.includes ("St " ++ rest) "St.") with false;
        [reflexivity|].
      symmetry. cbn [String.append JsString.includes String.prefix].
      repeat match goal with
      | |- context [ascii_dec ?a ?b] =>
          destruct (ascii_dec a b); try discriminate
      end.
      all: cbn [orb]; apply (includes_longer rest "St" "." H). }
    rewrite E.
    change ("St " ++ rest)%string with (String "S" ("t " ++ rest)).
    rewrite (expandCityStep_hit "St " "Saint " "S" "t"
               [JsString.PLit " "%char] ("t " ++ rest) rest "S");
      [|reflexivity|cbn; rewrite prefix_empty; reflexivity
       |destruct rest; reflexivity|assumption].
    inversion K as [|? ? _ K1]; subst. inversion K1 as [|? ? _ K2]; subst.
    refine (expandCity_absent _ _ K2 _).
    change ("Saint " ++ rest)%string with ("Saint" ++ (" " ++ rest))%string.
    apply includes_Saint, includes_space, H.
Qed.

Lemma expandCityAbbreviations_saint_witness :
  Geo.expandCityAbbreviations "St. Louis, Missouri" = "Saint Louis, Missouri".
Proof.
  exact (proj1 (proj2 (expandCityAbbreviations_saint " Louis, Missouri"
                         eq_refl))).
Defined.

(** ** The history table *)

Lemma ceilDiv_zero p : ceilDiv 0 p = 0.
Proof. destruct p; reflexivity. Qed.

Lemma filteredHistory_update hist v :
  filteredHistory (updateHistoryTable hist v) hist = filteredHistory v hist.
Proof. reflexivity. Qed.

Lemma historyView_eta v :
  v = mkHistoryView (historySearchFilter v) (historyCurrentPage v)
        (historyPageSize v) (historyTotalPages v).
Proof. destruct v; reflexivity. Qed.

Lemma page_not_empty {A} (l : list A) (start size : Z) :
  0 < size -> 0 <= start -> start < Z.of_nat (length l) ->
  firstn (Z.to_nat size) (skipn (Z.to_nat start) l) <> [].
Proof.
  intros P S L E. apply (f_equal (@length A)) in E.
  rewrite length_firstn, length_skipn in E. simpl in E. lia.
Qed.

(** Redrawing the history table leaves it on a page from 1 on.  When
    entries pass the search the page is one of the pages and shows at
    least one entry; when none does there are zero pages and the page is
    1.  Redrawing again changes nothing. *)
Theorem updateHistoryTable_page hist v :
  0 < historyPageSize v -> 1 <= historyCurrentPage v ->
  let v1 := updateHistoryTable hist v in
  1 <= historyCurrentPage v1
  /\ (filteredHistory v hist = [] ->
      historyTotalPages v1 = 0 /\ historyCurrentPage v1 = 1
      /\ historyPageData hist v = [])
  /\ (filteredHistory v hist <> [] ->
      historyCurrentPage v1 <= historyTotalPages v1
      /\ historyPageData hist v <> [])
  /\ updateHistoryTable hist v1 = v1.
Proof.
  intros P C v1.
  assert (T : historyTotalPages v1
              = ceilDiv (Z.of_nat (length (filteredHistory v hist)))
                  (historyPageSize v)) by reflexivity.
  assert (S : historyPageSize v1 = historyPageSize v) by reflexivity.
  assert (K : historyCurrentPage v1
              = if historyTotalPages v1 <? historyCurrentPage v
                then Z.max 1 (historyTotalPages v1)
                else historyCurrentPage v) by reflexivity.
  assert (U : updateHistoryTable hist v1
              = mkHistoryView (historySearchFilter v1)
                  (if historyTotalPages v1 <? historyCurrentPage v1
                   then Z.max 1 (historyTotalPages v1)
                   else historyCurrentPage v1)
                  (historyPageSize v1) (historyTotalPages v1)) by reflexivity.
  assert (D : historyPageData hist v
              = firstn (Z.to_nat (historyPageSize v1))
                  (skipn (Z.to_nat ((historyCurrentPage v1 - 1)
                                    * historyPageSize v1))
                     (filteredHistory v hist))) by reflexivity.
  destruct (filteredHistory v hist) as [|e l] eqn:F.
  - rewrite ceilDiv_zero in T.
    assert (K1 : historyCurrentPage v1 = 1).
    { rewrite K, T. destruct (0 <? historyCurrentPage v) eqn:E;
        [reflexivity|apply Z.ltb_ge in E; lia]. }
    repeat split; try congruence; try lia.
    + rewrite D. rewrite skipn_nil. apply firstn_nil.
    + rewrite U. etransitivity; [|symmetry; apply historyView_eta].
      f_equal. rewrite K1, T. reflexivity.
  - assert (N : 1 <= Z.of_nat (length (e :: l))) by (simpl; lia).
    pose proof (ceilDiv_pos _ _ P N) as T1. rewrite <- T in T1.
    pose proof (ceilDiv_tight (Z.of_nat (length (e :: l))) _ P) as T2.
    rewrite <- T in T2.
    assert (K1 : 1 <= historyCurrentPage v1 <= historyTotalPages v1).
    { rewrite K. destruct (historyTotalPages v1 <? historyCurrentPage v) eqn:E.
      - lia.
      - apply Z.ltb_ge in E. lia. }
    repeat split; try lia; try discriminate.
    + rewrite D. apply page_not_empty; rewrite ?S; try lia; try nia.
    + rewrite U.
      destruct (historyTotalPages v1 <? historyCurrentPage v1) eqn:E;
        [apply Z.ltb_lt in E; lia|].
      symmetry; apply historyView_eta.
Qed.

Lemma updateHistoryTable_page_witness :
  historyCurrentPage (updateHistoryTable [] initialHistoryView) = 1
  /\ historyTotalPages (updateHistoryTable [] initialHistoryView) = 0.
Proof.
  destruct (updateHistoryTable_page [] initialHistoryView)
    as (_ & E & _); [reflexivity|simpl; lia|].
  destruct (E eq_refl) as (E1 & E2 & _). split; assumption.
Defined.

Lemma lowerChar_idem c :
  JsString.lowerChar (JsString.lowerChar c) = JsString.lowerChar c.
Proof. destruct c as [[] [] [] [] [] [] [] []]; reflexivity. Qed.

Lemma toLowerCase_idem s :
  JsString.toLowerCase (JsString.toLowerCase s) = JsString.toLowerCase s.
Proof.
  induction s as [|c s IH]; [reflexivity|].
  cbn [JsString.toLowerCase]. now rewrite lowerChar_idem, IH.
Qed.

Lemma updateHistoryTable_first hist v :
  historyCurrentPage v = 1 ->
  historyCurrentPage (updateHistoryTable hist v) = 1.
Proof.
  intros E. unfold updateHistoryTable. cbn [historyCurrentPage]. rewrite E.
  match goal with |- (if ?t <? 1 then _ else _) = _ =>
    destruct (t <? 1) eqn:L; [apply Z.ltb_lt in L; lia|reflexivity] end.
Qed.

(** A search in the history starts again from the first page.  The
    entries drawn are entries of the log; with a search text, each holds
    the text in lower case in its venue name, city, state, action or
    changes, so that the case of the text typed plays no part. *)
Theorem applyHistoryFilters_page searchInput hist v :
  let v1 := applyHistoryFilters searchInput hist v in
  historyCurrentPage v1 = 1
  /\ historyPageData hist v1
     = firstn (Z.to_nat (historyPageSize v)) (filteredHistory v1 hist)
  /\ (forall e, In e (filteredHistory v1 hist) ->
        In e hist
        /\ (searchInput = EmptyString
            \/ historyMatches (JsString.toLowerCase searchInput) e = true))
  /\ v1 = applyHistoryFilters (JsString.toLowerCase searchInput) hist v.
Proof.
  intros v1.
  assert (C : historyCurrentPage v1 = 1)
    by (apply updateHistoryTable_first; reflexivity).
  split; [exact C|]. split; [|split].
  - unfold historyPageData.
    rewrite (updateHistoryTable_first hist v1 C). reflexivity.
  - intros e. unfold filteredHistory.
    change (historySearchFilter v1) with (JsString.toLowerCase searchInput).
    rewrite toLowerCase_idem.
    destruct (String.eqb (JsString.toLowerCase searchInput) EmptyString) eqn:E.
    + apply String.eqb_eq in E. apply -> toLowerCase_empty in E.
      intros I. split; [exact I|left; exact E].
    + intros I. apply filter_In in I. destruct I as (I1 & I2). auto.
  - unfold v1, applyHistoryFilters. rewrite toLowerCase_idem. reflexivity.
Qed.

(** After a redraw of the history table, a page button for a page from 1
    to the number of pages shows that page, which is not empty; any
    other request leaves the table as it is.  Clearing the history
    empties the log and leaves the table on page 1 of zero pages (the 1
    that [clearHistory] writes to the number of pages is overwritten by
    the redraw). *)
Theorem goToHistoryPage_shows page hist s v :
  0 < historyPageSize v ->
  let v0 := updateHistoryTable hist v in
  let v1 := goToHistoryPage page hist v0 in
  (1 <= page <= historyTotalPages v0 ->
   historyCurrentPage v1 = page
   /\ historyTotalPages v1 = historyTotalPages v0
   /\ historyPageData hist v1 <> [])
  /\ (~ 1 <= page <= historyTotalPages v0 -> v1 = v0)
  /\ history (fst (clearHistory s v)) = []
  /\ historyCurrentPage (snd (clearHistory s v)) = 1
  /\ historyTotalPages (snd (clearHistory s v)) = 0.
Proof.
  intros P v0 v1.
  set (n := Z.of_nat (length (filteredHistory v hist))).
  assert (T0 : historyTotalPages v0 = ceilDiv n (historyPageSize v))
    by reflexivity.
  split; [|split; [|split; [|split]]].
  - intros R.
    assert (C1 : historyCurrentPage v1 = page
                 /\ historyTotalPages v1 = historyTotalPages v0).
    { unfold v1, goToHistoryPage.
      destruct ((1 <=? page) && (page <=? historyTotalPages v0)
                && negb (page =? historyCurrentPage v0)) eqn:G.
      - unfold updateHistoryTable at 1 2.
        cbn [historyCurrentPage historyTotalPages historyPageSize
             historySearchFilter filteredHistory].
        change (filteredHistory
                  (mkHistoryView (historySearchFilter v0) page
                     (historyPageSize v0) (historyTotalPages v0)) hist)
          with (filteredHistory v hist).
        change (historyPageSize v0) with (historyPageSize v).
        fold n. rewrite <- T0.
        destruct (historyTotalPages v0 <? page) eqn:L;
          [apply Z.ltb_lt in L; lia|]. split; reflexivity.
      - split; [|reflexivity].
        destruct (1 <=? page) eqn:A; [|apply Z.leb_gt in A; lia].
        destruct (page <=? historyTotalPages v0) eqn:B;
          [|apply Z.leb_gt in B; lia].
        cbn [andb] in G. apply negb_false_iff, Z.eqb_eq in G. now symmetry. }
    destruct C1 as (C1 & C2). split; [exact C1|]. split; [exact C2|].
    assert (F1 : filteredHistory v1 hist = filteredHistory v hist).
    { unfold v1, goToHistoryPage. destruct (_ && _); reflexivity. }
    assert (S1 : historyPageSize v1 = historyPageSize v).
    { unfold v1, goToHistoryPage. destruct (_ && _); reflexivity. }
    assert (N : 1 <= n).
    { destruct (Z.eq_dec n 0) as [Z0|NZ]; [|unfold n in *; lia].
      rewrite Z0, ceilDiv_zero in T0. lia. }
    pose proof (ceilDiv_tight n _ P) as T2. rewrite <- T0 in T2.
    assert (D : historyPageData hist v1
                = firstn (Z.to_nat (historyPageSize v))
                    (skipn (Z.to_nat ((page - 1) * historyPageSize v))
                       (filteredHistory v hist))).
    { unfold historyPageData, updateHistoryTable.
      cbn [historyCurrentPage historyTotalPages historyPageSize
           historySearchFilter].
      change (filteredHistory
                (mkHistoryView (historySearchFilter v1)
                   (if ceilDiv (Z.of_nat (length (filteredHistory v1 hist)))
                         (historyPageSize v1) <? historyCurrentPage v1
                    then Z.max 1
                           (ceilDiv
                              (Z.of_nat (length (filteredHistory v1 hist)))
                              (historyPageSize v1))
                    else historyCurrentPage v1)
                   (historyPageSize v1)
                   (ceilDiv (Z.of_nat (length (filteredHistory v1 hist)))
                      (historyPageSize v1))) hist)
        with (filteredHistory v1 hist).
      rewrite F1, S1, C1. fold n. rewrite <- T0.
      destruct (historyTotalPages v0 <? page) eqn:L;
        [apply Z.ltb_lt in L; lia|]. reflexivity. }
    rewrite D. apply page_not_empty; fold n; try lia; nia.
  - intros R. unfold v1, goToHistoryPage.
    destruct (1 <=? page) eqn:A; [|reflexivity].
    destruct (page <=? historyTotalPages v0) eqn:B; [|reflexivity].
    apply Z.leb_le in A. apply Z.leb_le in B. lia.
  - reflexivity.
  - unfold clearHistory. cbn [snd]. apply updateHistoryTable_first. reflexivity.
  - unfold clearHistory, updateHistoryTable, filteredHistory.
    cbn [snd historyTotalPages historySearchFilter].
    destruct (String.eqb (historySearchFilter v) EmptyString);
      apply ceilDiv_zero.
Qed.

Lemma goToHistoryPage_shows_witness :
  historyCurrentPage (snd (clearHistory oneRecord initialHistoryView)) = 1.
Proof.
  destruct (goToHistoryPage_shows 1 [] oneRecord initialHistoryView)
    as (_ & _ & _ & E & _); [reflexivity|exact E].
Defined.

(** ** A row edited twice *)

Lemma fst_editRow h index s :
  fst (editRow h index s) = set_currentEditIndex (Z.of_nat index) s.
Proof.
  unfold editRow.
  destruct (nth_error (filteredVenues (set_currentEditIndex (Z.of_nat index) s)) index);
    reflexivity.
Qed.

Lemma findIndex_absent x arr : ~ In x arr -> JsArray.findIndex x arr = None.
Proof.
  intros N. destruct (JsArray.findIndex x arr) as [i|] eqn:E; [|reflexivity].
  apply findIndex_Some in E. apply nth_error_In in E. contradiction.
Qed.

Lemma assign_not_in (xs : list nat) i x y :
  NoDup xs -> nth_error xs i = Some x -> y <> x ->
  ~ In x (JsArray.assign i y xs).
Proof.
  intros D. revert i. induction D as [|a xs N D IH]; intros i E Y.
  - destruct i; discriminate.
  - destruct i as [|i]; simpl in *.
    + injection E as ->. intros [H|H]; [congruence|contradiction].
    + intros [H|H].
      * subst a. apply nth_error_In in E. contradiction.
      * exact (IH i E Y H).
Qed.

Lemma filteredVenues_resortLastUpdated h s x :
  In x (filteredVenues (resortLastUpdated h s)) <-> In x (filteredVenues s).
Proof.
  unfold resortLastUpdated, updateTable.
  destruct (sameColumn _ _);
    match goal with
    | |- context [calculatePagination ?t] =>
        destruct (calculatePagination_keeps t) as (_ & _ & -> & _)
    end; [|reflexivity].
  unfold sortView. cbn [filteredVenues set_filteredVenues]. apply in_sort_iff.
Qed.

(** The edit path of [saveEdit] up to the copy into the store: the
    object of the row is the only one written. *)
Lemma saveEdit_edit_path h allInputs s l :
  0 <= currentEditIndex s ->
  nth_error (filteredVenues s) (Z.to_nat (currentEditIndex s)) = Some l ->
  exists s2,
    saveEdit h allInputs s
    = Some (set_tempNewVenue None (resortLastUpdated h (replaceInStore l s2)))
    /\ venues s2 = venues s /\ filteredVenues s2 = filteredVenues s
    /\ length (heap s2) = length (heap s)
    /\ (forall x, x <> l -> deref (heap s2) x = deref (heap s) x).
Proof.
  intros P E. unfold saveEdit.
  destruct (currentEditIndex s =? -1) eqn:E1; [apply Z.eqb_eq in E1; lia|].
  destruct (currentEditIndex s <? 0) eqn:E2; [apply Z.ltb_lt in E2; lia|].
  rewrite E. eexists. split; [reflexivity|].
  destruct (getChangesDescription _ _) as [[|c cs]|];
    cbn [venues filteredVenues heap update set_heap addHistoryEntry set_history];
    rewrite ?length_assign; repeat split; auto;
    intros x N; unfold deref; rewrite ?nth_assign_neq by congruence;
    reflexivity.
Qed.

Lemma replaceInStore_found l s i :
  JsArray.findIndex l (venues s) = Some i ->
  venues (replaceInStore l s) = JsArray.assign i (length (heap s)) (venues s)
  /\ heap (replaceInStore l s) = (heap s ++ [deref (heap s) l])%list
  /\ filteredVenues (replaceInStore l s) = filteredVenues s.
Proof. intros F. unfold replaceInStore. rewrite F. repeat split. Qed.

(** A row of the view is edited and saved.  The save puts a copy of the
    record into the store and leaves the object of the row in the view.
    Until the view is built anew, saving that row again writes to the
    object of the view only, and deleting it takes it out of the view
    only: in both cases no record of the store changes. *)
Theorem saveEdit_then_same_row h h2 allInputs allInputs2 index l s :
  nth_error (filteredVenues s) index = Some l ->
  In l (venues s) -> NoDup (venues s) -> (l < length (heap s))%nat ->
  exists s1,
    saveEdit h allInputs (fst (editRow h index s)) = Some s1
    /\ ~ In l (venues s1)
    /\ (exists index2, nth_error (filteredVenues s1) index2 = Some l)
    /\ forall index2,
         nth_error (filteredVenues s1) index2 = Some l ->
         (exists s2,
            saveEdit h2 allInputs2 (fst (editRow h2 index2 s1)) = Some s2
            /\ records s2 = records s1)
         /\ (exists s3,
               deleteRow h2 true index2 s1 = Some s3
               /\ records s3 = records s1
               /\ S (length (filteredVenues s3)) = length (filteredVenues s1)).
Proof.
  intros E I D L. rewrite fst_editRow.
  destruct (saveEdit_edit_path h allInputs
              (set_currentEditIndex (Z.of_nat index) s) l)
    as (t & S1 & V & F & Lh & _).
  { simpl. lia. }
  { simpl. rewrite Nat2Z.id. exact E. }
  cbn [venues filteredVenues heap set_currentEditIndex] in V, F, Lh.
  destruct (findIndex_In l (venues s) I) as (i & Fi).
  destruct (replaceInStore_found l t i) as (RV & RH & RF);
    [rewrite V; exact Fi|].
  set (s1 := set_tempNewVenue None (resortLastUpdated h (replaceInStore l t)))
    in *.
  assert (V1 : venues s1 = JsArray.assign i (length (heap s)) (venues s)).
  { unfold s1. cbn [venues set_tempNewVenue].
    rewrite venues_resortLastUpdated, RV, V, Lh. reflexivity. }
  assert (N : ~ In l (venues s1)).
  { rewrite V1.
    apply assign_not_in; [assumption|now apply findIndex_Some|lia]. }
  exists s1. split; [exact S1|]. split; [exact N|]. split.
  - apply In_nth_error. unfold s1. cbn [filteredVenues set_tempNewVenue].
    apply filteredVenues_resortLastUpdated.
    rewrite RF, F. eapply nth_error_In; eassumption.
  - intros index2 E2. split.
    2:{ unfold deleteRow. cbn [negb]. rewrite E2.
        rewrite (findIndex_absent l (venues s1) N).
        eexists. split; [reflexivity|]. unfold updateTable, records.
        match goal with
        | |- context [calculatePagination ?u] =>
            destruct (calculatePagination_keeps u)
              as (-> & -> & -> & _)
        end.
        cbn [venues heap filteredVenues set_filteredVenues addHistoryEntry
             set_history].
        split; [reflexivity|]. apply length_splice1.
        apply nth_error_Some. rewrite E2. discriminate. }
    rewrite fst_editRow.
    destruct (saveEdit_edit_path h2 allInputs2
                (set_currentEditIndex (Z.of_nat index2) s1) l)
      as (t2 & S2 & V2 & F2 & Lh2 & H2).
    { simpl. lia. }
    { cbn [currentEditIndex set_currentEditIndex].
      rewrite Nat2Z.id. exact E2. }
    change (venues (set_currentEditIndex (Z.of_nat index2) s1))
      with (venues s1) in V2.
    change (heap (set_currentEditIndex (Z.of_nat index2) s1))
      with (heap s1) in H2.
    eexists. split; [exact S2|].
    unfold replaceInStore.
    rewrite V2, (findIndex_absent l (venues s1) N).
    unfold records. cbn [venues heap set_tempNewVenue].
    rewrite venues_resortLastUpdated, heap_resortLastUpdated, V2.
    apply map_ext_in. intros x Ix. apply H2. intros ->. contradiction.
Qed.

Lemma saveEdit_then_same_row_witness :
  exists s1,
    saveEdit sampleHost []
      (fst (editRow sampleHost O (snd (importData importHost twoEqualRows initial))))
    = Some s1
    /\ ~ In O (venues s1).
Proof.
  destruct (saveEdit_then_same_row sampleHost sampleHost [] [] O O
              (snd (importData importHost twoEqualRows initial)))
    as (s1 & E & N & _).
  - reflexivity.
  - vm_compute. left. reflexivity.
  - vm_compute. repeat constructor; simpl; intuition discriminate.
  - vm_compute. lia.
  - exists s1. split; assumption.
Defined.

(** ** A record added through the dialog *)

Lemma assign_last {A} (a : list A) (x y : A) :
  JsArray.assign (length a) x (a ++ [y]) = (a ++ [x])%list.
Proof. induction a as [|z a IH]; simpl; [reflexivity|now rewrite IH]. Qed.

Lemma calculatePagination_filters s :
  statusFilters (calculatePagination s) = statusFilters s
  /\ regionFilters (calculatePagination s) = regionFilters s
  /\ typeFilters (calculatePagination s) = typeFilters s.
Proof. unfold calculatePagination. now destruct (_ <? _). Qed.

Lemma calculatePagination_on_last s :
  currentPage s = ceilDiv (Z.of_nat (length (filteredVenues s))) (pageSize s) ->
  currentPage (calculatePagination s) = currentPage s.
Proof.
  intros E. unfold calculatePagination.
  cbn [totalPages set_totalPages currentPage]. rewrite <- E.
  rewrite Z.ltb_irrefl. reflexivity.
Qed.

(** The last page holds the last row. *)
Lemma last_on_last_page {A} (xs : list A) (x : A) (p : Z) :
  0 < p ->
  let n := Z.of_nat (length (xs ++ [x])) in
  In x (firstn (Z.to_nat p)
          (skipn (Z.to_nat ((ceilDiv n p - 1) * p)) (xs ++ [x]))).
Proof.
  intros P n.
  assert (E : n = Z.of_nat (length xs) + 1)
    by (unfold n; rewrite length_app; simpl; lia).
  assert (N : 1 <= n) by lia.
  pose proof (ceilDiv_pos n p P N) as T1.
  pose proof (ceilDiv_tight n p P) as T2.
  pose proof (ceilDiv_covers n p P) as T3.
  set (c := ceilDiv n p) in *.
  assert (C0 : 0 <= (c - 1) * p) by nia.
  set (k := Z.to_nat ((c - 1) * p)).
  assert (Kz : Z.of_nat k = (c - 1) * p) by (unfold k; now rewrite Z2Nat.id).
  assert (K : (k <= length xs)%nat) by lia.
  rewrite skipn_app. replace (k - length xs)%nat with O by lia.
  cbn [skipn]. rewrite firstn_all2.
  - apply in_or_app. right. now left.
  - rewrite length_app, length_skipn. simpl. nia.
Qed.

Lemma resortLastUpdated_filters h s :
  statusFilters (resortLastUpdated h s) = statusFilters s
  /\ regionFilters (resortLastUpdated h s) = regionFilters s
  /\ typeFilters (resortLastUpdated h s) = typeFilters s.
Proof.
  unfold resortLastUpdated, updateTable.
  destruct (sameColumn _ _);
    match goal with
    | |- context [calculatePagination ?t] =>
        destruct (calculatePagination_filters t) as (-> & -> & ->)
    end; repeat split.
Qed.

Lemma resortLastUpdated_perm h s :
  Permutation (filteredVenues (resortLastUpdated h s)) (filteredVenues s).
Proof.
  unfold resortLastUpdated, updateTable.
  destruct (sameColumn _ _);
    match goal with
    | |- context [calculatePagination ?t] =>
        destruct (calculatePagination_keeps t) as (_ & _ & -> & _)
    end; [|reflexivity].
  unfold sortView. cbn [filteredVenues set_filteredVenues]. apply sort_perm.
Qed.

(** The add path of [saveEdit] up to the pagination. *)
Lemma saveEdit_add_path h allInputs s l :
  currentEditIndex s = -1 -> tempNewVenue s = Some l ->
  exists s4,
    saveEdit h allInputs s
    = Some (set_tempNewVenue None
              (resortLastUpdated h
                 (set_currentPage (totalPages (calculatePagination s4))
                    (calculatePagination s4))))
    /\ heap s4
       = JsArray.assign l (applyInputs allInputs (deref (heap s) l)) (heap s)
    /\ venues s4 = (venues s ++ [l])%list
    /\ filteredVenues s4 = (venues s ++ [l])%list
    /\ pageSize s4 = pageSize s /\ sortColumn s4 = sortColumn s
    /\ (statusFilters s4, regionFilters s4, typeFilters s4)
       = (statusFilters s, regionFilters s, typeFilters s).
Proof.
  intros E T. unfold saveEdit. rewrite E, T. cbn [Z.eqb Pos.eqb].
  eexists. split; [reflexivity|]. repeat split.
Qed.

(** A record added through the dialog goes to the end of the store with
    the values of the inputs.  The view becomes the whole store whatever
    the filters, which stay as they were; unless the table is sorted by
    Last Updated the view is in the order of the store, the table is on
    its last page and the new row is on it. *)
Theorem addNewRow_saveEdit h h2 allInputs s :
  0 < pageSize s ->
  let l := length (heap s) in
  exists s',
    saveEdit h2 allInputs (fst (addNewRow h s)) = Some s'
    /\ venues s' = (venues s ++ [l])%list
    /\ heap s' = (heap s ++ [applyInputs allInputs (blankVenue h s)])%list
    /\ (statusFilters s', regionFilters s', typeFilters s')
       = (statusFilters s, regionFilters s, typeFilters s)
    /\ Permutation (filteredVenues s') (venues s')
    /\ (sameColumn (sortColumn s) "Last Updated" = false ->
        filteredVenues s' = venues s'
        /\ currentPage s' = totalPages s'
        /\ In l (currentPageData s')).
Proof.
  intros P l.
  assert (A : fst (addNewRow h s)
              = set_tempNewVenue (Some l)
                  (set_currentEditIndex (-1)
                     (set_heap (heap s ++ [blankVenue h s]) s)))
    by reflexivity.
  rewrite A. clear A.
  destruct (saveEdit_add_path h2 allInputs
              (set_tempNewVenue (Some l)
                 (set_currentEditIndex (-1)
                    (set_heap (heap s ++ [blankVenue h s]) s))) l)
    as (s4 & S & H4 & V4 & F4 & P4 & C4 & X4); [reflexivity..|].
  cbn [heap venues pageSize sortColumn statusFilters regionFilters typeFilters
       set_tempNewVenue set_currentEditIndex set_heap] in H4, V4, F4, P4, C4, X4.
  assert (D : deref (heap s ++ [blankVenue h s]) l = blankVenue h s).
  { unfold deref, l. rewrite app_nth2, Nat.sub_diag by lia. reflexivity. }
  rewrite D in H4. unfold l in H4 at 1. rewrite assign_last in H4.
  set (c4 := calculatePagination s4) in *.
  set (s5 := set_currentPage (totalPages c4) c4) in *.
  destruct (calculatePagination_keeps s4)
    as (Kh & Kv & Kf & _ & Kc & _ & Kp & _). fold c4 in Kh, Kv, Kf, Kc, Kp.
  destruct (calculatePagination_filters s4) as (G1 & G2 & G3).
  fold c4 in G1, G2, G3.
  pose proof (totalPages_calculatePagination s4) as Kt. fold c4 in Kt.
  assert (V5 : venues s5 = (venues s ++ [l])%list)
    by (unfold s5; cbn [venues set_currentPage]; rewrite Kv; exact V4).
  assert (H5 : heap s5
               = (heap s ++ [applyInputs allInputs (blankVenue h s)])%list)
    by (unfold s5; cbn [heap set_currentPage]; rewrite Kh; exact H4).
  assert (F5 : filteredVenues s5 = (venues s ++ [l])%list)
    by (unfold s5; cbn [filteredVenues set_currentPage]; rewrite Kf; exact F4).
  assert (P5 : pageSize s5 = pageSize s)
    by (unfold s5; cbn [pageSize set_currentPage]; rewrite Kp; exact P4).
  assert (X5 : (statusFilters s5, regionFilters s5, typeFilters s5)
               = (statusFilters s, regionFilters s, typeFilters s)).
  { unfold s5. cbn [statusFilters regionFilters typeFilters set_currentPage].
    rewrite G1, G2, G3. exact X4. }
  eexists. split; [exact S|].
  cbn [venues heap filteredVenues statusFilters regionFilters typeFilters
       currentPage totalPages set_tempNewVenue].
  rewrite venues_resortLastUpdated, heap_resortLastUpdated.
  destruct (resortLastUpdated_filters h2 s5) as (-> & -> & ->).
  split; [exact V5|]. split; [exact H5|]. split; [exact X5|]. split.
  - rewrite resortLastUpdated_perm, F5, V5. reflexivity.
  - intros L.
    assert (R : resortLastUpdated h2 s5 = calculatePagination s5).
    { unfold resortLastUpdated, updateTable.
      replace (sortColumn s5) with (sortColumn s)
        by (unfold s5; cbn [sortColumn set_currentPage]; rewrite Kc; symmetry; exact C4).
      rewrite L. reflexivity. }
    rewrite R.
    destruct (calculatePagination_keeps s5)
      as (_ & _ & Kf5 & _ & _ & _ & Kp5 & _).
    assert (T5 : currentPage s5
                 = ceilDiv (Z.of_nat (length (filteredVenues s5))) (pageSize s5)).
    { rewrite F5, P5. unfold s5. cbn [currentPage set_currentPage].
      rewrite Kt, F4, P4. reflexivity. }
    pose proof (calculatePagination_on_last s5 T5) as C5.
    pose proof (totalPages_calculatePagination s5) as Tt.
    split; [rewrite Kf5, V5; exact F5|]. split; [congruence|].
    unfold currentPageData. cbn [currentPage pageSize filteredVenues set_tempNewVenue].
    rewrite Kf5, Kp5, C5, T5, F5, P5.
    apply last_on_last_page. exact P.
Qed.

Lemma addNewRow_saveEdit_witness :
  exists s',
    saveEdit sampleHost [] (fst (addNewRow sampleHost initial)) = Some s'
    /\ venues s' = [O].
Proof.
  destruct (addNewRow_saveEdit sampleHost sampleHost [] initial)
    as (s' & E & V & _); [reflexivity|].
  exists s'. split; assumption.
Defined.

(** ** The header line of an export *)

Lemma append_empty_r (a : string) : (a ++ EmptyString)%string = a.
Proof. induction a as [|x a IH]; [reflexivity|simpl; now rewrite IH]. Qed.

(** A text without the separator is one piece. *)
Lemma split_none sep s : hasChar sep s = false -> JsString.split sep s = [s].
Proof.
  unfold hasChar. induction s as [|c s IH]; [reflexivity|].
  cbn [list_ascii_of_string existsb JsString.split]. intros H.
  apply orb_false_iff in H. destruct H as (H1 & H2).
  rewrite Ascii.eqb_sym, H1, (IH H2). reflexivity.
Qed.

Lemma split_app sep a b :
  hasChar sep a = false ->
  JsString.split sep (a ++ String sep b) = a :: JsString.split sep b.
Proof.
  unfold hasChar. induction a as [|c a IH].
  - intros _. cbn [String.append JsString.split]. now rewrite Ascii.eqb_refl.
  - cbn [list_ascii_of_string existsb String.append JsString.split]. intros H.
    apply orb_false_iff in H. destruct H as (H1 & H2).
    rewrite Ascii.eqb_sym, H1, (IH H2). reflexivity.
Qed.

(** Splitting undoes joining when no piece holds the separator. *)
Lemma split_concat sep hs :
  hs <> [] -> Forall (fun h => hasChar sep h = false) hs ->
  JsString.split sep (String.concat (String sep EmptyString) hs) = hs.
Proof.
  intros N F. induction F as [|h hs H F IH]; [congruence|].
  destruct hs as [|h' hs].
  - cbn [String.concat]. now apply split_none.
  - change (String.concat (String sep EmptyString) (h :: h' :: hs))
      with (h ++ String sep (String.concat (String sep EmptyString) (h' :: hs)))%string.
    rewrite split_app by assumption. rewrite IH; [reflexivity|discriminate].
Qed.

Lemma length_trimEnd s :
  (String.length (JsString.trimEnd s) <= String.length s)%nat.
Proof.
  induction s as [|c s IH]; [simpl; lia|].
  cbn [JsString.trimEnd]. destruct (JsString.trimEnd s).
  - destruct (JsString.isWhite c); simpl; lia.
  - simpl in *. lia.
Qed.

Lemma length_trimStart s :
  (String.length (JsString.trimStart s) <= String.length s)%nat.
Proof.
  induction s as [|c s IH]; [simpl; lia|].
  cbn [JsString.trimStart]. destruct (JsString.isWhite c); simpl in *; lia.
Qed.

(** A text that [trim] leaves alone and that is not empty begins and ends
    with a character that is not white space. *)
Lemma trim_fixed_start s x :
  s <> EmptyString -> JsString.trim s = s ->
  JsString.trimStart (s ++ x) = (s ++ x)%string /\ JsString.trimEnd s = s.
Proof.
  intros N T. destruct s as [|c s]; [congruence|].
  unfold JsString.trim in T.
  cbn [JsString.trimStart String.append] in *.
  destruct (JsString.isWhite c).
  - exfalso. apply (f_equal String.length) in T.
    pose proof (length_trimEnd (JsString.trimStart s)).
    pose proof (length_trimStart s). simpl in T. lia.
  - split; [reflexivity|exact T].
Qed.

Lemma trimEnd_app s x :
  s <> EmptyString -> JsString.trimEnd s = s ->
  JsString.trimEnd (s ++ x) = (s ++ JsString.trimEnd x)%string.
Proof.
  induction s as [|c s IH]; [congruence|]. intros _ T.
  cbn [JsString.trimEnd String.append] in *.
  destruct s as [|d s].
  - cbn [JsString.trimEnd String.append] in *.
    destruct (JsString.trimEnd x); [|reflexivity].
    destruct (JsString.isWhite c); [discriminate|reflexivity].
  - destruct (JsString.trimEnd (String d s)) as [|e r] eqn:E.
    + destruct (JsString.isWhite c); discriminate.
    + assert (T' : String e r = String d s) by congruence. clear T.
      rename T' into T. rewrite IH; [|discriminate|exact T].
      destruct (String d s ++ JsString.trimEnd x)%string eqn:A;
        [discriminate|reflexivity].
Qed.

Lemma trimEnd_newline x :
  JsString.trimEnd (String newline x) = EmptyString
  \/ exists r, JsString.trimEnd (String newline x) = String newline r.
Proof.
  cbn [JsString.trimEnd]. destruct (JsString.trimEnd x).
  - left. reflexivity.
  - right. eexists. reflexivity.
Qed.

Lemma export_text_shape s text :
  exportData s = Some text ->
  exists rest,
    text = (String.concat tabString (headers s) ++ String newline rest)%string.
Proof.
  unfold exportData. destruct (length (venues s) =? 0)%nat; [discriminate|].
  intros [= <-]. generalize (records s) as l.
  generalize (String.concat tabString (headers s)) as H.
  assert (G : forall l a,
    exists r,
      fold_left (fun csvContent o =>
         (csvContent ++ (exportRow (headers s) o ++ newlineString))%string) l a
      = (a ++ r)%string).
  { induction l as [|o l IH]; intros a.
    - exists EmptyString. symmetry. apply append_empty_r.
    - cbn [fold_left]. destruct (IH (a ++ (exportRow (headers s) o ++ newlineString))%string)
        as (r & ->).
      eexists. apply append_assoc. }
  intros H l. destruct (G l (H ++ newlineString)%string) as (r & ->).
  exists r. rewrite append_assoc. reflexivity.
Qed.

Lemma importData_headers_pass h text s :
  headers s <> [] -> headerCells text = headers s ->
  fst (importData h text s) <> SchemaMismatch.
Proof.
  intros N E. unfold importData.
  destruct (String.eqb (JsString.trim text) EmptyString); [discriminate|].
  destruct (length (JsString.split newline (JsString.trim text)) <? 2)%nat;
    [discriminate|].
  change (JsString.split tab
            (hd EmptyString (JsString.split newline (JsString.trim text))))
    with (headerCells text).
  rewrite E.
  destruct (length (headers s) =? 0)%nat eqn:L.
  { apply Nat.eqb_eq in L. destruct (headers s); [congruence|discriminate]. }
  assert (M : headersMatch
                (filter notLastUpdated
                   (if existsb (String.eqb "Last Updated") (headers s)
                    then headers s else headers s ++ ["Last Updated"]))
                (filter notLastUpdated (headers s)) = true).
  { apply headersMatch_eq.
    destruct (existsb _ _); [reflexivity|apply filter_notLastUpdated_app]. }
  rewrite M.
  destruct (parseRows h s _) as (newVenues & duplicateCount).
  destruct (allocAll newVenues s) as (ls & s2). discriminate.
Qed.

(** The header line of the exported text is read back as the headers of
    the table, so that an import of the export into the same table is
    not turned down for its headers. *)
Theorem exportData_headerCells h s text :
  let line := String.concat tabString (headers s) in
  headers s <> [] ->
  Forall (fun hd => hasChar tab hd = false) (headers s) ->
  hasChar newline line = false ->
  line <> EmptyString -> JsString.trim line = line ->
  exportData s = Some text ->
  headerCells text = headers s
  /\ fst (importData h text s) <> SchemaMismatch.
Proof.
  intros line N F L E T X.
  assert (G : headerCells text = headers s).
  { destruct (export_text_shape s text X) as (rest & ->). fold line.
    unfold headerCells, JsString.trim.
    destruct (trim_fixed_start line (String newline rest) E T) as (-> & T1).
    rewrite trimEnd_app by assumption.
    destruct (trimEnd_newline rest) as [->|(r & ->)].
    - rewrite append_empty_r, (split_none newline line L). cbn [hd].
      apply split_concat; assumption.
    - rewrite (split_app newline line r L). cbn [hd].
      apply split_concat; assumption. }
  split; [exact G|]. apply importData_headers_pass; assumption.
Qed.

Lemma exportData_headerCells_witness :
  exists text,
    exportData oneRecord = Some text
    /\ headerCells text = headers oneRecord.
Proof.
  eexists. split; [vm_compute; reflexivity|].
  apply (exportData_headerCells sampleHost oneRecord).
  - vm_compute. discriminate.
  - vm_compute. repeat constructor.
  - vm_compute. reflexivity.
  - vm_compute. discriminate.
  - vm_compute. reflexivity.
  - vm_compute. reflexivity.
Defined.

(** ** The dialog saved as it was opened *)

Lemma applyInputs_app a b o :
  applyInputs (a ++ b) o = applyInputs b (applyInputs a o).
Proof. unfold applyInputs. apply fold_left_app. Qed.

Lemma single_field (cs : list change) k c0 :
  NoDup (map field cs) -> (forall c, In c cs -> field c = k) -> In c0 cs ->
  cs = [c0].
Proof.
  intros D F I. destruct cs as [|a [|b r]].
  - destruct I.
  - destruct I as [->|[]]. reflexivity.
  - exfalso. inversion D as [|? ? N _]; subst. apply N. left.
    rewrite (F a), (F b); simpl; auto.
Qed.

Lemma getChangesDescription_one oldVenue newVenue k :
  propOr oldVenue k <> propOr newVenue k ->
  (forall k', k' <> k -> propOr newVenue k' = propOr oldVenue k') ->
  getChangesDescription oldVenue newVenue
  = Some [mkChange k (propOr oldVenue k) (propOr newVenue k)].
Proof.
  intros N E. unfold getChangesDescription.
  set (ks := uniq [] (keys oldVenue ++ keys newVenue)).
  match goal with |- match ?l with _ => _ end = _ => set (cs0 := l) end.
  assert (C : cs0 = [mkChange k (propOr oldVenue k) (propOr newVenue k)]).
  { apply (single_field cs0 k).
    - apply changes_fields_NoDup, uniq_NoDup.
    - intros c I. apply changes_of_keys in I as (_ & _ & D).
      destruct (string_dec (field c) k) as [|M]; [assumption|].
      exfalso. apply D. symmetry. now apply E.
    - apply changes_of_keys. cbn [field]. split; [|split; auto].
      unfold ks. apply uniq_In. split; [|intros []].
      destruct (in_dec string_dec k (keys oldVenue ++ keys newVenue)) as [|NI];
        [assumption|].
      exfalso. apply N. unfold propOr.
      rewrite !getProp_None_keys; auto; intros J; apply NI, in_or_app; auto. }
  rewrite C. reflexivity.
Qed.

(** The edit path of [saveEdit] when differences are found. *)
Lemma saveEdit_edit_changed h allInputs s l c cs :
  0 <= currentEditIndex s ->
  nth_error (filteredVenues s) (Z.to_nat (currentEditIndex s)) = Some l ->
  (l < length (heap s))%nat ->
  getChangesDescription (deref (heap s) l)
    (applyInputs allInputs (deref (heap s) l)) = Some (c :: cs) ->
  exists s' e,
    saveEdit h allInputs s = Some s'
    /\ history s' = e :: history s /\ action e = Edit
    /\ changes e = Some (c :: cs)
    /\ deref (heap s') l
       = setProp "Last Updated" (isoNow h)
           (applyInputs allInputs (deref (heap s) l)).
Proof.
  intros P N V G. unfold saveEdit.
  destruct (currentEditIndex s =? -1) eqn:E1; [apply Z.eqb_eq in E1; lia|].
  destruct (currentEditIndex s <? 0) eqn:E2; [apply Z.ltb_lt in E2; lia|].
  rewrite N. eexists. eexists. split; [reflexivity|].
  cbn [history set_tempNewVenue heap].
  rewrite history_resortLastUpdated, history_replaceInStore, heap_resortLastUpdated.
  rewrite deref_update_eq by assumption. rewrite G.
  split; [reflexivity|]. split; [reflexivity|]. split; [reflexivity|].
  assert (L1 : (l < length (heap (update l (applyInputs allInputs) s)))%nat)
    by (rewrite heap_update, length_assign; assumption).
  unfold replaceInStore.
  match goal with
  | |- context [JsArray.findIndex l ?v] => destruct (JsArray.findIndex l v)
  end; cbn [heap alloc set_venues set_heap fst snd addHistoryEntry set_history].
  - unfold deref at 1. rewrite app_nth1
      by (rewrite heap_update, length_assign; assumption).
    fold (deref (heap (update l (setProp "Last Updated" (isoNow h))
                         (update l (applyInputs allInputs) s))) l).
    rewrite deref_update_eq by assumption.
    rewrite deref_update_eq by assumption. reflexivity.
  - rewrite deref_update_eq by assumption.
    rewrite deref_update_eq by assumption. reflexivity.
Qed.

(** The record such inputs leave: [shown] under the key ["undefined"],
    every other cell as it was. *)
Lemma propOr_untouchedBut o shown allInputs k :
  untouchedBut o shown allInputs ->
  propOr (applyInputs allInputs o) k
  = if String.eqb k "undefined" then shown else propOr o k.
Proof.
  intros (pre & post & -> & C & U).
  rewrite applyInputs_app.
  set (o1 := applyInputs pre o).
  assert (E1 : forall k, propOr o1 k = propOr o k).
  { apply propOr_applyInputs. intros i I.
    destruct (C i) as (f & F & V); [apply in_or_app; now left|].
    unfold fieldKey. now rewrite F. }
  change (applyInputs (mkInput None shown :: post) o1)
    with (applyInputs post (setProp "undefined" shown o1)).
  set (o2 := setProp "undefined" shown o1).
  assert (E2 : forall k, propOr o2 k
                 = if String.eqb k "undefined" then shown else propOr o k).
  { intros k'. unfold o2. destruct (String.eqb k' "undefined") eqn:E.
    - apply String.eqb_eq in E. subst. apply propOr_setProp_eq.
    - apply String.eqb_neq in E. rewrite propOr_setProp_neq by assumption.
      apply E1. }
  rewrite propOr_applyInputs; [apply E2|].
  intros i I. destruct (C i) as (f & F & V); [apply in_or_app; now right|].
  unfold fieldKey. rewrite F, V, E2.
  destruct (String.eqb f "undefined") eqn:E; [|reflexivity].
  apply String.eqb_eq in E. subst. exfalso. exact (U i I F).
Qed.

(** [saveEdit] writes the value of every input under the [data-field] of
    the input, and under the key ["undefined"] when the input has none,
    as the read-only input the dialog shows for Last Updated.  So a
    dialog saved with every other input as the record has it is found
    changed unless the record already holds the text of that input under
    ["undefined"]: one Edit entry is logged with this single change, Last
    Updated is set to the time of the save and the other cells read as
    before. *)
Theorem saveEdit_untouched h index l s allInputs shown :
  nth_error (filteredVenues s) index = Some l ->
  (l < length (heap s))%nat ->
  let o := deref (heap s) l in
  untouchedBut o shown allInputs ->
  shown <> propOr o "undefined" ->
  exists s2 e,
    saveEdit h allInputs (fst (editRow h index s)) = Some s2
    /\ history s2 = e :: history s
    /\ action e = Edit
    /\ changes e = Some [mkChange "undefined" (propOr o "undefined") shown]
    /\ forall k,
         propOr (deref (heap s2) l) k
         = if String.eqb k "Last Updated" then isoNow h
           else if String.eqb k "undefined" then shown
           else propOr o k.
Proof.
  intros N V o U D. rewrite fst_editRow.
  set (s1 := set_currentEditIndex (Z.of_nat index) s).
  assert (G : getChangesDescription o (applyInputs allInputs o)
              = Some [mkChange "undefined" (propOr o "undefined") shown]).
  { rewrite (getChangesDescription_one o _ "undefined").
    - rewrite (propOr_untouchedBut o shown allInputs "undefined" U). reflexivity.
    - rewrite (propOr_untouchedBut o shown allInputs "undefined" U).
      cbn. congruence.
    - intros k' M. rewrite (propOr_untouchedBut o shown allInputs k' U).
      apply String.eqb_neq in M. rewrite M. reflexivity. }
  destruct (saveEdit_edit_changed h allInputs s1 l
              (mkChange "undefined" (propOr o "undefined") shown) [])
    as (s2 & e & S & H1 & H2 & H3 & H4).
  { simpl. lia. }
  { unfold s1. cbn [currentEditIndex filteredVenues set_currentEditIndex].
    rewrite Nat2Z.id. exact N. }
  { exact V. }
  { exact G. }
  exists s2, e.
  split; [exact S|]. split; [exact H1|]. split; [exact H2|]. split; [exact H3|].
  intros k. change (heap s1) with (heap s) in H4. fold o in H4. rewrite H4.
  destruct (String.eqb k "Last Updated") eqn:E.
  - apply String.eqb_eq in E. subst. apply propOr_setProp_eq.
  - apply String.eqb_neq in E. rewrite propOr_setProp_neq by assumption.
    apply propOr_untouchedBut. exact U.
Qed.

(** The dialog of the one record of a store, saved as it was opened. *)
Lemma saveEdit_untouched_witness :
  exists s1 allInputs s2 e,
    editRow sampleHost O oneRecord = (s1, Some allInputs)
    /\ saveEdit sampleHost allInputs s1 = Some s2
    /\ history s2 = e :: history oneRecord.
Proof.
  destruct (saveEdit_untouched sampleHost O O oneRecord
              (dialogInputs sampleHost oneRecord (deref (heap oneRecord) O))
              (toLocaleString sampleHost
                 (propOr (deref (heap oneRecord) O) "Last Updated")))
    as (s2 & e & B & C & _).
  - reflexivity.
  - vm_compute. lia.
  - exists [inputFor (deref (heap oneRecord) O) "Venue";
            inputFor (deref (heap oneRecord) O) "City";
            inputFor (deref (heap oneRecord) O) "State"], [].
    split; [reflexivity|]. split.
    + intros i I. rewrite app_nil_r in I.
      destruct I as [<-|[<-|[<-|[]]]]; eexists; split; reflexivity.
    + intros i [].
  - vm_compute. discriminate.
  - eexists. exists (dialogInputs sampleHost oneRecord (deref (heap oneRecord) O)).
    exists s2, e. split; [reflexivity|]. split; [exact B|exact C].
Defined.

(** ** References are kept in order *)

Lemma refsOk_view s s' :
  (length (heap s) <= length (heap s'))%nat ->
  venues s' = venues s ->
  NoDup (filteredVenues s') ->
  (forall l, In l (filteredVenues s') ->
     In l (filteredVenues s) \/ In l (venues s)) ->
  refsOk s -> refsOk s'.
Proof.
  intros L V D I (W1 & W2 & W3). unfold refsOk. rewrite V.
  split; [exact W1|]. split; [exact D|].
  intros l [J|J].
  - specialize (W3 l (or_introl J)). lia.
  - assert (X : (l < length (heap s))%nat).
    { destruct (I l J) as [K|K]; apply W3; auto. }
    lia.
Qed.

Lemma tempOk_same s s' :
  (length (heap s) <= length (heap s'))%nat ->
  venues s' = venues s ->
  tempNewVenue s' = tempNewVenue s ->
  tempOk s -> tempOk s'.
Proof.
  intros L V T W l E. rewrite T in E. destruct (W l E) as (A & B).
  rewrite V. split; [lia|exact B].
Qed.

Lemma tempOk_none s : tempNewVenue s = None -> tempOk s.
Proof. intros E l T. congruence. Qed.

Lemma calculatePagination_refs s :
  heap (calculatePagination s) = heap s
  /\ venues (calculatePagination s) = venues s
  /\ filteredVenues (calculatePagination s) = filteredVenues s
  /\ tempNewVenue (calculatePagination s) = tempNewVenue s.
Proof. unfold calculatePagination. now destruct (_ <? _). Qed.

Lemma refsOk_calculatePagination s : refsOk s -> refsOk (calculatePagination s).
Proof.
  destruct (calculatePagination_refs s) as (H & V & F & T).
  unfold refsOk. now rewrite H, V, F.
Qed.

Lemma tempOk_calculatePagination s : tempOk s -> tempOk (calculatePagination s).
Proof.
  destruct (calculatePagination_refs s) as (H & V & F & T).
  unfold tempOk. now rewrite H, V, T.
Qed.

Lemma wellFormed_calculatePagination s :
  wellFormed s -> wellFormed (calculatePagination s).
Proof.
  intros (R & T).
  split; [now apply refsOk_calculatePagination
         |now apply tempOk_calculatePagination].
Qed.

Lemma refsOk_sortView cmp s : refsOk s -> refsOk (sortView cmp s).
Proof.
  intros W. apply (refsOk_view s); auto.
  - unfold sortView. cbn [filteredVenues set_filteredVenues].
    eapply Permutation_NoDup; [symmetry; apply sort_perm|apply W].
  - unfold sortView. cbn [filteredVenues set_filteredVenues].
    intros l I. left. now apply in_sort_iff in I.
Qed.

Lemma wellFormed_sortView cmp s : wellFormed s -> wellFormed (sortView cmp s).
Proof. intros (R & T). split; [now apply refsOk_sortView|exact T]. Qed.

Lemma refsOk_resortLastUpdated h s : refsOk s -> refsOk (resortLastUpdated h s).
Proof.
  intros W. unfold resortLastUpdated, updateTable.
  destruct (sameColumn _ _); apply refsOk_calculatePagination; auto.
  now apply refsOk_sortView.
Qed.

Lemma wellFormed_resortLastUpdated h s :
  wellFormed s -> wellFormed (resortLastUpdated h s).
Proof.
  intros W. unfold resortLastUpdated, updateTable.
  destruct (sameColumn _ _); apply wellFormed_calculatePagination; auto.
  now apply wellFormed_sortView.
Qed.

Lemma In_assign (xs : list nat) i y x :
  In x (JsArray.assign i y xs) -> x = y \/ In x xs.
Proof.
  revert i. induction xs as [|a xs IH]; intros [|i]; simpl; try tauto.
  - intros [<-|I]; auto.
  - intros [<-|I]; auto. destruct (IH i I); auto.
Qed.

Lemma NoDup_assign (xs : list nat) i y :
  NoDup xs -> ~ In y xs -> NoDup (JsArray.assign i y xs).
Proof.
  intros D. revert i. induction D as [|a xs N D IH]; intros i Y.
  - destruct i; constructor.
  - destruct i as [|i]; simpl.
    + constructor; [|exact D]. intros I. apply Y. now right.
    + constructor.
      * intros I. apply In_assign in I as [->|I]; [|contradiction].
        apply Y. now left.
      * apply IH. intros I. apply Y. now right.
Qed.

Lemma In_splice1 {A} i (xs : list A) x :
  In x (JsArray.splice1 i xs) -> In x xs.
Proof.
  unfold JsArray.splice1. intros I. rewrite <- (firstn_skipn i xs).
  apply in_app_or in I as [I|I]; apply in_or_app; [now left|right].
  rewrite <- (firstn_skipn 1 (skipn i xs)), skipn_skipn.
  apply in_or_app. right. replace (1 + i)%nat with (S i) by lia. exact I.
Qed.

Lemma NoDup_splice1 {A} i (xs : list A) :
  NoDup xs -> NoDup (JsArray.splice1 i xs).
Proof.
  intros D. revert i. induction D as [|a xs N D IH]; intros i.
  - unfold JsArray.splice1. destruct i; constructor.
  - destruct i as [|i].
    + exact D.
    + change (JsArray.splice1 (S i) (a :: xs))
        with (a :: JsArray.splice1 i xs).
      constructor; [|apply IH]. intros I. apply N. eapply In_splice1, I.
Qed.

Lemma refsOk_replaceInStore l s : refsOk s -> refsOk (replaceInStore l s).
Proof.
  intros (W1 & W2 & W3). unfold replaceInStore.
  destruct (JsArray.findIndex l (venues s)) as [i|]; [|repeat split; auto].
  assert (Fresh : ~ In (length (heap s)) (venues s)).
  { intros I. specialize (W3 _ (or_introl I)). lia. }
  unfold refsOk.
  cbn [alloc venues filteredVenues heap set_venues set_heap].
  rewrite length_app. cbn [length].
  split; [now apply NoDup_assign|]. split; [exact W2|].
  intros x [I|I].
  - apply In_assign in I as [->|I]; [lia|].
    specialize (W3 x (or_introl I)). lia.
  - specialize (W3 x (or_intror I)). lia.
Qed.

Lemma tempOk_replaceInStore l s :
  refsOk s -> tempOk s -> tempOk (replaceInStore l s).
Proof.
  intros (W1 & W2 & W3) W4. unfold replaceInStore.
  destruct (JsArray.findIndex l (venues s)) as [i|]; [|exact W4].
  unfold tempOk.
  cbn [alloc venues filteredVenues heap tempNewVenue set_venues set_heap].
  rewrite length_app. cbn [length].
  intros x E. destruct (W4 x E) as (A & B). split; [lia|].
  intros I. apply In_assign in I as [->|I]; [lia|contradiction].
Qed.

Lemma wellFormed_update l f s : wellFormed s -> wellFormed (update l f s).
Proof.
  unfold wellFormed, refsOk, tempOk, update.
  cbn [venues filteredVenues heap tempNewVenue set_heap].
  now rewrite length_assign.
Qed.

Lemma wellFormed_alloc_temp o s :
  wellFormed s ->
  wellFormed (set_tempNewVenue (Some (length (heap s)))
                (set_currentEditIndex (-1) (set_heap (heap s ++ [o]) s))).
Proof.
  intros ((W1 & W2 & W3) & W4). unfold wellFormed, refsOk, tempOk.
  cbn [venues filteredVenues heap tempNewVenue set_tempNewVenue
       set_currentEditIndex set_heap].
  rewrite length_app. cbn [length].
  split; [split; [exact W1|split; [exact W2|]]|].
  - intros l I. specialize (W3 l I). lia.
  - intros l [= <-]. split; [lia|].
    intros I. specialize (W3 _ (or_introl I)). lia.
Qed.

Lemma wellFormed_importData h text s :
  wellFormed s -> wellFormed (snd (importData h text s)).
Proof.
  intros W. unfold importData.
  destruct (String.eqb _ _); [exact W|].
  destruct (_ <? _)%nat; [exact W|].
  match goal with
  | |- context [match ?c with Some _ => _ | None => _ end] =>
      assert (C : c = None
                  \/ exists s1, c = Some s1 /\ wellFormed s1);
      [|destruct C as [->|(s1 & -> & W1)]; [exact W|]]
  end.
  { destruct (length (headers s) =? 0)%nat.
    - right. eexists. split; [reflexivity|exact W].
    - destruct (headersMatch _ _); [|now left].
      right. eexists. split; [reflexivity|exact W]. }
  destruct (parseRows h s1 _) as (newVenues & duplicateCount).
  rewrite allocAll_spec. cbn [snd].
  apply wellFormed_calculatePagination.
  destruct W1 as ((V1 & V2 & V3) & V4). unfold wellFormed, refsOk, tempOk.
  cbn [venues filteredVenues heap tempNewVenue set_venues set_filteredVenues
       set_heap].
  rewrite length_app.
  assert (D : NoDup (venues s1 ++ seq (length (heap s1)) (length newVenues))).
  { apply NoDup_app; [exact V1|apply seq_NoDup|].
    intros a I J. apply in_seq in J. specialize (V3 a (or_introl I)). lia. }
  assert (B : forall l,
            In l (venues s1 ++ seq (length (heap s1)) (length newVenues)) ->
            (l < length (heap s1) + length newVenues)%nat).
  { intros l I. apply in_app_or in I as [I|I].
    - specialize (V3 l (or_introl I)). lia.
    - apply in_seq in I. lia. }
  split; [split; [exact D|split; [exact D|]]|].
  - intros l [I|I]; apply B; exact I.
  - intros l E. destruct (V4 l E) as (A1 & A2). split; [lia|].
    intros I. apply in_app_or in I as [I|I]; [contradiction|].
    apply in_seq in I. lia.
Qed.

Lemma wellFormed_temp_none s :
  refsOk s -> wellFormed (set_tempNewVenue None s).
Proof. intros R. split; [exact R|]. now apply tempOk_none. Qed.

Lemma wellFormed_saveEdit h allInputs s s' :
  saveEdit h allInputs s = Some s' -> wellFormed s -> wellFormed s'.
Proof.
  unfold saveEdit. intros E ((W1 & W2 & W3) & W4).
  destruct (currentEditIndex s =? -1).
  - destruct (tempNewVenue s) as [l|] eqn:T; [|discriminate].
    injection E as <-.
    apply wellFormed_temp_none, refsOk_resortLastUpdated.
    match goal with
    | |- refsOk (set_currentPage _ (calculatePagination ?t)) =>
        assert (Y : refsOk (calculatePagination t));
        [apply refsOk_calculatePagination|exact Y]
    end.
    destruct (W4 l T) as (A & B).
    unfold refsOk.
    cbn [venues filteredVenues heap set_venues set_filteredVenues
         set_heap update addHistoryEntry set_history].
    rewrite length_assign.
    assert (D : NoDup (venues s ++ [l])).
    { apply NoDup_app; [exact W1|repeat constructor; intros []|].
      intros a I [<-|[]]. contradiction. }
    assert (V : forall x, In x (venues s ++ [l]) -> (x < length (heap s))%nat).
    { intros x I. apply in_app_or in I as [I|[<-|[]]]; auto. }
    split; [exact D|]. split; [exact D|].
    intros x [I|I]; apply V; exact I.
  - destruct (currentEditIndex s <? 0); [discriminate|].
    destruct (nth_error (filteredVenues s) _) as [l|]; [|discriminate].
    injection E as <-.
    apply wellFormed_temp_none, refsOk_resortLastUpdated, refsOk_replaceInStore.
    destruct (getChangesDescription _ _) as [[|c cs]|];
      unfold refsOk;
      cbn [venues filteredVenues heap set_heap update addHistoryEntry
           set_history];
      rewrite ?length_assign; repeat split; auto.
Qed.

Lemma wellFormed_deleteRow h confirmed index s s' :
  deleteRow h confirmed index s = Some s' -> wellFormed s -> wellFormed s'.
Proof.
  unfold deleteRow. intros E ((W1 & W2 & W3) & W4).
  destruct confirmed; cbn [negb] in E;
    [|injection E as <-; exact (conj (conj W1 (conj W2 W3)) W4)].
  destruct (nth_error (filteredVenues s) index) as [l|]; [|discriminate].
  injection E as <-. unfold updateTable. apply wellFormed_calculatePagination.
  unfold wellFormed, refsOk, tempOk.
  destruct (JsArray.findIndex l (venues s)) as [i|];
    cbn [venues filteredVenues heap tempNewVenue set_venues set_filteredVenues
         addHistoryEntry set_history].
  - split; [split; [now apply NoDup_splice1|split; [now apply NoDup_splice1|]]|].
    + intros x [I|I]; apply In_splice1 in I; auto.
    + intros x T. destruct (W4 x T) as (A & B). split; [exact A|].
      intros I. apply In_splice1 in I. contradiction.
  - split; [split; [exact W1|split; [now apply NoDup_splice1|]]|exact W4].
    intros x [I|I]; [|apply In_splice1 in I]; auto.
Qed.

Lemma wellFormed_applyFilters searchInput s :
  wellFormed s -> wellFormed (applyFilters searchInput s).
Proof.
  intros ((W1 & W2 & W3) & W4). unfold applyFilters.
  match goal with
  | |- context [set_filteredVenues ?fv s] =>
      assert (F : NoDup fv /\ forall l, In l fv -> In l (venues s));
      [|revert F; generalize fv]
  end.
  { destruct (_ && _).
    - split; auto.
    - split; [now apply NoDup_filter|].
      intros l I. now apply filter_In in I as (I & _). }
  intros fv (F1 & F2).
  assert (X : wellFormed (set_currentPage 1 (set_filteredVenues fv s))).
  { split; [|exact W4]. split; [exact W1|]. split; [exact F1|].
    cbn [venues filteredVenues heap set_currentPage set_filteredVenues].
    intros l [I|I]; auto. }
  destruct (activeSortColumn _) as [c|] eqn:A.
  - unfold applyCurrentSort. rewrite A. unfold updateTable.
    now apply wellFormed_calculatePagination, wellFormed_sortView.
  - now apply wellFormed_calculatePagination.
Qed.

Lemma wellFormed_moveToNextStage h l s :
  wellFormed s -> wellFormed (moveToNextStage h l s).
Proof.
  intros W. unfold moveToNextStage. destruct (String.eqb _ _); [exact W|].
  apply wellFormed_resortLastUpdated.
  exact (wellFormed_update l _ s W).
Qed.

Lemma wellFormed_addToKanban h l s :
  wellFormed s -> wellFormed (addToKanban h l s).
Proof.
  intros W. unfold addToKanban.
  apply wellFormed_resortLastUpdated.
  pose proof (wellFormed_update l
    (fun o => setProp "Last Updated" (isoNow h) (setProp "Status" "CANVAS" o))
    s W) as (R & T).
  split; [apply refsOk_replaceInStore|apply tempOk_replaceInStore]; assumption.
Qed.

(** Whatever the user does, the references stay in order: no object is
    twice in the store or twice in the view, every reference of the store
    and of the view denotes an object, and a record waiting in the dialog
    to be added is not in the store. *)
Theorem reachable_wellFormed s : reachable s -> wellFormed s.
Proof.
  induction 1 as [|h m s R W].
  - split; [split; [constructor|split; [constructor|]]|].
    + intros l [[]|[]].
    + intros l E. discriminate.
  - destruct m; cbn [handle].
    + now apply wellFormed_importData.
    + unfold editRow.
      destruct (nth_error _ _); exact W.
    + exact (wellFormed_alloc_temp _ s W).
    + exact (wellFormed_alloc_temp _ s W).
    + destruct (saveEdit h allInputs s) eqn:E; [|exact W].
      eapply wellFormed_saveEdit; eassumption.
    + destruct (deleteRow h confirmed index s) eqn:E; [|exact W].
      eapply wellFormed_deleteRow; eassumption.
    + unfold clearAllData, updateTable. apply wellFormed_calculatePagination.
      destruct W as (_ & T). split.
      * split; [constructor|split; [constructor|]]. intros l [[]|[]].
      * intros l E. destruct (T l E) as (A & _). split; [exact A|intros []].
    + unfold sortByColumn, updateTable.
      apply wellFormed_calculatePagination.
      match goal with
      | |- wellFormed (set_currentPage 1 (sortView ?c ?t)) =>
          assert (Y : wellFormed (sortView c t)); [|exact Y]
      end.
      apply wellFormed_sortView. destruct (sameColumn _ _); exact W.
    + now apply wellFormed_applyFilters.
    + unfold applyFilterModal. apply wellFormed_applyFilters.
      repeat (destruct (String.eqb filterType _); [exact W|]). exact W.
    + unfold goToPage. destruct (_ && _); [|exact W].
      unfold updateTable. now apply wellFormed_calculatePagination.
    + unfold changePageSize, updateTable.
      now apply wellFormed_calculatePagination.
    + now apply wellFormed_moveToNextStage.
    + now apply wellFormed_addToKanban.
Qed.

(** ** A record put on the board *)

Lemma In_assign_new {A} i (y : A) xs :
  (i < length xs)%nat -> In y (JsArray.assign i y xs).
Proof.
  revert i. induction xs as [|a xs IH]; intros [|i] L; simpl in *; try lia.
  - now left.
  - right. apply IH. lia.
Qed.

(** [addToKanban] on a record of the store puts a copy of it, with the
    status CANVAS and the time of the click, in the place of the record:
    the copy is a card of the first column of the board.  One Edit entry
    is logged; it gives the old status as empty whatever the status
    was. *)
Theorem addToKanban_on_board h l s :
  In l (venues s) -> (l < length (heap s))%nat ->
  let s' := addToKanban h l s in
  let l' := length (heap s) in
  exists i e,
    JsArray.findIndex l (venues s) = Some i
    /\ venues s' = JsArray.assign i l' (venues s)
    /\ In l' (populateKanbanColumn Canvas s')
    /\ deref (heap s') l'
       = setProp "Last Updated" (isoNow h)
           (setProp "Status" "CANVAS" (deref (heap s) l))
    /\ history s' = e :: history s
    /\ action e = Edit
    /\ changes e = Some [mkChange "Status" EmptyString "CANVAS"].
Proof.
  intros I L s' l'.
  destruct (findIndex_In l (venues s) I) as (i & F).
  assert (Li : (i < length (venues s))%nat).
  { apply findIndex_Some in F. apply nth_error_Some.
    unfold loc in *. rewrite F. discriminate. }
  set (f := fun o => setProp "Last Updated" (isoNow h)
                       (setProp "Status" "CANVAS" o)).
  assert (V : venues s' = JsArray.assign i l' (venues s)).
  { unfold s', addToKanban. rewrite venues_resortLastUpdated.
    unfold replaceInStore.
    cbn [venues update addHistoryEntry set_history set_heap]. rewrite F.
    cbn [alloc venues heap set_venues set_heap update addHistoryEntry
         set_history].
    rewrite length_assign. reflexivity. }
  assert (H : heap s'
              = JsArray.assign l (f (deref (heap s) l)) (heap s)
                ++ [f (deref (heap s) l)]).
  { unfold s', addToKanban. rewrite heap_resortLastUpdated.
    unfold replaceInStore.
    cbn [venues update addHistoryEntry set_history set_heap]. rewrite F.
    cbn [alloc venues heap set_venues set_heap update addHistoryEntry
         set_history].
    f_equal. f_equal. unfold deref. now apply nth_assign_eq. }
  assert (D : deref (heap s') l' = f (deref (heap s) l)).
  { rewrite H. unfold deref, l'.
    rewrite app_nth2 by (rewrite length_assign; lia).
    rewrite length_assign, Nat.sub_diag. reflexivity. }
  exists i. eexists. split; [exact F|]. split; [exact V|]. split; [|split].
  - unfold populateKanbanColumn. apply filter_In. split.
    + rewrite V. now apply In_assign_new.
    + rewrite D. unfold f.
      rewrite propOr_setProp_neq by discriminate.
      rewrite propOr_setProp_eq. reflexivity.
  - exact D.
  - unfold s', addToKanban.
    rewrite history_resortLastUpdated, history_replaceInStore.
    cbn [history addHistoryEntry set_history action changes].
    repeat split.
Qed.

Lemma addToKanban_on_board_witness :
  In 1%nat (populateKanbanColumn Canvas (addToKanban sampleHost O oneRecord)).
Proof.
  destruct (addToKanban_on_board sampleHost O oneRecord)
    as (i & e & _ & _ & I & _).
  - vm_compute. left. reflexivity.
  - vm_compute. lia.
  - exact I.
Defined.

Lemma reachable_wellFormed_witness :
  wellFormed (handle importHost (MImport twoEqualRows) initial).
Proof.
  apply reachable_wellFormed. apply reach_handle. apply reach_initial.
Defined.

(** ** References and the buttons outside the table *)

Lemma wellFormed_initial : wellFormed initial.
Proof.
  split; [split; [constructor|split; [constructor|]]|].
  - intros l [[]|[]].
  - intros l E. discriminate.
Qed.

Lemma wellFormed_whole_store s :
  wellFormed s ->
  wellFormed (updateTable (set_currentPage 1 (set_filteredVenues (venues s) s))).
Proof.
  intros ((W1 & W2 & W3) & W4). unfold updateTable.
  apply wellFormed_calculatePagination. split; [|exact W4].
  split; [exact W1|]. split; [exact W1|].
  cbn [venues filteredVenues heap set_currentPage set_filteredVenues].
  intros l [I|I]; auto.
Qed.

Lemma wellFormed_showInView l s :
  wellFormed s -> wellFormed (fst (showInView l s)).
Proof.
  intros W. unfold showInView.
  destruct (JsArray.findIndex l (filteredVenues s)); [exact W|].
  now apply wellFormed_whole_store.
Qed.

Lemma wellFormed_editRow h index s :
  wellFormed s -> wellFormed (fst (editRow h index s)).
Proof. intros W. rewrite fst_editRow. exact W. Qed.

(** The buttons outside the table keep the references in order as well:
    clearing all filters, opening the dialog from a card of the board or
    from an entry of the history, and deleting from a card. *)
Theorem wellFormed_outside_table h confirmed l venueId s :
  wellFormed s ->
  wellFormed (clearAllFilters s)
  /\ wellFormed (fst (editKanbanVenue h l s))
  /\ wellFormed (fst (editVenueFromHistory h venueId s))
  /\ forall s', deleteKanbanVenue h confirmed l s = Some s' -> wellFormed s'.
Proof.
  intros W.
  assert (K : forall l0, wellFormed (fst (editKanbanVenue h l0 s))).
  { intros l0. unfold editKanbanVenue.
    pose proof (wellFormed_showInView l0 s W) as X.
    destruct (showInView l0 s) as (s1 & [index|]); cbn [fst] in *;
      [now apply wellFormed_editRow|exact X]. }
  split; [|split; [|split]].
  - unfold clearAllFilters.
    exact (wellFormed_whole_store (set_filters [] [] [] s) W).
  - apply K.
  - unfold editVenueFromHistory.
    destruct (findByVenueId venueId s) as [l0|]; [apply K|exact W].
  - intros s' E. unfold deleteKanbanVenue in E.
    pose proof (wellFormed_showInView l s W) as X.
    destruct (showInView l s) as (s1 & [index|]); cbn [fst] in *.
    + eapply wellFormed_deleteRow; eassumption.
    + injection E as <-. exact X.
Qed.

Lemma wellFormed_outside_table_witness :
  wellFormed (clearAllFilters oneRecord).
Proof.
  destruct (wellFormed_outside_table sampleHost true O EmptyString oneRecord)
    as (W & _); [|exact W].
  unfold oneRecord. apply wellFormed_importData. exact wellFormed_initial.
Defined.

(** ** The selections of the filter modals *)

(** No option of a filter modal is the empty string. *)
Lemma populateFilterOptions_filled filterType s :
  ~ In EmptyString (populateFilterOptions filterType s).
Proof.
  unfold populateFilterOptions.
  destruct (filterField filterType) as [k|]; [|intros []].
  intros I. apply uniq_In in I as (I & _).
  apply in_map_iff in I as (v & E & I).
  apply filter_In in I as (_ & T).
  destruct v as [[|c r]|]; simpl in *; discriminate.
Qed.

Lemma filtersOf_calculatePagination s :
  filtersOf (calculatePagination s) = filtersOf s.
Proof. unfold calculatePagination. now destruct (_ <? _). Qed.

Lemma filtersOf_resortLastUpdated h s :
  filtersOf (resortLastUpdated h s) = filtersOf s.
Proof.
  unfold resortLastUpdated, updateTable.
  destruct (sameColumn _ _); now rewrite filtersOf_calculatePagination.
Qed.

Lemma filtersOf_replaceInStore l s : filtersOf (replaceInStore l s) = filtersOf s.
Proof. unfold replaceInStore. now destruct (JsArray.findIndex l (venues s)). Qed.

Lemma filtersOf_sortByColumn column s :
  filtersOf (sortByColumn column s) = filtersOf s.
Proof.
  unfold sortByColumn, updateTable. rewrite filtersOf_calculatePagination.
  now destruct (sameColumn (sortColumn s) column).
Qed.

Lemma filtersOf_applyFilters searchInput s :
  filtersOf (applyFilters searchInput s) = filtersOf s.
Proof.
  unfold applyFilters, applyCurrentSort, updateTable.
  match goal with
  | |- context [set_filteredVenues ?fv s] => generalize fv
  end.
  intros fv.
  destruct (activeSortColumn (set_currentPage 1 (set_filteredVenues fv s)));
    now rewrite filtersOf_calculatePagination.
Qed.

Lemma filtersOf_importData h text s :
  filtersOf (snd (importData h text s)) = filtersOf s.
Proof.
  unfold importData.
  destruct (String.eqb _ _); [auto|].
  destruct (_ <? _)%nat; [auto|].
  match goal with
  | |- context [match ?c with Some _ => _ | None => _ end] =>
      assert (P : match c with
                  | Some s1 => filtersOf s1 = filtersOf s
                  | None => True
                  end);
      [ destruct (length (headers s) =? 0)%nat; [simpl; auto|];
        destruct (headersMatch _ _); auto
      | destruct c as [s1|]; [|auto] ]
  end.
  destruct (parseRows h s1 _) as (newVenues & duplicateCount).
  rewrite allocAll_spec. cbv zeta. unfold updateTable. simpl snd.
  rewrite filtersOf_calculatePagination. exact P.
Qed.

Lemma filtersOf_editRow h index s :
  filtersOf (fst (editRow h index s)) = filtersOf s.
Proof. unfold editRow. now destruct (nth_error _ _). Qed.

Lemma filtersOf_saveEdit h allInputs s s' :
  saveEdit h allInputs s = Some s' -> filtersOf s' = filtersOf s.
Proof.
  assert (F : forall t, filtersOf (set_tempNewVenue None (resortLastUpdated h t))
                        = filtersOf t)
    by (intros t; exact (filtersOf_resortLastUpdated h t)).
  assert (P : forall p t, filtersOf (set_currentPage p (calculatePagination t))
                          = filtersOf t)
    by (intros p t; exact (filtersOf_calculatePagination t)).
  unfold saveEdit.
  destruct (currentEditIndex s =? -1).
  - destruct (tempNewVenue s) as [l|]; [|discriminate].
    intros [= <-]. rewrite F, P. reflexivity.
  - destruct (currentEditIndex s <? 0); [discriminate|].
    destruct (nth_error _ _) as [l|]; [|discriminate].
    intros [= <-]. rewrite F, filtersOf_replaceInStore.
    destruct (getChangesDescription _ _) as [[|c cs]|]; reflexivity.
Qed.

Lemma filtersOf_deleteRow h confirmed index s s' :
  deleteRow h confirmed index s = Some s' -> filtersOf s' = filtersOf s.
Proof.
  unfold deleteRow. destruct confirmed; simpl; [|now intros [= <-]].
  destruct (nth_error _ _) as [l|]; [|discriminate].
  intros [= <-]. unfold updateTable. rewrite filtersOf_calculatePagination.
  now destruct (JsArray.findIndex l (venues s)).
Qed.

Lemma filtersOf_moveToNextStage h l s :
  filtersOf (moveToNextStage h l s) = filtersOf s.
Proof.
  unfold moveToNextStage. destruct (String.eqb _ _); [reflexivity|].
  now rewrite filtersOf_resortLastUpdated.
Qed.

Lemma filtersOf_addToKanban h l s : filtersOf (addToKanban h l s) = filtersOf s.
Proof.
  unfold addToKanban.
  now rewrite filtersOf_resortLastUpdated, filtersOf_replaceInStore.
Qed.

Lemma filtersOf_showInView l s : filtersOf (fst (showInView l s)) = filtersOf s.
Proof.
  unfold showInView. destruct (JsArray.findIndex l (filteredVenues s)); simpl.
  - reflexivity.
  - unfold updateTable. now rewrite filtersOf_calculatePagination.
Qed.

Lemma filtersOf_editKanbanVenue h l s :
  filtersOf (fst (editKanbanVenue h l s)) = filtersOf s.
Proof.
  unfold editKanbanVenue. pose proof (filtersOf_showInView l s) as E.
  destruct (showInView l s) as (s1 & [index|]); simpl in E |- *.
  - now rewrite filtersOf_editRow.
  - exact E.
Qed.

Lemma filtersOf_deleteKanbanVenue h confirmed l s s' :
  deleteKanbanVenue h confirmed l s = Some s' -> filtersOf s' = filtersOf s.
Proof.
  unfold deleteKanbanVenue. pose proof (filtersOf_showInView l s) as E.
  destruct (showInView l s) as (s1 & [index|]); simpl in E.
  - intros D. apply filtersOf_deleteRow in D. now rewrite D.
  - now intros [= <-].
Qed.

Lemma noEmptyChoice_filtersOf s s' :
  filtersOf s' = filtersOf s -> noEmptyChoice s -> noEmptyChoice s'.
Proof. unfold filtersOf, noEmptyChoice. now intros [= -> -> ->]. Qed.

Lemma noEmptyChoice_cleared s :
  filtersOf s = ([], [], []) -> noEmptyChoice s.
Proof. unfold filtersOf, noEmptyChoice. intros [= -> -> ->]. simpl. tauto. Qed.

(** Every handler keeps the empty string out of the selections, a filter
    modal because its checkboxes carry the options it offered. *)
Lemma noEmptyChoice_perform h a s :
  ticksOffered a -> noEmptyChoice s -> noEmptyChoice (perform h a s).
Proof.
  intros T N.
  assert (K : forall s', filtersOf s' = filtersOf s -> noEmptyChoice s')
    by (intros s' E; now apply (noEmptyChoice_filtersOf s)).
  destruct a as [m| |l|confirmed l|venueId|i|i|i|confirmed i| |confirmed|];
    cbn [perform].
  - destruct m; cbn [handle].
    + apply K, filtersOf_importData.
    + apply K, filtersOf_editRow.
    + now apply K.
    + now apply K.
    + destruct (saveEdit h allInputs s) as [s'|] eqn:E; [|exact N].
      apply K. now apply filtersOf_saveEdit in E.
    + destruct (deleteRow h confirmed index s) as [s'|] eqn:E; [|exact N].
      apply K. now apply filtersOf_deleteRow in E.
    + apply noEmptyChoice_cleared. unfold clearAllData, updateTable.
      now rewrite filtersOf_calculatePagination.
    + apply K, filtersOf_sortByColumn.
    + apply K, filtersOf_applyFilters.
    + destruct T as (s0 & T).
      assert (S : ~ In EmptyString selectedValues).
      { intros I. apply T in I. now apply populateFilterOptions_filled in I. }
      unfold applyFilterModal.
      apply (noEmptyChoice_filtersOf _ _ (filtersOf_applyFilters _ _)).
      destruct N as (N1 & N2 & N3).
      repeat destruct (String.eqb filterType _); repeat split; assumption.
    + apply K. unfold goToPage. destruct (_ && _); [|reflexivity].
      unfold updateTable. now rewrite filtersOf_calculatePagination.
    + apply K. unfold changePageSize, updateTable.
      now rewrite filtersOf_calculatePagination.
    + apply K, filtersOf_moveToNextStage.
    + apply K, filtersOf_addToKanban.
  - apply noEmptyChoice_cleared. unfold clearAllFilters, updateTable.
    now rewrite filtersOf_calculatePagination.
  - apply K, filtersOf_editKanbanVenue.
  - destruct (deleteKanbanVenue h confirmed l s) as [s'|] eqn:E; [|exact N].
    apply K. now apply filtersOf_deleteKanbanVenue in E.
  - unfold editVenueFromHistory. destruct (findByVenueId venueId s); [|exact N].
    apply K, filtersOf_editKanbanVenue.
  - destruct (popupVenue i s); [|exact N]. apply K, filtersOf_editKanbanVenue.
  - destruct (popupVenue i s); [|exact N]. now apply K.
  - destruct (popupVenue i s); [|exact N]. apply K, filtersOf_addToKanban.
  - destruct (popupVenue i s) as [l|]; [|exact N].
    destruct (deleteKanbanVenue h confirmed l s) as [s'|] eqn:E; [|exact N].
    apply K. now apply filtersOf_deleteKanbanVenue in E.
  - apply K. unfold applyColumnToggle, updateTable.
    now rewrite filtersOf_calculatePagination.
  - apply K. unfold resetTableLayout, updateTable. destruct confirmed; [|reflexivity].
    now rewrite filtersOf_calculatePagination.
  - now apply K.
Qed.

(** On a page that starts empty no selection ever holds the empty
    string. *)
Lemma pageState_noEmptyChoice s : pageState s -> noEmptyChoice s.
Proof.
  induction 1 as [|h a s _ IH T].
  - unfold noEmptyChoice. simpl. tauto.
  - now apply noEmptyChoice_perform.
Qed.

Lemma memberPass_allowPass allow o k :
  ~ In EmptyString allow -> (memberPass allow o k <-> allowPass allow o k).
Proof.
  intros N. unfold memberPass, allowPass. split.
  - intros [E|I]; [now left|right]. split; [|exact I].
    intros E. apply N. now rewrite <- E.
  - intros [E|(_ & I)]; [now left|now right].
Qed.

(** C8: a record is in the view after [applyFilters] exactly when it is in
    the store, its Status is among the selected statuses or none is
    selected, the same for Region and Type, and the search box is empty or
    some cell contains its text, case ignored.  The selections are those
    of the filter modals, which offer no empty value
    ([populateFilterOptions_filled], [pageState_noEmptyChoice]). *)
Theorem applyFilters_member searchInput s l :
  noEmptyChoice s ->
  (In l (filteredVenues (applyFilters searchInput s)) <->
   In l (venues s)
   /\ memberPass (statusFilters s) (deref (heap s) l) "Status"
   /\ memberPass (regionFilters s) (deref (heap s) l) "Region"
   /\ memberPass (typeFilters s) (deref (heap s) l) "Type"
   /\ searchPass searchInput (deref (heap s) l)).
Proof.
  intros (N1 & N2 & N3).
  rewrite applyFilters_allowPass.
  rewrite (memberPass_allowPass _ _ _ N1), (memberPass_allowPass _ _ _ N2),
    (memberPass_allowPass _ _ _ N3).
  reflexivity.
Qed.

(** The booked record is in the view and the one without a status is
    not. *)
Lemma applyFilters_member_witness :
  noEmptyChoice bookedOnly
  /\ In 0%nat (filteredVenues (applyFilters EmptyString bookedOnly))
  /\ ~ In 1%nat (filteredVenues (applyFilters EmptyString bookedOnly)).
Proof.
  assert (N : noEmptyChoice bookedOnly).
  { unfold noEmptyChoice. simpl. intuition discriminate. }
  split; [exact N|]. split.
  - apply (proj2 (applyFilters_member EmptyString bookedOnly 0%nat N)).
    repeat split; try (now left).
    + right. now left.
  - intros I.
    apply (proj1 (applyFilters_member EmptyString bookedOnly 1%nat N)) in I.
    destruct I as (_ & M & _). unfold memberPass in M.
    destruct M as [E|[E|[]]]; discriminate.
Defined.
